(** * Exposure Notification key matching: a shallow embedding of the native
      matching core (prefix_id_map.cc, key_file_parser.cc, matching_helper.cc,
      matchingjni.cc) and the properties of its specification.

    Conventions.
    - A byte is [Byte.byte]; a buffer, a [std::string] or a Java [byte[]] is a
      [list byte].  C integers are [Z], with wrap-around written out where
      the source relies on it ([uint32_t] arithmetic).
    - The byte buffer [aesInputStorage] is a list updated with stdpp's list
      insert.  The 65536-entry [int] table [prefix_end_index] is a finite map
      from index to stored value, an index nothing was stored at since the
      [memset] reading as 0.  Every index the source uses is in range.
    - Third-party code (the C++ standard library's [std::sort], nanopb,
      OpenSSL, libc's [FILE]) is not part of the repository.  [std::sort],
      nanopb's protobuf decoding and OpenSSL are interfaces (type classes)
      with the contract the source relies on; reference instances are given
      at the end of the definitions and are used to run the scenarios.
    - [while] loops whose termination depends on the input take a [fuel]
      argument and return [None] when it runs out. *)

From Stdlib Require Import ZArith.
From Stdlib.Strings Require Import Byte.
From stdpp Require Import base option list sorting gmap strings.

Local Open Scope Z_scope.

#[global] Instance byte_eq_dec : EqDecision byte := Byte.byte_eq_dec.

Abbreviation bytes := (list byte).

(** The numeric value of a byte, and the byte of a number (modulo 256). *)
Definition byte_to_Z (b : byte) : Z := Z.of_N (Byte.to_N b).

Definition byte_of_Z (z : Z) : byte :=
  default x00 (Byte.of_N (Z.to_N (z mod 256))).

(** [p[i]] read as an unsigned char.  The source never reads past the end of
    a buffer on inputs that respect its contracts. *)
Definition byte_at (p : bytes) (i : nat) : Z :=
  from_option byte_to_Z 0 (p !! i).

(** ** constants.h *)
Module constants.
Definition kRpikLength : Z := 16.
Definition kTekLength : Z := 16.
Definition kIdLength : Z := 16.
Definition kIdPerKey : Z := 144.
Definition kHkdfInfoLength : Z := 7.
(** u8"EN-RPIK" *)
Definition kHkdfInfo : bytes :=
  [x45; x4e; x2d; x52; x50; x49; x4b; x00].
Definition kRpiPaddedDataLength : Z := 12.
(** u8"EN-RPI\0\0\0\0\0\0" *)
Definition kRpiPaddedData : bytes :=
  [x45; x4e; x2d; x52; x50; x49; x00; x00; x00; x00; x00; x00; x00].
End constants.
Import constants.

(** ** std::sort *)

(** A comparator accepted by [std::sort]: a strict weak ordering. *)
Record StrictWeakOrder {A} (comp : A → A → bool) : Prop := {
  swo_irrefl : ∀ a, comp a a = false;
  swo_trans : ∀ a b c, comp a b = true → comp b c = true → comp a c = true;
  swo_incomp : ∀ a b c, comp a b = false → comp b c = false → comp a c = false
}.

(** [std::sort] comes from the C++ standard library. *)
Class StdSort := {
  std_sort : ∀ {A}, (A → A → bool) → list A → list A
}.

(** The contract of [std::sort]: the result is a rearrangement of the input
    in which no element compares less than an earlier one.  The order of
    equivalent elements is unspecified, so nothing more is assumed. *)
Definition StdSortContract `{StdSort} : Prop :=
  ∀ A (comp : A → A → bool) (l : list A),
    StrictWeakOrder comp →
    std_sort comp l ≡ₚ l ∧
    StronglySorted (λ a b, comp b a = false) (std_sort comp l).

(** ** prefix_id_map.h, prefix_id_map.cc *)
Module prefix_id_map.

Definition kIdPrefixIndexSize : Z := 65536.

(** [memcpy] of the first two bytes into a [uint16_t], on the little-endian
    host that matching_helper.cc insists on. *)
Definition GetPrefixInner (id : bytes) : Z :=
  byte_at id 0 + 256 * byte_at id 1.

Definition Compare (lhs rhs : bytes) : bool :=
  bool_decide (GetPrefixInner lhs < GetPrefixInner rhs).

Record PrefixIdMap := {
  prefix_end_index : gmap Z Z;
  scan_records : list bytes;
  scan_record_size : Z
}.

Definition GetPrefix (id : bytes) : Z := GetPrefixInner id.

(** [tbl[i]] for an [int] table that was cleared with [memset]. *)
Definition int_at (tbl : gmap Z Z) (i : Z) : Z := default 0 (tbl !! i).

(** [while (last_prefix < bound) prefix_end_index[last_prefix++] = v;]
    The loop runs [bound - last_prefix] times when that is positive; [n]
    is that count. *)
Fixpoint fill_while (n : nat) (tbl : gmap Z Z) (last_prefix bound v : Z)
  : gmap Z Z * Z :=
  match n with
  | O => (tbl, last_prefix)
  | S n' =>
      if bool_decide (last_prefix < bound)
      then fill_while n' (<[last_prefix := v]> tbl)
                      (last_prefix + 1) bound v
      else (tbl, last_prefix)
  end.

Definition fill (tbl : gmap Z Z) (last_prefix bound v : Z) : gmap Z Z * Z :=
  fill_while (Z.to_nat (bound - last_prefix)) tbl last_prefix bound v.

(** [for (int i = 0; i < scan_record_size; i++) { ... }] over the sorted
    records, [recs] being [scan_records[i..]]. *)
Fixpoint sweep (recs : list bytes) (i : Z) (tbl : gmap Z Z) (last_prefix : Z)
  : gmap Z Z * Z :=
  match recs with
  | [] => (tbl, last_prefix)
  | r :: rest =>
      let prefix := GetPrefix r in
      let '(tbl', last_prefix') := fill tbl last_prefix prefix i in
      sweep rest (i + 1) tbl' last_prefix'
  end.

Section with_sort.
Context `{StdSort}.

(** [PrefixIdMap::PrefixIdMap]; [ble_scan_records] is the Java [byte[][]]. *)
Definition new_PrefixIdMap (ble_scan_records : list bytes) : PrefixIdMap :=
  let tbl0 : gmap Z Z := ∅ in
  let size := Z.of_nat (length ble_scan_records) in
  let recs := std_sort Compare ble_scan_records in
  let '(tbl1, last_prefix) := sweep recs 0 tbl0 0 in
  let '(tbl2, _) := fill tbl1 last_prefix kIdPrefixIndexSize size in
  {| prefix_end_index := tbl2; scan_records := recs;
     scan_record_size := size |}.
End with_sort.

(** [memcmp(a, b, n) == 0], for operands that have [n] bytes each: the
    statements about [GetIdIndex] are for 16-byte records and identifiers.
    For a shorter record the source's [memcmp] reads on into the terminating
    NUL of the [std::string], which this comparison of the bytes does not
    follow. *)
Definition memcmp_eq (a b : bytes) (n : Z) : bool :=
  bool_decide (take (Z.to_nat n) a = take (Z.to_nat n) b).

(** [for (; start_index < end_index; start_index++) if (memcmp(..) == 0)
    return start_index;  return -1;] with [n] the number of iterations
    left. *)
Fixpoint scan_bucket (n : nat) (recs : list bytes) (id : bytes)
    (start_index end_index : Z) : Z :=
  match n with
  | O => -1
  | S n' =>
      if bool_decide (start_index < end_index) then
        if memcmp_eq id (default [] (recs !! Z.to_nat start_index)) kIdLength
        then start_index
        else scan_bucket n' recs id (start_index + 1) end_index
      else -1
  end.

Definition GetIdIndex (m : PrefixIdMap) (id : bytes) : Z :=
  let prefix := GetPrefix id in
  let start_index :=
    if bool_decide (prefix > 0)
    then int_at (prefix_end_index m) (prefix - 1)
    else 0 in
  let end_index := int_at (prefix_end_index m) prefix in
  scan_bucket (Z.to_nat (end_index - start_index)) (scan_records m) id
              start_index end_index.

End prefix_id_map.
Import prefix_id_map.

(** ** libc: a [FILE] opened for reading *)
Module libc.
(** The unread part of the file and the end-of-file indicator.  Reads from
    a regular file do not fail, so [ferror] is always clear. *)
Record FILE := {
  f_unread : bytes;
  f_eof : bool
}.

(** [fopen(name, "rb")] on a file with the given contents. *)
Definition fopen_rb (contents : bytes) : FILE :=
  {| f_unread := contents; f_eof := false |}.

(** [fread(buffer, 1, size, file)]: the bytes stored into [buffer] (their
    number is the return value) and the file afterwards.  A short read
    sets the end-of-file indicator. *)
Definition fread (size : Z) (file : FILE) : bytes * FILE :=
  let got := take (Z.to_nat size) (f_unread file) in
  (got,
   {| f_unread := drop (Z.to_nat size) (f_unread file);
      f_eof := f_eof file || bool_decide (Z.of_nat (length got) < size) |}).

Definition feof (file : FILE) : bool := f_eof file.
Definition ferror (file : FILE) : bool := false.
End libc.
Import libc.

(** ** nanopb input streams (pb_decode.h), with the callback of
       key_file_parser.cc *)
Module pb_stream.

Definition SIZE_MAX : Z := 2 ^ 64 - 1.

(** [pb_istream_t]: [state] is the [FILE] the callback reads from;
    [callback] is always [ReadFromFileToStream]. *)
Record pb_istream_t := {
  state : FILE;
  bytes_left : Z
}.

(** key_file_parser.cc, [ReadFromFileToStream]: the stream afterwards, the
    bytes stored into [buffer], and the return value. *)
Definition ReadFromFileToStream (stream : pb_istream_t) (size : Z)
  : pb_istream_t * bytes * bool :=
  let '(buffer, file) := fread size (state stream) in
  let count := Z.of_nat (length buffer) in
  if ferror file then
    ({| state := file; bytes_left := bytes_left stream |}, buffer, false)
  else
    let left := if feof file then 0 else bytes_left stream in
    ({| state := file; bytes_left := left |}, buffer,
     bool_decide (count = size)).

(** key_file_parser.cc, [CreatePbInputStream]. *)
Definition CreatePbInputStream (file : FILE) : pb_istream_t :=
  {| state := file; bytes_left := SIZE_MAX |}.

(** nanopb's [pb_read(stream, buf, count)] for a callback stream and a
    non-null [buf]: the stream afterwards, the bytes stored into [buf], and
    the return value. *)
Definition pb_read (stream : pb_istream_t) (count : Z)
  : pb_istream_t * bytes * bool :=
  if bool_decide (count = 0) then (stream, [], true)
  else if bool_decide (bytes_left stream < count) then (stream, [], false)
  else
    let '(stream', buf, ok) := ReadFromFileToStream stream count in
    if ok then
      ({| state := state stream';
          bytes_left := (bytes_left stream' - count) mod 2 ^ 64 |}, buf, true)
    else (stream', buf, false).

End pb_stream.
Import pb_stream.

(** ** gen/exposure_key_export.pb.h *)

(** Modelled from the spec: the generated nanopb header
    gen/exposure_key_export.pb.h, which declares the decoded key structure, is
    not among the sources.  The structure carries the 16 bytes of key
    material, the signed 32-bit rolling start interval number and the signed
    32-bit rolling period (default 144); the further metadata fields of the
    schema and the presence flags of the optional fields play no part in
    matching and are left out.  The record therefore decides which keys match
    and how many are counted; it does not decide the bytes that [pb_encode]
    writes for a key, and no statement below speaks of them. *)
Record TemporaryExposureKeyNano := {
  key_data : bytes;
  rolling_start_interval_number : Z;
  rolling_period : Z
}.

#[global] Instance TemporaryExposureKeyNano_eq_dec :
  EqDecision TemporaryExposureKeyNano.
Proof. solve_decision. Defined.

(** nanopb's decoding and encoding entry points used by the sources, and the
    field number of [keys] in the export message (a constant of the generated
    header).  [pb_decode_tag] yields the stream, the wire type, the tag and
    the end-of-file flag it stores through its pointer arguments; its return
    value is not used by the sources.  [pb_decode_delimited] is taken at the
    field table of [TemporaryExposureKeyNano], starting from the default
    initialiser; [None] is the return value [false]. *)
Class NanoPb := {
  TemporaryExposureKeyExportNano_keys_tag : Z;
  pb_decode_tag : pb_istream_t → pb_istream_t * (Z * Z * bool);
  pb_skip_field : pb_istream_t → Z → pb_istream_t;
  pb_decode_delimited :
    pb_istream_t → pb_istream_t * option TemporaryExposureKeyNano;
  pb_encode : TemporaryExposureKeyNano → option bytes
}.

(** ** key_file_parser.h, key_file_parser.cc *)
Module key_file_parser.

(** "EK Export v1    ", with the terminating NUL of the array. *)
Definition kFileHeader : bytes :=
  [x45; x4b; x20; x45; x78; x70; x6f; x72; x74; x20; x76; x31;
   x20; x20; x20; x20; x00].
Definition kFileHeaderSize : Z := Z.of_nat (length kFileHeader) - 1.
Definition kDefaultBufferSize : Z := 64 * 1024.

(** [VerifyHeader]: [header] starts as zeros, [pb_read] stores what it could
    read (its return value is ignored), and [memcmp] decides. *)
Definition VerifyHeader (pb_istream : pb_istream_t) : pb_istream_t * bool :=
  let header0 := replicate (Z.to_nat kFileHeaderSize) x00 in
  let '(pb_istream', buf, _) := pb_read pb_istream kFileHeaderSize in
  let header := buf ++ drop (length buf) header0 in
  let result := memcmp_eq header kFileHeader kFileHeaderSize in
  (pb_istream', result).

(** [KeyFileIterator]: [file_] points to the [FILE] that is [state] of
    [pb_istream_], and [buffer_] is that file's I/O buffer; the stream and
    the tag are the whole state. *)
Record KeyFileIterator := {
  pb_istream_ : pb_istream_t;
  next_tag_ : Z
}.

Section with_nanopb.
Context `{NanoPb}.

Definition IsTagForKeys (tag : Z) : bool :=
  bool_decide (tag = TemporaryExposureKeyExportNano_keys_tag).

(** The loop of [ReadUntilNextKeyTagOrEnd], entered with the current
    value of [eof]; [fuel] bounds the number of iterations. *)
Fixpoint read_until (fuel : nat) (stream : pb_istream_t) (next_tag : Z)
    (eof : bool) : option KeyFileIterator :=
  if eof then Some {| pb_istream_ := stream; next_tag_ := next_tag |}
  else
    match fuel with
    | O => None
    | S fuel' =>
        let '(stream1, (wire_type, tag, eof')) := pb_decode_tag stream in
        if IsTagForKeys tag
        then Some {| pb_istream_ := stream1; next_tag_ := tag |}
        else read_until fuel' (pb_skip_field stream1 wire_type) tag eof'
    end.

Definition ReadUntilNextKeyTagOrEnd (fuel : nat) (it : KeyFileIterator)
  : option KeyFileIterator :=
  read_until fuel (pb_istream_ it) (next_tag_ it) false.

(** The constructor: [next_tag_(0)], then [ReadUntilNextKeyTagOrEnd]. *)
Definition new_KeyFileIterator (fuel : nat) (pb_istream : pb_istream_t)
  : option KeyFileIterator :=
  ReadUntilNextKeyTagOrEnd fuel
    {| pb_istream_ := pb_istream; next_tag_ := 0 |}.

Definition HasNext (it : KeyFileIterator) : bool :=
  bool_decide (next_tag_ it ≠ 0).

(** [ReadNextKey]: the iterator afterwards and the key, [None] for
    [nullptr].  The outer [None] is for a scan that ran out of fuel. *)
Definition ReadNextKey (fuel : nat) (it : KeyFileIterator)
  : option (KeyFileIterator * option TemporaryExposureKeyNano) :=
  if negb (IsTagForKeys (next_tag_ it)) then Some (it, None)
  else
    let '(stream, key) := pb_decode_delimited (pb_istream_ it) in
    let it1 := {| pb_istream_ := stream; next_tag_ := next_tag_ it |} in
    match key with
    | None => Some (it1, None)
    | Some key =>
        it2 ← ReadUntilNextKeyTagOrEnd fuel it1;
        Some (it2, Some key)
    end.

Definition Next := ReadNextKey.

(** [CreateKeyFileIterator]; [disk] maps the names of the existing files
    to their contents.  The inner [None] is [nullptr]. *)
Definition CreateKeyFileIterator (disk : gmap string bytes) (fuel : nat)
    (key_file : string) : option (option KeyFileIterator) :=
  match disk !! key_file with
  | None => Some None
  | Some contents =>
      let file := fopen_rb contents in
      let pb_istream := CreatePbInputStream file in
      let '(pb_istream', ok) := VerifyHeader pb_istream in
      if negb ok then Some None
      else Some <$> new_KeyFileIterator fuel pb_istream'
  end.

End with_nanopb.
End key_file_parser.
Import key_file_parser.

(** ** OpenSSL *)

(** The calls of matching_helper.cc into OpenSSL.  [HKDF] is taken at
    [EVP_sha256()] with arguments the output length, the secret, the salt and
    the info, [None] being a return value other than 1; [EVP_EncryptInit_ex]
    at [EVP_aes_128_ecb()] with the key; [EVP_EncryptUpdate] yields the
    context, the bytes written to the output and whether it returned 1.
    [AES_128_encrypt key block] is the AES-128 block function itself, which
    the sources never call directly: the contract below states the ECB calls
    in terms of it. *)
Class OpenSSL := {
  EVP_CIPHER_CTX : Type;
  EVP_CIPHER_CTX_init : EVP_CIPHER_CTX;
  HKDF : Z → bytes → bytes → bytes → option bytes;
  EVP_EncryptInit_ex : EVP_CIPHER_CTX → bytes → EVP_CIPHER_CTX * bool;
  EVP_EncryptUpdate : EVP_CIPHER_CTX → bytes → EVP_CIPHER_CTX * bytes * bool;
  AES_128_encrypt : bytes → bytes → bytes
}.

(** The first [n] 16-byte blocks of a buffer. *)
Fixpoint blocks (n : nat) (buf : bytes) : list bytes :=
  match n with
  | O => []
  | S n' => take 16 buf :: blocks n' (drop 16 buf)
  end.

(** Electronic codebook mode: every block is encrypted on its own. *)
Definition ecb_encrypt (E : bytes → bytes) (n : nat) (input : bytes) : bytes :=
  concat (E <$> blocks n input).

(** What the sources rely on: the block function maps 16 bytes to 16 bytes,
    and an update on a context that was just initialised with a key, given
    [n] whole blocks, encrypts them in ECB mode under that key. *)
Definition OpenSSLContract `{OpenSSL} : Prop :=
  (∀ key block, length block = 16%nat →
     length (AES_128_encrypt key block) = 16%nat) ∧
  (∀ ctx key ctx' (n : nat) input,
     EVP_EncryptInit_ex ctx key = (ctx', true) →
     length input = (16 * n)%nat →
     ∃ ctx'', EVP_EncryptUpdate ctx' input =
              (ctx'', ecb_encrypt (AES_128_encrypt key) n input, true)).

(** ** matching_helper.h, matching_helper.cc *)
Module matching_helper.
Section with_libraries.
Context `{StdSort} `{NanoPb} `{OpenSSL}.

Record MatchingHelper := {
  prefix_key_map : PrefixIdMap;
  context : EVP_CIPHER_CTX;
  aesInputStorage : bytes;
  last_processed_key_count : Z
}.

Definition set_context (c : EVP_CIPHER_CTX) (h : MatchingHelper) :=
  {| prefix_key_map := prefix_key_map h; context := c;
     aesInputStorage := aesInputStorage h;
     last_processed_key_count := last_processed_key_count h |}.

Definition set_aesInputStorage (s : bytes) (h : MatchingHelper) :=
  {| prefix_key_map := prefix_key_map h; context := context h;
     aesInputStorage := s;
     last_processed_key_count := last_processed_key_count h |}.

Definition set_last_processed_key_count (n : Z) (h : MatchingHelper) :=
  {| prefix_key_map := prefix_key_map h; context := context h;
     aesInputStorage := aesInputStorage h;
     last_processed_key_count := n |}.

(** [memcpy(&buf[off], src, n)] *)
Definition memcpy (buf : bytes) (off : Z) (src : bytes) (n : Z) : bytes :=
  take (Z.to_nat off) buf ++ take (Z.to_nat n) src
    ++ drop (Z.to_nat (off + n)) buf.

(** The constructor's loop, [n] iterations left. *)
Fixpoint init_storage (n : nat) (storage : bytes) (i : Z) : bytes :=
  match n with
  | O => storage
  | S n' =>
      if bool_decide (i < kIdPerKey)
      then init_storage n'
             (memcpy storage (i * kIdLength) kRpiPaddedData
                     kRpiPaddedDataLength) (i + 1)
      else storage
  end.

(** [MatchingHelper::MatchingHelper].  The member array [aesInputStorage]
    is indeterminate where the constructor does not write it; those
    bytes are written by [GenerateIds] before they are read, and stand
    as zeros here. *)
Definition new_MatchingHelper (scan_record_ids : list bytes)
  : MatchingHelper :=
  let storage0 := replicate (Z.to_nat (kIdPerKey * kIdLength)) x00 in
  {| prefix_key_map := new_PrefixIdMap scan_record_ids;
     context := EVP_CIPHER_CTX_init;
     aesInputStorage := init_storage (Z.to_nat kIdPerKey) storage0 0;
     last_processed_key_count := 0 |}.

(** [*((uint32_t * ) (&buf[off])) = v] on a little-endian host. *)
Definition store_u32_le (buf : bytes) (off : Z) (v : Z) : bytes :=
  <[Z.to_nat (off + 3) := byte_of_Z (Z.shiftr v 24)]>
    (<[Z.to_nat (off + 2) := byte_of_Z (Z.shiftr v 16)]>
      (<[Z.to_nat (off + 1) := byte_of_Z (Z.shiftr v 8)]>
        (<[Z.to_nat off := byte_of_Z v]> buf))).

(** The loop of [GenerateIds] that writes the interval numbers; the
    [uint32_t] counter wraps around. *)
Fixpoint write_intervals (n : nat) (storage : bytes)
    (index en_interval_number : Z) : bytes :=
  match n with
  | O => storage
  | S n' =>
      if bool_decide (index < kIdPerKey * kIdLength)
      then write_intervals n'
             (store_u32_le storage (index + 12) en_interval_number)
             (index + kIdLength)
             ((en_interval_number + 1) mod 2 ^ 32)
      else storage
  end.

(** [MatchingHelper::GenerateIds]: the helper afterwards and, when the
    return value is [true], the bytes written to [ids]. *)
Definition GenerateIds (h : MatchingHelper) (diagnosis_key : bytes)
    (rolling_start_number : Z) : MatchingHelper * option bytes :=
  match HKDF kRpikLength (take (Z.to_nat kTekLength) diagnosis_key) []
             (take (Z.to_nat kHkdfInfoLength) kHkdfInfo) with
  | None => (h, None)
  | Some rpi_key =>
      let '(ctx, ok) := EVP_EncryptInit_ex (context h) rpi_key in
      let h := set_context ctx h in
      if negb ok then (h, None)
      else
        let storage :=
          write_intervals (Z.to_nat kIdPerKey) (aesInputStorage h) 0
                          rolling_start_number in
        let h := set_aesInputStorage storage h in
        let '(ctx, ids, ok) :=
          EVP_EncryptUpdate (context h)
            (take (Z.to_nat (kIdPerKey * kIdLength)) storage) in
        (set_context ctx h, if ok then Some ids else None)
  end.

(** [for (int j = 0; j < kIdPerKey * kIdLength; j += kIdLength)
      if (prefix_key_map->GetIdIndex(&ids[j]) >= 0)
        { matched.push_back(item); break; }]
    with [n] the number of iterations left; the result is [matched]
    after the loop.  The same loop serves [Matching], where [item] is the
    key, and [MatchingLegacy], where it is the index. *)
Fixpoint probe_ids {A} (n : nat) (m : PrefixIdMap) (ids : bytes) (j : Z)
    (item : A) (matched : list A) : list A :=
  match n with
  | O => matched
  | S n' =>
      if bool_decide (j < kIdPerKey * kIdLength) then
        if bool_decide (GetIdIndex m (drop (Z.to_nat j) ids) >= 0)
        then matched ++ [item]
        else probe_ids n' m ids (j + kIdLength) item matched
      else matched
  end.

(** The body of the [while] loop of [Matching] for a key that [Next]
    returned. *)
Definition Matching_key (h : MatchingHelper)
    (matched_keys : list TemporaryExposureKeyNano)
    (key : TemporaryExposureKeyNano)
  : MatchingHelper * list TemporaryExposureKeyNano :=
  let h := set_last_processed_key_count
             ((last_processed_key_count h + 1) mod 2 ^ 32) h in
  match GenerateIds h (key_data key)
          (rolling_start_interval_number key mod 2 ^ 32) with
  | (h', Some ids) =>
      (h', probe_ids (Z.to_nat kIdPerKey) (prefix_key_map h') ids 0
                     key matched_keys)
  | (h', None) => (h', matched_keys)
  end.

(** [while (key_file_iterator->HasNext()) { ... }] *)
Fixpoint Matching_while (fuel : nat) (it : KeyFileIterator)
    (h : MatchingHelper) (matched_keys : list TemporaryExposureKeyNano)
  : option (MatchingHelper * list TemporaryExposureKeyNano) :=
  if negb (HasNext it) then Some (h, matched_keys)
  else
    match fuel with
    | O => None
    | S fuel' =>
        match Next fuel' it with
        | None => None
        | Some (it', None) => Matching_while fuel' it' h matched_keys
        | Some (it', Some key) =>
            let '(h', matched_keys') := Matching_key h matched_keys key in
            Matching_while fuel' it' h' matched_keys'
        end
    end.

(** [for (const auto &key_file : key_files) { ... }] *)
Fixpoint Matching_for (disk : gmap string bytes) (fuel : nat)
    (key_files : list string) (h : MatchingHelper)
    (matched_keys : list TemporaryExposureKeyNano)
  : option (MatchingHelper * list TemporaryExposureKeyNano) :=
  match key_files with
  | [] => Some (h, matched_keys)
  | key_file :: rest =>
      match CreateKeyFileIterator disk fuel key_file with
      | None => None
      | Some None => Matching_for disk fuel rest h matched_keys
      | Some (Some it) =>
          '(h', matched_keys') ← Matching_while fuel it h matched_keys;
          Matching_for disk fuel rest h' matched_keys'
      end
  end.

(** The part of [Matching] up to the end of the loops: the helper and
    [matched_keys] at that point. *)
Definition Matching_keys (disk : gmap string bytes) (fuel : nat)
    (h : MatchingHelper) (key_files : list string)
  : option (MatchingHelper * list TemporaryExposureKeyNano) :=
  Matching_for disk fuel key_files (set_last_processed_key_count 0 h) [].

(** nanopb_encoder.cc, [EncodeTemporaryExposureKey].  When [pb_encode]
    fails the source returns [nullptr] as a [std::string], which has no
    defined result; the empty string stands for it here, and the statements
    about the array that [Matching] returns assume that the matched keys
    encode. *)
Definition EncodeTemporaryExposureKey (key : TemporaryExposureKeyNano)
  : bytes :=
  default [] (pb_encode key).

(** [MatchingHelper::Matching]: the helper afterwards and the returned
    array, [None] for [nullptr]. *)
Definition Matching (disk : gmap string bytes) (fuel : nat)
    (h : MatchingHelper) (key_files : list string)
  : option (MatchingHelper * option (list bytes)) :=
  '(h', matched_keys) ← Matching_keys disk fuel h key_files;
  if bool_decide (length matched_keys = 0%nat) then Some (h', None)
  else Some (h', Some (EncodeTemporaryExposureKey <$> matched_keys)).

(** The loop of [MatchingLegacy], [n] iterations left.
    [GetByteArrayRegion(key_array, 0, kIdLength, ..)] copies the first
    16 bytes of the key; the [jint] start number converts to
    [uint32_t].  This is the loop for key arrays of at least 16 bytes: for a
    shorter one [GetByteArrayRegion] throws and copies nothing, and the
    source goes on with whatever [key_bytes] held, which the model does not
    follow; the statements about the matches of this loop assume 16 bytes
    or more. *)
Fixpoint MatchingLegacy_for (n : nat) (h : MatchingHelper)
    (diagnosis_keys : list bytes) (rolling_start_number_array : list Z)
    (i key_count : Z) (match_indexes : list Z)
  : MatchingHelper * list Z :=
  match n with
  | O => (h, match_indexes)
  | S n' =>
      if bool_decide (i < key_count) then
        let key_array := default [] (diagnosis_keys !! Z.to_nat i) in
        let key_bytes := take (Z.to_nat kIdLength) key_array in
        let start :=
          default 0 (rolling_start_number_array !! Z.to_nat i) in
        let '(h', match_indexes') :=
          match GenerateIds h key_bytes (start mod 2 ^ 32) with
          | (h', Some ids) =>
              (h', probe_ids (Z.to_nat kIdPerKey) (prefix_key_map h')
                             ids 0 i match_indexes)
          | (h', None) => (h', match_indexes)
          end in
        MatchingLegacy_for n' h' diagnosis_keys rolling_start_number_array
                           (i + 1) key_count match_indexes'
      else (h, match_indexes)
  end.

(** [MatchingHelper::MatchingLegacy]: the helper afterwards and the
    returned [int[]], [None] for [nullptr]. *)
Definition MatchingLegacy (h : MatchingHelper)
    (diagnosis_keys : list bytes) (rolling_start_numbers : list Z)
    (key_count : Z) : MatchingHelper * option (list Z) :=
  if bool_decide (key_count > Z.of_nat (length diagnosis_keys))
  then (h, None)
  else if bool_decide (key_count > Z.of_nat (length rolling_start_numbers))
  then (h, None)
  else
    let '(h', match_indexes) :=
      MatchingLegacy_for (Z.to_nat key_count) h diagnosis_keys
                         rolling_start_numbers 0 key_count [] in
    if bool_decide (length match_indexes = 0%nat) then (h', None)
    else (h', Some match_indexes).

(** [LastProcessedKeyCount]: the [uint32_t] counter returned as [jint]. *)
Definition LastProcessedKeyCount (h : MatchingHelper) : Z :=
  let c := last_processed_key_count h in
  if bool_decide (c < 2 ^ 31) then c else c - 2 ^ 32.

End with_libraries.
End matching_helper.
Import matching_helper.

(** ** matchingjni.cc *)
Module matchingjni.
Section with_libraries.
Context `{StdSort} `{NanoPb} `{OpenSSL}.

(** [initNative]: [scan_id_records] is [None] for a null reference.  The
    native heap maps the address of every live helper to it; [new]
    yields an address that is not in use, and the handle returned to
    Java is that address, 0 when no helper was made. *)
Definition initNative (heap : gmap positive MatchingHelper)
    (scan_id_records : option (list bytes))
  : Z * gmap positive MatchingHelper :=
  match scan_id_records with
  | None => (0, heap)
  | Some records =>
      if bool_decide (Z.of_nat (length records) <= 0) then (0, heap)
      else
        let p := fresh (dom heap) in
        (Z.pos p, <[p := new_MatchingHelper records]> heap)
  end.

End with_libraries.
End matchingjni.
Import matchingjni.

(** ** matching_helper.cc: [hexStr] *)
Module hexstr.

(** The characters '0' .. '9', 'a' .. 'f'. *)
Definition hexmap : bytes :=
  [x30; x31; x32; x33; x34; x35; x36; x37;
   x38; x39; x61; x62; x63; x64; x65; x66].

(** [hexmap[k]] *)
Definition hexmap_at (k : Z) : byte := default x00 (hexmap !! Z.to_nat k).

(** The loop of [hexStr], [n] iterations left; [s] is the string being
    filled. *)
Fixpoint hexStr_for (n : nat) (data : bytes) (len i : Z) (s : bytes)
  : bytes :=
  match n with
  | O => s
  | S n' =>
      if bool_decide (i < len) then
        let d := byte_at data (Z.to_nat i) in
        let s1 :=
          <[Z.to_nat (2 * i) := hexmap_at (Z.shiftr (Z.land d 240) 4)]> s in
        let s2 := <[Z.to_nat (2 * i + 1) := hexmap_at (Z.land d 15)]> s1 in
        hexStr_for n' data len (i + 1) s2
      else s
  end.

(** [hexStr(data, len)]: the string starts as [len * 2] blanks.  [len] and
    [len * 2] are [int]s: [None] stands for no result, when the product
    leaves the range of [int] (from [len] = 2^30 on) or is negative, in which
    case the constructor of the string is asked for more than any string
    holds and throws. *)
Definition hexStr (data : bytes) (len : Z) : option bytes :=
  if bool_decide (0 ≤ len * 2 < 2 ^ 31)
  then Some (hexStr_for (Z.to_nat len) data len 0
                        (replicate (Z.to_nat (len * 2)) x20))
  else None.

End hexstr.
Import hexstr.

(** ** matchingjni.cc: the entry points that take a handle *)
Module matchingjni_handles.
Section with_libraries.
Context `{StdSort} `{NanoPb} `{OpenSSL}.

(** [reinterpret_cast<exposure::MatchingHelper * >(native_ptr)]: the helper
    at that address, if the handle is the address of a live helper.  For any
    other non-zero handle C++ defines no behaviour. *)
Definition helper_at (heap : gmap positive MatchingHelper) (native_ptr : Z)
  : option (positive * MatchingHelper) :=
  match native_ptr with
  | Z.pos p => (λ h, (p, h)) <$> heap !! p
  | _ => None
  end.

(** [matchingNative]: the heap afterwards and the returned array.  [None]
    stands for no result: the loops ran out of fuel, or the handle is not
    the address of a live helper.  [key_files_jstring] is [None] for a null
    reference. *)
Definition matchingNative (disk : gmap string bytes) (fuel : nat)
    (heap : gmap positive MatchingHelper) (native_ptr : Z)
    (key_files_jstring : option (list string))
  : option (gmap positive MatchingHelper * option (list bytes)) :=
  match key_files_jstring with
  | None => Some (heap, None)
  | Some key_files =>
      if bool_decide (native_ptr = 0) then Some (heap, None)
      else
        '(p, wrapper) ← helper_at heap native_ptr;
        '(wrapper', result) ← Matching disk fuel wrapper key_files;
        Some (<[p := wrapper']> heap, result)
  end.

(** [matchingLegacyNative]; the two arrays are [None] for null references. *)
Definition matchingLegacyNative (heap : gmap positive MatchingHelper)
    (native_ptr : Z) (diagnosis_keys : option (list bytes))
    (interval_numbers : option (list Z)) (key_count : Z)
  : option (gmap positive MatchingHelper * option (list Z)) :=
  match diagnosis_keys, interval_numbers with
  | Some dk, Some rs =>
      if bool_decide (native_ptr = 0) then Some (heap, None)
      else
        '(p, wrapper) ← helper_at heap native_ptr;
        let '(wrapper', result) := MatchingLegacy wrapper dk rs key_count in
        Some (<[p := wrapper']> heap, result)
  | _, _ => Some (heap, None)
  end.

(** [lastProcessedKeyCountNative] *)
Definition lastProcessedKeyCountNative (heap : gmap positive MatchingHelper)
    (native_ptr : Z) : option Z :=
  if bool_decide (native_ptr = 0) then Some (-1)
  else
    '(_, wrapper) ← helper_at heap native_ptr;
    Some (LastProcessedKeyCount wrapper).

(** [releaseNative]: [delete wrapper] takes the helper off the heap. *)
Definition releaseNative (heap : gmap positive MatchingHelper)
    (native_ptr : Z) : option (gmap positive MatchingHelper) :=
  if bool_decide (native_ptr = 0) then Some heap
  else
    '(p, _) ← helper_at heap native_ptr;
    Some (delete p heap).

End with_libraries.
End matchingjni_handles.
Import matchingjni_handles.

(** ** Reference instances of the three libraries

    They make the model run on concrete inputs.  The sort is stdpp's merge
    sort; the protobuf decoder follows the wire format the way nanopb reads
    it from a callback stream; the cipher is a stand-in with the interface of
    the real one and no cryptographic value. *)

Definition not_less {A} (comp : A → A → bool) (a b : A) : Prop :=
  comp b a = false.

#[global] Instance not_less_dec {A} (comp : A → A → bool) a b :
  Decision (not_less comp a b).
Proof. unfold not_less. apply _. Defined.

Definition ref_sort : StdSort :=
  {| std_sort A comp l := merge_sort (not_less comp) l |}.

Module ref_nanopb.

Definition keys_tag : Z := 7.

Definition to_int32 (v : Z) : Z :=
  let w := v mod 2 ^ 32 in
  if bool_decide (w < 2 ^ 31) then w else w - 2 ^ 32.

Definition pb_readbyte (s : pb_istream_t) : pb_istream_t * option byte :=
  if bool_decide (bytes_left s = 0) then (s, None)
  else
    let '(s', buf, ok) := ReadFromFileToStream s 1 in
    if ok then
      ({| state := state s'; bytes_left := (bytes_left s' - 1) mod 2 ^ 64 |},
       head buf)
    else (s', None).

(** The continuation bytes of a varint, at most [n] of them. *)
Fixpoint varint_rest (n : nat) (s : pb_istream_t) (bitpos result : Z)
  : pb_istream_t * option Z :=
  match n with
  | O => (s, None)
  | S n' =>
      match pb_readbyte s with
      | (s', None) => (s', None)
      | (s', Some b) =>
          let v := byte_to_Z b in
          let result' := Z.lor result (Z.shiftl (Z.land v 127) bitpos) in
          if bool_decide (Z.land v 128 = 0) then (s', Some result')
          else varint_rest n' s' (bitpos + 7) result'
      end
  end.

(** A 32-bit varint, and whether the stream was at its end before the
    first byte. *)
Definition pb_decode_varint32_eof (s : pb_istream_t)
  : pb_istream_t * option Z * bool :=
  match pb_readbyte s with
  | (s', None) => (s', None, bool_decide (bytes_left s' = 0))
  | (s', Some b) =>
      let v := byte_to_Z b in
      if bool_decide (Z.land v 128 = 0) then (s', Some v, false)
      else
        let '(s'', r) := varint_rest 9 s' 7 (Z.land v 127) in
        (s'', (λ x, x mod 2 ^ 32) <$> r, false)
  end.

Definition pb_decode_varint32 (s : pb_istream_t) : pb_istream_t * option Z :=
  fst (pb_decode_varint32_eof s).

(** The stream, the wire type, the tag and the end-of-file flag stored by
    [pb_decode_tag], and its return value.  A zero tag ends the message. *)
Definition decode_tag (s : pb_istream_t)
  : pb_istream_t * (Z * Z * bool) * bool :=
  match pb_decode_varint32_eof s with
  | (s', None, eof) => (s', (0, 0, eof), false)
  | (s', Some temp, _) =>
      if bool_decide (temp = 0) then (s', (0, 0, true), false)
      else (s', (Z.land temp 7, Z.shiftr temp 3, false), true)
  end.

(** Skips bytes up to and including one without the continuation bit. *)
Fixpoint skip_varint (n : nat) (s : pb_istream_t) : pb_istream_t * bool :=
  match n with
  | O => (s, false)
  | S n' =>
      match pb_readbyte s with
      | (s', None) => (s', false)
      | (s', Some b) =>
          if bool_decide (Z.land (byte_to_Z b) 128 = 0) then (s', true)
          else skip_varint n' s'
      end
  end.

Definition skip_bytes (s : pb_istream_t) (count : Z) : pb_istream_t * bool :=
  let '(s', _, ok) := pb_read s count in (s', ok).

Definition skip_field (s : pb_istream_t) (wire_type : Z)
  : pb_istream_t * bool :=
  if bool_decide (wire_type = 0)
  then skip_varint (S (length (f_unread (state s)))) s
  else if bool_decide (wire_type = 1) then skip_bytes s 8
  else if bool_decide (wire_type = 2) then
    match pb_decode_varint32 s with
    | (s', None) => (s', false)
    | (s', Some len) => skip_bytes s' len
    end
  else if bool_decide (wire_type = 5) then skip_bytes s 4
  else (s, false).

Definition TemporaryExposureKeyNano_init_default : TemporaryExposureKeyNano :=
  {| key_data := replicate 16 x00;
     rolling_start_interval_number := 0;
     rolling_period := 144 |}.

(** The fields of one key message: 1 key_data (bytes, at most 16),
    2 transmission_risk_level, 3 rolling_start_interval_number,
    4 rolling_period, 5 report_type, 6 days_since_onset_of_symptoms
    (varints).  Unknown fields are skipped. *)
Fixpoint decode_fields (fuel : nat) (sub : pb_istream_t)
    (key : TemporaryExposureKeyNano) : option TemporaryExposureKeyNano :=
  if bool_decide (bytes_left sub = 0) then Some key
  else
    match fuel with
    | O => None
    | S fuel' =>
        let '(sub1, (wire_type, tag, eof), ok) := decode_tag sub in
        if negb ok then (if eof then Some key else None)
        else if bool_decide (tag = 1) then
          match pb_decode_varint32 sub1 with
          | (sub2, Some size) =>
              if bool_decide (size > 16) then None
              else
                let '(sub3, buf, ok) := pb_read sub2 size in
                if negb ok then None
                else
                  decode_fields fuel' sub3
                    {| key_data := buf ++ drop (length buf) (replicate 16 x00);
                       rolling_start_interval_number :=
                         rolling_start_interval_number key;
                       rolling_period := rolling_period key |}
          | (_, None) => None
          end
        else if bool_decide (2 <= tag <= 6) then
          match pb_decode_varint32 sub1 with
          | (sub2, Some v) =>
              decode_fields fuel' sub2
                {| key_data := key_data key;
                   rolling_start_interval_number :=
                     if bool_decide (tag = 3) then to_int32 v
                     else rolling_start_interval_number key;
                   rolling_period :=
                     if bool_decide (tag = 4) then to_int32 v
                     else rolling_period key |}
          | (_, None) => None
          end
        else
          match skip_field sub1 wire_type with
          | (sub2, true) => decode_fields fuel' sub2 key
          | (_, false) => None
          end
    end.

(** [pb_decode] on a message held in memory. *)
Definition decode_key (payload : bytes) : option TemporaryExposureKeyNano :=
  decode_fields (S (length payload))
    {| state := fopen_rb payload; bytes_left := Z.of_nat (length payload) |}
    TemporaryExposureKeyNano_init_default.

(** [pb_decode_delimited]: the length, then the message in a substream of
    that length.  Closing the substream consumes what the decoder left of
    it, so the stream ends up behind the declared length, or at the end of
    the file when the file is shorter. *)
Definition decode_delimited (s : pb_istream_t)
  : pb_istream_t * option TemporaryExposureKeyNano :=
  match pb_decode_varint32 s with
  | (s1, None) => (s1, None)
  | (s1, Some size) =>
      if bool_decide (bytes_left s1 < size) then (s1, None)
      else
        let '(s2, payload, ok) := pb_read s1 size in
        if negb ok then (s2, None) else (s2, decode_key payload)
  end.

Fixpoint encode_varint (n : nat) (v : Z) : bytes :=
  match n with
  | O => []
  | S n' =>
      if bool_decide (v < 128) then [byte_of_Z v]
      else byte_of_Z (Z.lor (Z.land v 127) 128)
             :: encode_varint n' (Z.shiftr v 7)
  end.

Definition encode_key (key : TemporaryExposureKeyNano) : option bytes :=
  Some ([x0a; x10] ++ take 16 (key_data key)
        ++ [x18] ++ encode_varint 10 (rolling_start_interval_number key mod 2 ^ 64)
        ++ [x20] ++ encode_varint 10 (rolling_period key mod 2 ^ 64)).

Definition instance : NanoPb :=
  {| TemporaryExposureKeyExportNano_keys_tag := keys_tag;
     pb_decode_tag s := fst (decode_tag s);
     pb_skip_field s wire_type := fst (skip_field s wire_type);
     pb_decode_delimited := decode_delimited;
     pb_encode := encode_key |}.

End ref_nanopb.

Module toy_openssl.

Definition xor_bytes (a b : bytes) : bytes :=
  zip_with (λ x y, byte_of_Z (Z.lxor (byte_to_Z x) (byte_to_Z y))) a b.

Definition pad_to (n : nat) (fillb : byte) (a : bytes) : bytes :=
  take n (a ++ replicate n fillb).

Definition toy_hkdf (out_len : Z) (secret salt info : bytes) : option bytes :=
  let n := Z.to_nat out_len in
  Some (xor_bytes (pad_to n x00 secret) (pad_to n x5c (info ++ salt))).

Definition toy_block (key block : bytes) : bytes :=
  xor_bytes (pad_to 16 x00 key) block.

Definition instance : OpenSSL :=
  {| EVP_CIPHER_CTX := bytes;
     EVP_CIPHER_CTX_init := [];
     HKDF := toy_hkdf;
     EVP_EncryptInit_ex _ key := (key, true);
     EVP_EncryptUpdate ctx input :=
       (ctx, ecb_encrypt (toy_block ctx) (length input / 16) input, true);
     AES_128_encrypt := toy_block |}.

End toy_openssl.

(** ** Vocabulary of the statements *)

(** The number of records whose prefix is at most [q]. *)
Definition count_le (q : Z) (recs : list bytes) : Z :=
  Z.of_nat (length (filter (λ r, GetPrefix r ≤ q) recs)).

(** A 32-bit number as four bytes, least significant first. *)
Definition u32_le (v : Z) : bytes :=
  [byte_of_Z v; byte_of_Z (v / 2 ^ 8); byte_of_Z (v / 2 ^ 16);
   byte_of_Z (v / 2 ^ 24)].

(** The plaintext block of the protocol for interval [en]:
    "EN-RPI", six zero bytes, the interval number. *)
Definition rpi_plaintext (en : Z) : bytes :=
  [x45; x4e; x2d; x52; x50; x49; x00; x00; x00; x00; x00; x00] ++ u32_le en.

(** The UTF-8 bytes of "EN-RPIK". *)
Definition EN_RPIK : bytes := [x45; x4e; x2d; x52; x50; x49; x4b].

(** Block [i] of a buffer of 16-byte blocks. *)
Definition block_at (buf : bytes) (i : nat) : bytes :=
  take 16 (drop (16 * i) buf).

(** The invariant of [aesInputStorage]: 144 blocks, each starting with the
    twelve constant bytes. *)
Definition storage_ready (storage : bytes) : Prop :=
  length storage = 2304%nat ∧
  ∀ i, (i < 144)%nat →
    take 12 (block_at storage i) = take 12 (rpi_plaintext 0).

(** The plaintext blocks of [n] consecutive intervals from [en] on, the
    32-bit interval number wrapping around. *)
Fixpoint rpi_plaintexts (n : nat) (en : Z) : list bytes :=
  match n with
  | O => []
  | S n' => rpi_plaintext en :: rpi_plaintexts n' ((en + 1) mod 2 ^ 32)
  end.

(** A buffer whose first [n] blocks got the interval numbers from [en] on
    in their last four bytes. *)
Fixpoint stamped (n : nat) (s : bytes) (en : Z) : bytes :=
  match n with
  | O => s
  | S n' =>
      take 12 s ++ u32_le en ++ stamped n' (drop 16 s) ((en + 1) mod 2 ^ 32)
  end.

(** Whether one of the blocks [i0 .. i0 + n - 1] of [ids] is in the index. *)
Definition some_block_found (m : PrefixIdMap) (ids : bytes) (i0 n : nat)
  : Prop :=
  Exists (λ i : nat, GetIdIndex m (block_at ids i) >= 0) (seq i0 n).

(** A key that differs from [key] in its rolling period only. *)
Definition with_rolling_period (p : Z) (key : TemporaryExposureKeyNano)
  : TemporaryExposureKeyNano :=
  {| key_data := key_data key;
     rolling_start_interval_number := rolling_start_interval_number key;
     rolling_period := p |}.

Section vocabulary.
Context `{StdSort} `{NanoPb} `{OpenSSL}.

(** The keys that the calls of [Next] return, in order, until [HasNext] is
    false; a call that returns [nullptr] contributes none. *)
Fixpoint iterate_keys (fuel : nat) (it : KeyFileIterator)
  : option (list TemporaryExposureKeyNano) :=
  if negb (HasNext it) then Some []
  else
    match fuel with
    | O => None
    | S fuel' =>
        match Next fuel' it with
        | None => None
        | Some (it', None) => iterate_keys fuel' it'
        | Some (it', Some key) => (key ::.) <$> iterate_keys fuel' it'
        end
    end.

(** The keys of a list of files, file after file; a file that cannot be
    opened or whose header is wrong contributes none. *)
Fixpoint files_keys (disk : gmap string bytes) (fuel : nat)
    (key_files : list string) : option (list TemporaryExposureKeyNano) :=
  match key_files with
  | [] => Some []
  | key_file :: rest =>
      match CreateKeyFileIterator disk fuel key_file with
      | None => None
      | Some None => files_keys disk fuel rest
      | Some (Some it) =>
          keys ← iterate_keys fuel it;
          keys' ← files_keys disk fuel rest;
          Some (keys ++ keys')
      end
  end.

(** The loop body of [Matching] over a list of keys. *)
Fixpoint process_keys (h : MatchingHelper)
    (matched_keys : list TemporaryExposureKeyNano)
    (keys : list TemporaryExposureKeyNano)
  : MatchingHelper * list TemporaryExposureKeyNano :=
  match keys with
  | [] => (h, matched_keys)
  | key :: rest =>
      let '(h', matched_keys') := Matching_key h matched_keys key in
      process_keys h' matched_keys' rest
  end.

(** The operations on a helper, and a sequence of them run in order. *)
Inductive operation :=
| OpMatching (key_files : list string)
| OpMatchingLegacy (diagnosis_keys : list bytes)
    (rolling_start_numbers : list Z) (key_count : Z).

Fixpoint run_operations (disk : gmap string bytes) (fuel : nat)
    (h : MatchingHelper) (ops : list operation) : option MatchingHelper :=
  match ops with
  | [] => Some h
  | OpMatching key_files :: rest =>
      '(h', _) ← Matching disk fuel h key_files;
      run_operations disk fuel h' rest
  | OpMatchingLegacy dk rs n :: rest =>
      run_operations disk fuel (MatchingLegacy h dk rs n).1 rest
  end.

(** The files of the last [Matching] operation of a sequence. *)
Fixpoint last_matching (ops : list operation) : option (list string) :=
  match ops with
  | [] => None
  | op :: rest =>
      match last_matching rest with
      | Some key_files => Some key_files
      | None =>
          match op with
          | OpMatching key_files => Some key_files
          | OpMatchingLegacy _ _ _ => None
          end
      end
  end.

(** The native heap after a sequence of [initNative] calls. *)
Fixpoint heap_after (calls : list (option (list bytes)))
  : gmap positive MatchingHelper :=
  match calls with
  | [] => ∅
  | scan_id_records :: earlier =>
      (initNative (heap_after earlier) scan_id_records).2
  end.

End vocabulary.

(** ** Vocabulary of the further statements *)

(** The two hexadecimal digits of a byte, the value of a digit, and the bytes
    that a hexadecimal text spells. *)
Definition hex_digits (b : byte) : bytes :=
  [hexmap_at (byte_to_Z b / 16); hexmap_at (byte_to_Z b mod 16)].

Definition hex_value (c : byte) : option Z :=
  (λ found : nat * byte, Z.of_nat found.1) <$> list_find (λ x, x = c) hexmap.

Fixpoint unhex (s : bytes) : option bytes :=
  match s with
  | [] => Some []
  | hi :: lo :: rest =>
      h ← hex_value hi;
      l ← hex_value lo;
      r ← unhex rest;
      Some (byte_of_Z (16 * h + l) :: r)
  | _ => None
  end.

Section further_vocabulary.
Context `{StdSort} `{NanoPb} `{OpenSSL}.

(** Whether one of the 144 identifiers of a key, derived as the protocol
    says from the key and the rolling start [start], is among the records
    [R]; no identifier is derived when HKDF fails. *)
Definition key_hits (R : list bytes) (key : bytes) (start : Z) : bool :=
  match HKDF kRpikLength (take 16 key) [] EN_RPIK with
  | None => false
  | Some rpik =>
      bool_decide
        (Exists (λ i : nat,
                   AES_128_encrypt rpik
                     (rpi_plaintext ((start + Z.of_nat i) mod 2 ^ 32)) ∈ R)
                (seq 0 144))
  end.

(** [EVP_EncryptInit_ex] with AES-128-ECB and a key accepts every key. *)
Definition InitSucceeds : Prop :=
  ∀ (ctx : EVP_CIPHER_CTX) (key : bytes), (EVP_EncryptInit_ex ctx key).2 = true.

(** What nanopb's [pb_decode_tag] promises about the values it stores: the
    tag is 0 whenever it reports the end of the stream. *)
Definition TagContract : Prop :=
  TemporaryExposureKeyExportNano_keys_tag ≠ 0 ∧
  ∀ stream, (pb_decode_tag stream).2.2 = true → (pb_decode_tag stream).2.1.2 = 0.

(** An iterator whose tag is the [keys] tag or 0. *)
Definition tag_settled (it : KeyFileIterator) : Prop :=
  next_tag_ it = 0 ∨ IsTagForKeys (next_tag_ it) = true.

(** An iterator whose stream stands right behind a [keys] tag: the stream
    and the tag are what one call of [pb_decode_tag] left. *)
Definition behind_keys_tag (it : KeyFileIterator) : Prop :=
  IsTagForKeys (next_tag_ it) = true ∧
  ∃ stream wire_type eof,
    pb_decode_tag stream = (pb_istream_ it, (wire_type, next_tag_ it, eof)).

(** The keys of a list one of whose identifiers is among the records [R],
    in their order and with their repetitions. *)
Definition matched_among (R : list bytes)
    (keys : list TemporaryExposureKeyNano) : list TemporaryExposureKeyNano :=
  filter (λ key, key_hits R (key_data key)
                   (rolling_start_interval_number key mod 2 ^ 32) = true)
         keys.

(** The indexes below [key_count], in increasing order, of the keys of the
    legacy arrays one of whose identifiers is among the records [R]. *)
Definition matched_indexes (R : list bytes) (diagnosis_keys : list bytes)
    (rolling_start_numbers : list Z) (key_count : Z) : list Z :=
  filter (λ i : Z,
            key_hits R (default [] (diagnosis_keys !! Z.to_nat i))
              (default 0 (rolling_start_numbers !! Z.to_nat i) mod 2 ^ 32)
            = true)
         (Z.of_nat <$> seq 0 (Z.to_nat key_count)).

(** The first [key_count] key arrays of the legacy call have the 16 bytes
    that [GetByteArrayRegion] is asked for. *)
Definition keys_have_16_bytes (diagnosis_keys : list bytes) (key_count : Z)
  : Prop :=
  ∀ (i : nat) (key : bytes),
    Z.of_nat i < key_count → diagnosis_keys !! i = Some key →
    (16 ≤ length key)%nat.

(** [pb_encode] succeeds on every key of a list. *)
Definition all_encode (keys : list TemporaryExposureKeyNano) : Prop :=
  Forall (λ key, is_Some (pb_encode key)) keys.

(** A file that [CreateKeyFileIterator] gives no iterator for: it does not
    exist, or its first 16 bytes are not the header. *)
Definition unusable (disk : gmap string bytes) (key_file : string) : Prop :=
  match disk !! key_file with
  | None => True
  | Some contents => take 16 contents ≠ take 16 kFileHeader
  end.

End further_vocabulary.

(** An OpenSSL in which every key derivation fails. *)
Definition failing_hkdf : OpenSSL :=
  {| EVP_CIPHER_CTX := bytes;
     EVP_CIPHER_CTX_init := [];
     HKDF _ _ _ _ := None;
     EVP_EncryptInit_ex _ key := (key, true);
     EVP_EncryptUpdate ctx input := (ctx, input, true);
     AES_128_encrypt _ block := block |}.

(** ** Concrete inputs: the end-to-end scenarios of the specification, run on
       the reference instances *)
Module scenarios.
Section with_reference_instances.
Local Existing Instance ref_sort.
Local Existing Instance ref_nanopb.instance.
Local Existing Instance toy_openssl.instance.

(** The 16 bytes "EK Export v1    ". *)
Definition header : bytes := take 16 kFileHeader.

Definition tek0 : bytes := replicate 16 x00.
Definition tek3 : bytes := replicate 16 x03.

(** One [keys] entry of an export file: tag 7 with wire type 2, length
    20, then key_data (field 1, 16 bytes) and
    rolling_start_interval_number (field 3). *)
Definition keys_record (key : bytes) (start : byte) : bytes :=
  [x3a; x14; x0a; x10] ++ key ++ [x18; start].

(** A [keys] entry whose message is cut short: the declared length is 4,
    and inside it key_data announces 16 bytes of which 2 are there. *)
Definition truncated_record : bytes := [x3a; x04; x0a; x10; xaa; xbb].

Definition good_file : bytes := header ++ keys_record tek0 x00.

(** As [good_file], with "v2" for "v1" in the header. *)
Definition bad_header_file : bytes :=
  [x45; x4b; x20; x45; x78; x70; x6f; x72; x74; x20; x76; x32;
   x20; x20; x20; x20] ++ keys_record tek0 x00.

(** Scenario E6: three [keys] entries, the second one truncated. *)
Definition e6_file : bytes :=
  header ++ keys_record tek0 x00 ++ truncated_record
         ++ keys_record tek3 x00.

Definition disk : gmap string bytes :=
  {[ "good" := good_file; "bad" := bad_header_file; "e6" := e6_file ]}.

(** The identifier that [tek0] broadcasts in interval 72, and a helper
    whose scan records are that identifier alone. *)
Definition rpi72 : bytes :=
  take 16 (drop (72 * 16)
    (default [] (GenerateIds (new_MatchingHelper [replicate 16 xff])
                             tek0 0).2)).

Definition helper72 : MatchingHelper := new_MatchingHelper [rpi72].

(** Scenario E5: the same identifier scanned twice. *)
Definition helper72_twice : MatchingHelper :=
  new_MatchingHelper [rpi72; rpi72].

Definition key_of (key : bytes) : TemporaryExposureKeyNano :=
  {| key_data := key; rolling_start_interval_number := 0;
     rolling_period := 144 |}.

(** A stream over a file of which [consumed] bytes were read and
    [unread] are left, and a stream that ran into the end of its file. *)
Definition stream_at (unread : bytes) (consumed : Z) : pb_istream_t :=
  {| state := {| f_unread := unread; f_eof := false |};
     bytes_left := SIZE_MAX - consumed |}.

Definition stream_at_end : pb_istream_t :=
  {| state := {| f_unread := []; f_eof := true |}; bytes_left := 0 |}.

(** The iterator over [e6_file]: after the constructor, after the first
    entry, after the truncated entry, and from then on. *)
Definition e6_it0 : KeyFileIterator :=
  {| pb_istream_ := stream_at (drop 17 e6_file) 17; next_tag_ := 7 |}.
Definition e6_it1 : KeyFileIterator :=
  {| pb_istream_ := stream_at (drop 39 e6_file) 39; next_tag_ := 7 |}.
Definition e6_it2 : KeyFileIterator :=
  {| pb_istream_ := stream_at (drop 44 e6_file) 44; next_tag_ := 7 |}.
Definition e6_it3 : KeyFileIterator :=
  {| pb_istream_ := stream_at_end; next_tag_ := 7 |}.

(** The [keys] entries of an export file for the given keys, each with
    rolling start 0. *)
Definition entries (keys : list bytes) : bytes :=
  concat ((λ key, keys_record key x00) <$> keys).

(** The key that HKDF derives from [tek0] in the stand-in cipher. *)
Definition rpik0 : bytes :=
  default [] (HKDF 16 tek0 [] EN_RPIK).

End with_reference_instances.
End scenarios.

(** * Properties *)

(** ** Bytes *)

Lemma byte_to_Z_range (b : byte) : 0 ≤ byte_to_Z b < 256.
Proof.
  unfold byte_to_Z. pose proof (Byte.to_N_bounded b). lia.
Qed.

Lemma byte_at_range (p : bytes) (i : nat) : 0 ≤ byte_at p i < 256.
Proof.
  unfold byte_at. destruct (p !! i) as [b|]; simpl; [apply byte_to_Z_range|lia].
Qed.

Lemma byte_to_of_Z (z : Z) : byte_to_Z (byte_of_Z z) = z mod 256.
Proof.
  unfold byte_to_Z, byte_of_Z.
  pose proof (Z.mod_pos_bound z 256 ltac:(lia)) as Hr.
  destruct (Byte.of_N (Z.to_N (z mod 256))) as [b|] eqn:Hb; simpl.
  - apply Byte.to_of_N in Hb. rewrite Hb. lia.
  - pose proof (Byte.to_of_N_option_map (Z.to_N (z mod 256))) as Hm.
    rewrite Hb in Hm. simpl in Hm.
    destruct (N.leb_spec (Z.to_N (z mod 256)) 255); [discriminate|lia].
Qed.

Lemma GetPrefix_range (id : bytes) : 0 ≤ GetPrefix id < kIdPrefixIndexSize.
Proof.
  unfold GetPrefix, GetPrefixInner, kIdPrefixIndexSize.
  pose proof (byte_at_range id 0). pose proof (byte_at_range id 1). lia.
Qed.

Lemma Compare_swo : StrictWeakOrder Compare.
Proof.
  split; intros *; unfold Compare;
    rewrite ?bool_decide_eq_true, ?bool_decide_eq_false; lia.
Qed.

(** ** The table built by the constructor of [PrefixIdMap] *)

Lemma count_le_nil q : count_le q [] = 0.
Proof. reflexivity. Qed.

Lemma count_le_cons q r recs :
  count_le q (r :: recs) =
  (if decide (GetPrefix r ≤ q) then 1 else 0) + count_le q recs.
Proof.
  unfold count_le. rewrite filter_cons.
  destruct (decide (GetPrefix r ≤ q)); simpl; lia.
Qed.

Lemma count_le_bounds q recs : 0 ≤ count_le q recs ≤ Z.of_nat (length recs).
Proof.
  unfold count_le. pose proof (length_filter (λ r, GetPrefix r ≤ q) recs). lia.
Qed.

Lemma count_le_mono p q recs : p ≤ q → count_le p recs ≤ count_le q recs.
Proof.
  intros Hpq. induction recs as [|r recs IH]; [done|].
  rewrite !count_le_cons. repeat case_decide; lia.
Qed.

Lemma count_le_all q recs :
  Forall (λ r, GetPrefix r ≤ q) recs → count_le q recs = Z.of_nat (length recs).
Proof.
  induction 1 as [|r recs Hr _ IH]; [done|].
  rewrite count_le_cons, IH. case_decide; simpl; lia.
Qed.

Lemma count_le_none q recs :
  Forall (λ r, q < GetPrefix r) recs → count_le q recs = 0.
Proof.
  induction 1 as [|r recs Hr _ IH]; [done|].
  rewrite count_le_cons, IH. case_decide; lia.
Qed.

Lemma count_le_perm q l1 l2 : l1 ≡ₚ l2 → count_le q l1 = count_le q l2.
Proof. intros Hp. unfold count_le. by rewrite Hp. Qed.

(** The inner loop stores [v] at the indices from [last_prefix] up to
    [bound], leaves the rest alone, and stops with the loop condition
    false. *)
Lemma fill_while_spec n tbl last_prefix bound v :
  n = Z.to_nat (bound - last_prefix) →
  ∃ tbl', fill_while n tbl last_prefix bound v =
            (tbl', Z.max last_prefix bound) ∧
    ∀ q, tbl' !! q =
         if decide (last_prefix ≤ q < bound) then Some v else tbl !! q.
Proof.
  revert tbl last_prefix.
  induction n as [|n IH]; intros tbl lp Hn; simpl.
  - exists tbl. split; [f_equal; lia|].
    intros q. case_decide; [lia|done].
  - rewrite bool_decide_true by lia.
    destruct (IH (<[lp:=v]> tbl) (lp + 1)) as (tbl' & Heq & Hlk); [lia|].
    exists tbl'. split; [rewrite Heq; f_equal; lia|].
    intros q. rewrite Hlk.
    destruct (decide (q = lp)) as [->|Hne].
    + rewrite decide_False by lia. rewrite lookup_insert_eq.
      by rewrite decide_True by lia.
    + rewrite lookup_insert_ne by done.
      repeat case_decide; try lia; done.
Qed.

Lemma fill_spec tbl last_prefix bound v :
  ∃ tbl', fill tbl last_prefix bound v = (tbl', Z.max last_prefix bound) ∧
    ∀ q, tbl' !! q =
         if decide (last_prefix ≤ q < bound) then Some v else tbl !! q.
Proof. by apply fill_while_spec. Qed.

(** Over records sorted by prefix, the sweep stores at every index [q] it
    passes the number of records with a prefix of at most [q]. *)
Lemma sweep_spec recs :
  StronglySorted (λ a b, GetPrefix a ≤ GetPrefix b) recs →
  ∀ i tbl last_prefix,
    Forall (λ r, last_prefix ≤ GetPrefix r) recs →
    ∃ tbl' last_prefix',
      sweep recs i tbl last_prefix = (tbl', last_prefix') ∧
      last_prefix ≤ last_prefix' ∧
      Forall (λ r, GetPrefix r ≤ last_prefix') recs ∧
      (recs = [] → last_prefix' = last_prefix) ∧
      (recs ≠ [] → ∃ r, r ∈ recs ∧ last_prefix' = GetPrefix r) ∧
      ∀ q, tbl' !! q =
           if decide (last_prefix ≤ q < last_prefix')
           then Some (i + count_le q recs) else tbl !! q.
Proof.
  induction 1 as [|r recs Hsorted IH Hr]; intros i tbl lp Hlp; simpl.
  - exists tbl, lp. repeat split; try done; try lia.
    intros q. case_decide; [lia|done].
  - apply Forall_cons in Hlp as [Hlpr Hlp].
    destruct (fill_spec tbl lp (GetPrefix r) i) as (tbl1 & Hfill & Hlk1).
    rewrite Hfill. replace (Z.max lp (GetPrefix r)) with (GetPrefix r) by lia.
    destruct (IH (i + 1) tbl1 (GetPrefix r)) as
      (tbl' & lp' & Hsw & Hle & Hall & Hnil & Hcons & Hlk); [done|].
    exists tbl', lp'. rewrite Hsw.
    split; [done|]. split; [lia|]. split.
    { apply Forall_cons. split; [lia|done]. }
    split; [done|]. split.
    { intros _. destruct recs as [|r' recs'].
      - exists r. split; [apply list_elem_of_here|]. by apply Hnil.
      - destruct Hcons as (r0 & Hin & ->); [done|].
        exists r0. split; [by apply list_elem_of_further|done]. }
    intros q. rewrite Hlk, Hlk1, count_le_cons.
    destruct (decide (GetPrefix r ≤ q)) as [Hq|Hq].
    + destruct (decide (GetPrefix r ≤ q < lp')).
      * rewrite decide_True by lia. f_equal; lia.
      * rewrite decide_False by lia. rewrite decide_False by lia. done.
    + rewrite (decide_False (P := GetPrefix r ≤ q < lp')) by lia.
      rewrite (count_le_none q recs).
      2:{ eapply Forall_impl; [exact Hr|]. simpl. intros; lia. }
      destruct (decide (lp ≤ q < GetPrefix r)).
      * rewrite decide_True by lia. f_equal; lia.
      * rewrite decide_False by lia. done.
Qed.

Lemma StronglySorted_weaken {A} (R1 R2 : relation A) (l : list A) :
  (∀ x y, R1 x y → R2 x y) → StronglySorted R1 l → StronglySorted R2 l.
Proof.
  intros HR. induction 1 as [|a l _ IH Ha]; constructor; [done|].
  eapply Forall_impl; [exact Ha|]. auto.
Qed.

Section prefix_index.
Context `{StdSort}.
Hypothesis sort_contract : StdSortContract.

Lemma sorted_records (R : list bytes) :
  std_sort Compare R ≡ₚ R ∧
  StronglySorted (λ a b, GetPrefix a ≤ GetPrefix b) (std_sort Compare R).
Proof.
  destruct (sort_contract _ Compare R Compare_swo) as [Hperm Hsorted].
  split; [done|].
  eapply StronglySorted_weaken; [|exact Hsorted].
  intros a b. unfold Compare, GetPrefix.
  rewrite bool_decide_eq_false. lia.
Qed.

(** The table after construction, entry by entry. *)
Lemma prefix_end_index_lookup (R : list bytes) (q : Z) :
  prefix_end_index (new_PrefixIdMap R) !! q =
  if decide (0 ≤ q < kIdPrefixIndexSize) then Some (count_le q R) else None.
Proof.
  destruct (sorted_records R) as [Hperm Hsorted].
  unfold new_PrefixIdMap.
  destruct (sweep_spec _ Hsorted 0 ∅ 0) as
    (tbl1 & lp & Hsw & Hle & Hall & Hnil & Hcons & Hlk1).
  { apply Forall_forall. intros r _. apply GetPrefix_range. }
  rewrite Hsw.
  destruct (fill_spec tbl1 lp kIdPrefixIndexSize
              (Z.of_nat (length R))) as (tbl2 & Hfill & Hlk2).
  rewrite Hfill. simpl. rewrite Hlk2, Hlk1, lookup_empty.
  assert (lp < kIdPrefixIndexSize) as Hlp.
  { destruct (std_sort Compare R) as [|r0 recs] eqn:Hrecs.
    - rewrite Hnil by done. done.
    - destruct Hcons as (r & _ & ->); [done|]. apply GetPrefix_range. }
  destruct (decide (lp ≤ q < kIdPrefixIndexSize)) as [Hq|Hq].
  - rewrite decide_True by lia. f_equal.
    rewrite <- (count_le_perm q _ _ Hperm), <- (Permutation_length Hperm).
    symmetry. apply count_le_all.
    eapply Forall_impl; [exact Hall|]. simpl. intros; lia.
  - destruct (decide (0 ≤ q < lp)).
    + rewrite decide_True by lia. f_equal.
      rewrite (count_le_perm q _ _ Hperm). lia.
    + rewrite decide_False by lia. done.
Qed.

Lemma int_at_prefix_end_index (R : list bytes) (q : Z) :
  0 ≤ q < kIdPrefixIndexSize →
  int_at (prefix_end_index (new_PrefixIdMap R)) q = count_le q R.
Proof.
  intros Hq. unfold int_at. rewrite prefix_end_index_lookup.
  by rewrite decide_True by done.
Qed.

Lemma scan_records_new (R : list bytes) :
  scan_records (new_PrefixIdMap R) = std_sort Compare R.
Proof.
  unfold new_PrefixIdMap.
  destruct (sweep _ _ _ _) as [tbl1 lp].
  by destruct (fill _ _ _ _).
Qed.

Lemma scan_record_size_new (R : list bytes) :
  scan_record_size (new_PrefixIdMap R) = Z.of_nat (length R).
Proof.
  unfold new_PrefixIdMap.
  destruct (sweep _ _ _ _) as [tbl1 lp].
  by destruct (fill _ _ _ _).
Qed.
End prefix_index.

(** In a list sorted by prefix, the records with a prefix of at most [q] are
    the first [count_le q] ones. *)
Lemma sorted_position (recs : list bytes) (q : Z) :
  StronglySorted (λ a b, GetPrefix a ≤ GetPrefix b) recs →
  ∀ (i : nat) r, recs !! i = Some r →
    (GetPrefix r ≤ q ↔ Z.of_nat i < count_le q recs).
Proof.
  induction 1 as [|a recs _ IH Ha]; intros i r Hi; [done|].
  rewrite count_le_cons.
  destruct i as [|i]; simpl in Hi.
  - injection Hi as ->.
    pose proof (count_le_bounds q recs).
    case_decide; [lia|].
    rewrite (count_le_none q recs); [lia|].
    eapply Forall_impl; [exact Ha|]. simpl. intros; lia.
  - specialize (IH i r Hi).
    assert (GetPrefix a ≤ GetPrefix r) as Har.
    { rewrite Forall_forall in Ha. apply Ha. by eapply list_elem_of_lookup_2. }
    case_decide; [lia|].
    rewrite (count_le_none q recs); [lia|].
    eapply Forall_impl; [exact Ha|]. simpl. intros; lia.
Qed.

(** ** Queries on the index *)

Lemma memcmp_eq_16 (a b : bytes) :
  length a = 16%nat → length b = 16%nat →
  memcmp_eq a b kIdLength = true ↔ a = b.
Proof.
  intros Ha Hb. unfold memcmp_eq, kIdLength.
  rewrite bool_decide_eq_true.
  rewrite !take_ge by (rewrite ?Ha, ?Hb; lia). done.
Qed.

(** The bucket scan returns the first position of the range that holds the
    identifier, and -1 when there is none. *)
Lemma scan_bucket_spec n recs id s e :
  n = Z.to_nat (e - s) →
  let hit k := memcmp_eq id (default [] (recs !! Z.to_nat k)) kIdLength in
  let r := scan_bucket n recs id s e in
  (r = -1 ∧ ∀ k, s ≤ k < e → hit k = false) ∨
  (s ≤ r < e ∧ hit r = true ∧ ∀ k, s ≤ k < r → hit k = false).
Proof.
  revert s. induction n as [|n IH]; intros s Hn; simpl.
  - left. split; [done|]. intros k Hk. lia.
  - rewrite bool_decide_true by lia.
    destruct (memcmp_eq id (default [] (recs !! Z.to_nat s)) kIdLength) eqn:Hs.
    + right. split; [lia|]. split; [done|]. intros k Hk. lia.
    + destruct (IH (s + 1)) as [[Hr Hall]|(Hr & Hhit & Hall)]; [lia|..].
      * left. split; [done|]. intros k Hk.
        destruct (decide (k = s)) as [->|]; [done|]. apply Hall. lia.
      * right. split; [lia|]. split; [done|]. intros k Hk.
        destruct (decide (k = s)) as [->|]; [done|]. apply Hall. lia.
Qed.

Section index_queries.
Context `{StdSort}.
Hypothesis sort_contract : StdSortContract.

(** The bounds of the bucket that [GetIdIndex] scans. *)
Lemma GetIdIndex_unfold (R : list bytes) (x : bytes) :
  let p := GetPrefix x in
  GetIdIndex (new_PrefixIdMap R) x =
  scan_bucket (Z.to_nat (count_le p R - count_le (p - 1) R))
              (std_sort Compare R) x (count_le (p - 1) R) (count_le p R).
Proof.
  intros p. unfold GetIdIndex. fold p.
  pose proof (GetPrefix_range x) as Hp. fold p in Hp.
  rewrite scan_records_new by done.
  rewrite (int_at_prefix_end_index sort_contract R p) by done.
  assert ((if bool_decide (p > 0)
           then int_at (prefix_end_index (new_PrefixIdMap R)) (p - 1)
           else 0) = count_le (p - 1) R) as ->; [|done].
  case_bool_decide.
  - apply (int_at_prefix_end_index sort_contract). lia.
  - symmetry. apply count_le_none, Forall_forall.
    intros r _. pose proof (GetPrefix_range r). lia.
Qed.

Lemma bucket_members (R : list bytes) (p : Z) (i : nat) (r : bytes) :
  std_sort Compare R !! i = Some r →
  (count_le (p - 1) R ≤ Z.of_nat i < count_le p R ↔ GetPrefix r = p).
Proof.
  intros Hi.
  destruct (sorted_records sort_contract R) as [Hperm Hsorted].
  pose proof (sorted_position _ p Hsorted i r Hi) as H1.
  pose proof (sorted_position _ (p - 1) Hsorted i r Hi) as H2.
  rewrite (count_le_perm _ _ _ Hperm) in H1.
  rewrite (count_le_perm _ _ _ Hperm) in H2. lia.
Qed.

Lemma GetIdIndex_found (R : list bytes) (x : bytes) :
  Forall (λ r, length r = 16%nat) R → length x = 16%nat →
  let idx := GetIdIndex (new_PrefixIdMap R) x in
  (x ∈ R →
     0 ≤ idx < Z.of_nat (length R) ∧
     scan_records (new_PrefixIdMap R) !! Z.to_nat idx = Some x) ∧
  (x ∉ R → idx = -1).
Proof.
  intros HR Hx idx.
  destruct (sorted_records sort_contract R) as [Hperm Hsorted].
  assert (Forall (λ r, length r = 16%nat) (std_sort Compare R)) as HS
    by (by rewrite Hperm).
  pose proof (count_le_bounds (GetPrefix x) R) as Hhi.
  pose proof (count_le_bounds (GetPrefix x - 1) R) as Hlo.
  assert (∀ k, 0 ≤ k < Z.of_nat (length R) →
            memcmp_eq x (default [] (std_sort Compare R !! Z.to_nat k))
                      kIdLength = true →
            std_sort Compare R !! Z.to_nat k = Some x) as Hhit.
  { intros k Hk Hm.
    destruct (lookup_lt_is_Some_2 (std_sort Compare R) (Z.to_nat k))
      as [y Hy].
    { rewrite (Permutation_length Hperm). lia. }
    rewrite Hy in Hm. simpl in Hm. rewrite Hy. f_equal. symmetry.
    apply memcmp_eq_16; [done| |done].
    rewrite Forall_forall in HS. apply HS. by eapply list_elem_of_lookup_2. }
  subst idx. rewrite scan_records_new, GetIdIndex_unfold.
  destruct (scan_bucket_spec _ (std_sort Compare R) x
              (count_le (GetPrefix x - 1) R) (count_le (GetPrefix x) R)
              eq_refl) as [[Hr Hall]|(Hr & Hm & _)].
  - rewrite Hr. split; [|done].
    intros Hin. exfalso. rewrite <- Hperm in Hin.
    apply list_elem_of_lookup in Hin as [i Hi].
    pose proof (proj2 (bucket_members R (GetPrefix x) i x Hi) eq_refl) as Hb.
    specialize (Hall (Z.of_nat i) Hb).
    rewrite Nat2Z.id, Hi in Hall. simpl in Hall.
    assert (memcmp_eq x x kIdLength = true) as Heq
      by (by apply memcmp_eq_16).
    congruence.
  - apply Hhit in Hm; [|lia].
    split; [intros _; split; [lia|done]|].
    intros Hnin. exfalso. apply Hnin. rewrite <- Hperm.
    by eapply list_elem_of_lookup_2.
Qed.
End index_queries.

(** C5 (prefix table consistency).  After construction from any collection
    [R] of records, the table [prefix_end_index] is non-decreasing, its last
    entry [prefix_end_index[65535]] is the number of records, every entry
    [p] is the number of records whose prefix is at most [p], and for every
    prefix [p] the positions from [prefix_end_index[p-1]] (0 for [p = 0]) up
    to [prefix_end_index[p]] of the sorted records are exactly the positions
    of the records whose first two bytes, read as a little-endian 16-bit
    number, are [p]. *)
Theorem prefix_table_consistency `{StdSort} (R : list bytes) :
  StdSortContract →
  Forall (λ r, (2 ≤ length r)%nat) R →
  let m := new_PrefixIdMap R in
  let prefix_end p :=
    if decide (p = -1) then 0 else int_at (prefix_end_index m) p in
  (∀ p q, 0 ≤ p → p ≤ q → q < kIdPrefixIndexSize →
     prefix_end p ≤ prefix_end q) ∧
  prefix_end 65535 = Z.of_nat (length R) ∧
  scan_records m ≡ₚ R ∧
  scan_record_size m = Z.of_nat (length R) ∧
  ∀ p, 0 ≤ p < kIdPrefixIndexSize →
    prefix_end p = count_le p R ∧
    0 ≤ prefix_end (p - 1) ≤ prefix_end p ∧
    prefix_end p ≤ Z.of_nat (length R) ∧
    ∀ (i : nat) r, scan_records m !! i = Some r →
      (prefix_end (p - 1) ≤ Z.of_nat i < prefix_end p ↔
       byte_at r 0 + 256 * byte_at r 1 = p).
Proof.
  intros Hsort _ m prefix_end.
  assert (∀ p, -1 ≤ p < kIdPrefixIndexSize → prefix_end p = count_le p R)
    as Hpe.
  { intros p Hp. unfold prefix_end. case_decide as Hm1.
    - subst p. symmetry. apply count_le_none, Forall_forall.
      intros r _. pose proof (GetPrefix_range r). lia.
    - apply (int_at_prefix_end_index Hsort). lia. }
  split.
  { intros p q Hp Hpq Hq. rewrite !Hpe by lia. by apply count_le_mono. }
  split.
  { rewrite Hpe by done. apply count_le_all, Forall_forall.
    intros r _. pose proof (GetPrefix_range r).
    unfold kIdPrefixIndexSize in *. lia. }
  split.
  { unfold m. rewrite scan_records_new. apply (sorted_records Hsort). }
  split; [apply scan_record_size_new|].
  intros p Hp.
  pose proof (count_le_bounds p R). pose proof (count_le_bounds (p - 1) R).
  pose proof (count_le_mono (p - 1) p R ltac:(lia)).
  rewrite !Hpe by lia.
  split; [done|]. split; [lia|]. split; [lia|].
  intros i r Hi. unfold m in Hi. rewrite scan_records_new in Hi.
  apply (bucket_members Hsort R p i r Hi).
Qed.

(** C2 (completeness and soundness of the index).  For every collection [R]
    of 16-byte records and every 16-byte identifier [x], the query on the
    index built from [R] returns a valid index, one at which the index
    holds [x], if and only if [x] is an element of [R]; for [x] outside
    [R], whatever its prefix, it returns -1. *)
Theorem GetIdIndex_complete_and_sound `{StdSort} (R : list bytes) (x : bytes) :
  StdSortContract →
  Forall (λ r, length r = 16%nat) R →
  length x = 16%nat →
  let m := new_PrefixIdMap R in
  (GetIdIndex m x >= 0 ↔ x ∈ R) ∧
  (x ∈ R →
     0 ≤ GetIdIndex m x < scan_record_size m ∧
     scan_records m !! Z.to_nat (GetIdIndex m x) = Some x) ∧
  (x ∉ R → GetIdIndex m x = -1).
Proof.
  intros Hsort HR Hx m.
  destruct (GetIdIndex_found Hsort R x HR Hx) as [Hin Hout].
  fold m in Hin, Hout.
  split; [|split; [|done]].
  - destruct (decide (x ∈ R)) as [Hd|Hd].
    + specialize (Hin Hd). split; [done|lia].
    + specialize (Hout Hd). split; [lia|done].
  - intros Hd. subst m. rewrite scan_record_size_new. by apply Hin.
Qed.

(** ** Derivation of the rolling proximity identifiers *)

Lemma u32_le_value (v : Z) :
  0 ≤ v < 2 ^ 32 →
  byte_at (u32_le v) 0 + 2 ^ 8 * byte_at (u32_le v) 1
    + 2 ^ 16 * byte_at (u32_le v) 2 + 2 ^ 24 * byte_at (u32_le v) 3 = v.
Proof.
  intros Hv. unfold u32_le, byte_at. simpl. rewrite !byte_to_of_Z.
  change (2 ^ 8) with 256. change (2 ^ 16) with (256 * 256).
  change (2 ^ 24) with (256 * 256 * 256).
  rewrite <- !Z.div_div by lia.
  pose proof (Z.div_mod v 256 ltac:(lia)).
  pose proof (Z.div_mod (v / 256) 256 ltac:(lia)).
  pose proof (Z.div_mod (v / 256 / 256) 256 ltac:(lia)).
  assert (v / 256 / 256 / 256 < 256).
  { rewrite !Z.div_div by lia. apply Z.div_lt_upper_bound; lia. }
  assert (0 ≤ v / 256 / 256 / 256) by (repeat apply Z.div_pos; lia).
  rewrite (Z.mod_small (v / 256 / 256 / 256)) by lia. lia.
Qed.

Lemma store_u32_le_block (s : bytes) (v : Z) :
  (16 ≤ length s)%nat →
  store_u32_le s 12 v = take 12 s ++ u32_le v ++ drop 16 s.
Proof.
  intros Hs. unfold store_u32_le, u32_le. rewrite !Z.shiftr_div_pow2 by lia.
  do 16 (destruct s as [|? s]; [simpl in Hs; lia|]).
  reflexivity.
Qed.

Lemma store_u32_le_app (pre s : bytes) (off v : Z) :
  0 ≤ off →
  store_u32_le (pre ++ s) (Z.of_nat (length pre) + off) v =
  pre ++ store_u32_le s off v.
Proof.
  intros Hoff. unfold store_u32_le.
  replace (Z.to_nat (Z.of_nat (length pre) + off + 3))
    with (length pre + Z.to_nat (off + 3))%nat by lia.
  replace (Z.to_nat (Z.of_nat (length pre) + off + 2))
    with (length pre + Z.to_nat (off + 2))%nat by lia.
  replace (Z.to_nat (Z.of_nat (length pre) + off + 1))
    with (length pre + Z.to_nat (off + 1))%nat by lia.
  replace (Z.to_nat (Z.of_nat (length pre) + off))
    with (length pre + Z.to_nat off)%nat by lia.
  by rewrite !insert_app_r.
Qed.

Lemma length_u32_le v : length (u32_le v) = 4%nat.
Proof. reflexivity. Qed.

Lemma length_rpi_plaintext en : length (rpi_plaintext en) = 16%nat.
Proof. reflexivity. Qed.

(** The loop of [GenerateIds] stamps the blocks one after the other. *)
Lemma write_intervals_stamped n : ∀ (pre s : bytes) (en : Z),
  (16 * n ≤ length s)%nat →
  Z.of_nat (length pre) + 16 * Z.of_nat n ≤ kIdPerKey * kIdLength →
  write_intervals n (pre ++ s) (Z.of_nat (length pre)) en =
  pre ++ stamped n s en.
Proof.
  induction n as [|n IH]; intros pre s en Hs Hpre; simpl; [done|].
  rewrite bool_decide_true by lia.
  rewrite store_u32_le_app by lia.
  rewrite store_u32_le_block by lia.
  assert (length (take 12 s) = 12%nat) as Ht by (rewrite length_take; lia).
  replace (Z.of_nat (length pre) + kIdLength)
    with (Z.of_nat (length (pre ++ take 12 s ++ u32_le en))).
  2:{ rewrite !length_app, Ht, length_u32_le. unfold kIdLength. lia. }
  replace (pre ++ take 12 s ++ u32_le en ++ drop 16 s)
    with ((pre ++ take 12 s ++ u32_le en) ++ drop 16 s)
    by (by rewrite <- !app_assoc).
  rewrite IH.
  - by rewrite <- !app_assoc.
  - rewrite length_drop. lia.
  - rewrite !length_app, Ht, length_u32_le. lia.
Qed.

Lemma block_at_0 (s : bytes) : block_at s 0 = take 16 s.
Proof. reflexivity. Qed.

Lemma block_at_S (s : bytes) (i : nat) :
  block_at s (S i) = block_at (drop 16 s) i.
Proof.
  unfold block_at. rewrite drop_drop. f_equal. f_equal. lia.
Qed.

(** On a buffer that satisfies the invariant of [aesInputStorage], the
    stamped blocks are the plaintext blocks of the protocol. *)
Lemma stamped_plaintexts n : ∀ (s : bytes) (en : Z),
  length s = (16 * n)%nat →
  (∀ i, (i < n)%nat → take 12 (block_at s i) = take 12 (rpi_plaintext 0)) →
  stamped n s en = concat (rpi_plaintexts n en).
Proof.
  induction n as [|n IH]; intros s en Hlen Hblk; simpl.
  - destruct s; [done|simpl in Hlen; lia].
  - rewrite (IH (drop 16 s)).
    + pose proof (Hblk 0%nat ltac:(lia)) as H0.
      rewrite block_at_0, take_take in H0.
      replace (12 `min` 16)%nat with 12%nat in H0 by lia.
      rewrite H0. reflexivity.
    + rewrite length_drop. lia.
    + intros i Hi. rewrite <- block_at_S. apply Hblk. lia.
Qed.

Lemma length_stamped n : ∀ (s : bytes) (en : Z),
  (16 * n ≤ length s)%nat → length (stamped n s en) = length s.
Proof.
  induction n as [|n IH]; intros s en Hs; [done|]. cbn [stamped].
  rewrite !length_app, length_take, length_u32_le, IH, length_drop;
    rewrite ?length_drop; lia.
Qed.

Lemma stamped_ready (s : bytes) (en : Z) :
  storage_ready s → storage_ready (stamped 144 s en).
Proof.
  intros [Hlen Hblk]. split; [rewrite length_stamped; lia|].
  assert (∀ n (s : bytes) en, (16 * n ≤ length s)%nat → ∀ i, (i < n)%nat →
            take 12 (block_at (stamped n s en) i) = take 12 (block_at s i))
    as Hgen.
  { clear. induction n as [|n IH]; intros s en Hs i Hi; [lia|].
    cbn [stamped]. destruct i as [|i].
    - rewrite !block_at_0, !take_take.
      replace (12 `min` 16)%nat with 12%nat by lia.
      rewrite take_app_le by (rewrite length_take; lia).
      rewrite take_take. by rewrite Nat.min_id.
    - rewrite !block_at_S.
      replace (take 12 s ++ u32_le en ++ stamped n (drop 16 s) ((en + 1) mod 2 ^ 32))
        with ((take 12 s ++ u32_le en) ++ stamped n (drop 16 s) ((en + 1) mod 2 ^ 32))
        by (by rewrite <- app_assoc).
      rewrite drop_app_length'
        by (rewrite length_app, length_take, length_u32_le; lia).
      apply IH; [rewrite length_drop; lia|lia]. }
  intros i Hi. rewrite Hgen by lia. by apply Hblk.
Qed.

Lemma length_rpi_plaintexts n en : length (rpi_plaintexts n en) = n.
Proof. revert en. induction n as [|n IH]; intros en; simpl; [done|by rewrite IH]. Qed.

Lemma rpi_plaintexts_blocks n en :
  Forall (λ b, length b = 16%nat) (rpi_plaintexts n en).
Proof.
  revert en. induction n as [|n IH]; intros en; simpl; constructor;
    [done|apply IH].
Qed.

Lemma rpi_plaintexts_lookup n : ∀ (en : Z) (i : nat),
  0 ≤ en < 2 ^ 32 → (i < n)%nat →
  rpi_plaintexts n en !! i = Some (rpi_plaintext ((en + Z.of_nat i) mod 2 ^ 32)).
Proof.
  induction n as [|n IH]; intros en i Hen Hi; [lia|]. simpl.
  destruct i as [|i]; simpl.
  - rewrite Z.add_0_r, Z.mod_small by lia. done.
  - rewrite IH; [|apply Z.mod_pos_bound; lia|lia].
    do 2 f_equal. rewrite Zplus_mod_idemp_l. f_equal. lia.
Qed.

Lemma blocks_concat (l : list bytes) :
  Forall (λ b, length b = 16%nat) l → blocks (length l) (concat l) = l.
Proof.
  induction 1 as [|b l Hb _ IH]; simpl; [done|].
  rewrite take_app_length', drop_app_length' by done. by rewrite IH.
Qed.

Lemma length_concat_blocks (l : list bytes) :
  Forall (λ b, length b = 16%nat) l → length (concat l) = (16 * length l)%nat.
Proof.
  induction 1 as [|b l Hb _ IH]; simpl; [done|].
  rewrite length_app, Hb, IH. lia.
Qed.

Lemma block_at_concat (l : list bytes) (i : nat) (b : bytes) :
  Forall (λ b, length b = 16%nat) l → l !! i = Some b →
  block_at (concat l) i = b.
Proof.
  intros Hl. revert i. induction Hl as [|b0 l Hb0 _ IH]; intros i Hi; [done|].
  destruct i as [|i]; simpl in Hi.
  - injection Hi as ->. rewrite block_at_0. simpl.
    by rewrite take_app_length'.
  - rewrite block_at_S. simpl. rewrite drop_app_length' by done. by apply IH.
Qed.

Lemma blocks_lookup n : ∀ (s : bytes) (i : nat),
  (i < n)%nat → blocks n s !! i = Some (block_at s i).
Proof.
  induction n as [|n IH]; intros s i Hi; [lia|]. simpl.
  destruct i as [|i]; simpl; [done|].
  rewrite IH by lia. by rewrite block_at_S.
Qed.

Lemma length_blocks n (s : bytes) : length (blocks n s) = n.
Proof. revert s. induction n as [|n IH]; intros s; simpl; [done|by rewrite IH]. Qed.

Lemma storage_ready_blocks (s : bytes) :
  length s = 2304%nat →
  Forall (λ b, take 12 b = take 12 (rpi_plaintext 0)) (blocks 144 s) →
  storage_ready s.
Proof.
  intros Hlen Hall. split; [done|]. intros i Hi.
  rewrite Forall_forall in Hall. apply Hall.
  eapply list_elem_of_lookup_2. by apply blocks_lookup.
Qed.

(** The constructor leaves [aesInputStorage] with the constant part of
    every block in place. *)
Lemma init_storage_ready :
  storage_ready
    (init_storage (Z.to_nat kIdPerKey)
       (replicate (Z.to_nat (kIdPerKey * kIdLength)) x00) 0).
Proof.
  set (s := init_storage _ _ _).
  assert (bool_decide
            (length s = 2304%nat ∧
             Forall (λ b, take 12 b = take 12 (rpi_plaintext 0))
                    (blocks 144 s)) = true) as Hd
    by (vm_compute; reflexivity).
  apply bool_decide_eq_true in Hd as [Hlen Hall].
  by apply storage_ready_blocks.
Qed.

Lemma write_intervals_ready (s : bytes) (en : Z) :
  storage_ready s →
  write_intervals (Z.to_nat kIdPerKey) s 0 en = stamped 144 s en.
Proof.
  intros [Hlen _].
  apply (write_intervals_stamped 144 [] s en); [lia|].
  unfold kIdPerKey, kIdLength. simpl. lia.
Qed.

Section derivation.
Context `{OpenSSL}.

Lemma GenerateIds_frame (h : MatchingHelper) (t : bytes) (s : Z) :
  let '(h', _) := GenerateIds h t s in
  prefix_key_map h' = prefix_key_map h ∧
  last_processed_key_count h' = last_processed_key_count h ∧
  (storage_ready (aesInputStorage h) → storage_ready (aesInputStorage h')).
Proof.
  unfold GenerateIds.
  destruct (HKDF _ _ _ _) as [rpi_key|]; [|done].
  destruct (EVP_EncryptInit_ex _ _) as [ctx ok].
  destruct ok; cbn [negb]; [|done]. cbv zeta.
  destruct (EVP_EncryptUpdate _ _) as [[ctx' ids] ok'].
  cbn [set_context set_aesInputStorage prefix_key_map aesInputStorage
       last_processed_key_count context].
  split; [done|]. split; [done|].
  intros Hready. rewrite write_intervals_ready by done.
  by apply stamped_ready.
Qed.

Hypothesis openssl_contract : OpenSSLContract.

Lemma ecb_encrypt_plaintexts (key : bytes) (n : nat) (en : Z) :
  ecb_encrypt (AES_128_encrypt key) n (concat (rpi_plaintexts n en)) =
  concat (AES_128_encrypt key <$> rpi_plaintexts n en).
Proof.
  unfold ecb_encrypt.
  rewrite <- (length_rpi_plaintexts n en) at 1.
  rewrite blocks_concat; [done|]. apply rpi_plaintexts_blocks.
Qed.

(** When the two OpenSSL set-up calls succeed, [GenerateIds] succeeds and
    [ids] holds the encryptions of the 144 plaintext blocks. *)
Lemma GenerateIds_ok (h : MatchingHelper) (t : bytes) (s : Z)
    (rpik : bytes) (ctx : EVP_CIPHER_CTX) :
  storage_ready (aesInputStorage h) →
  HKDF kRpikLength (take 16 t) [] EN_RPIK = Some rpik →
  EVP_EncryptInit_ex (context h) rpik = (ctx, true) →
  ∃ h', GenerateIds h t s =
          (h', Some (concat (AES_128_encrypt rpik <$> rpi_plaintexts 144 s))).
Proof.
  intros Hready Hhkdf Hinit. unfold GenerateIds.
  change (take (Z.to_nat kHkdfInfoLength) kHkdfInfo) with EN_RPIK.
  change (Z.to_nat kTekLength) with 16%nat.
  rewrite Hhkdf, Hinit. cbn [negb]. cbv zeta.
  cbn [set_context set_aesInputStorage prefix_key_map aesInputStorage
       last_processed_key_count context].
  rewrite write_intervals_ready by done.
  destruct Hready as [Hlen Hblk].
  rewrite (stamped_plaintexts 144 _ s Hlen Hblk).
  rewrite take_ge.
  2:{ rewrite <- (stamped_plaintexts 144 _ s Hlen Hblk), length_stamped; [|lia].
      rewrite Hlen. by vm_compute. }
  destruct openssl_contract as [_ Hupd].
  destruct (Hupd (context h) rpik ctx 144%nat
              (concat (rpi_plaintexts 144 s)) Hinit) as [ctx'' Hu].
  { rewrite <- (stamped_plaintexts 144 _ s Hlen Hblk), length_stamped; lia. }
  rewrite Hu, ecb_encrypt_plaintexts. eauto.
Qed.
End derivation.

(** ** Probing the derived identifiers *)

Lemma GetPrefix_take (id : bytes) : GetPrefix (take 16 id) = GetPrefix id.
Proof.
  unfold GetPrefix, GetPrefixInner, byte_at.
  by rewrite !lookup_take_lt by lia.
Qed.

Lemma scan_bucket_take n recs (id : bytes) s e :
  scan_bucket n recs (take 16 id) s e = scan_bucket n recs id s e.
Proof.
  revert s. induction n as [|n IH]; intros s; simpl; [done|].
  rewrite IH. unfold memcmp_eq, kIdLength.
  change (Z.to_nat 16) with 16%nat. rewrite take_take, Nat.min_id. done.
Qed.

(** [GetIdIndex] looks at the first 16 bytes behind the pointer only. *)
Lemma GetIdIndex_take (m : PrefixIdMap) (id : bytes) :
  GetIdIndex m (take 16 id) = GetIdIndex m id.
Proof.
  unfold GetIdIndex. rewrite GetPrefix_take. apply scan_bucket_take.
Qed.

Lemma probe_ids_spec {A} n : ∀ (m : PrefixIdMap) (ids : bytes) (i0 : nat)
    (item : A) (matched : list A),
  (i0 + n ≤ 144)%nat →
  probe_ids n m ids (16 * Z.of_nat i0) item matched =
  if decide (some_block_found m ids i0 n) then matched ++ [item] else matched.
Proof.
  induction n as [|n IH]; intros m ids i0 item matched Hn.
  - cbn [probe_ids]. case_decide as He; [|done].
    unfold some_block_found in He. by apply Exists_nil in He.
  - cbn [probe_ids]. rewrite bool_decide_true
      by (unfold kIdPerKey, kIdLength; lia).
    unfold some_block_found. cbn [seq]. 
    replace (drop (Z.to_nat (16 * Z.of_nat i0)) ids)
      with (drop (16 * i0) ids) by (f_equal; lia).
    rewrite <- GetIdIndex_take. fold (block_at ids i0).
    case_bool_decide as Hhit.
    + rewrite decide_True; [done|]. by apply Exists_cons_hd.
    + replace (16 * Z.of_nat i0 + kIdLength) with (16 * Z.of_nat (S i0))
        by (unfold kIdLength; lia).
      rewrite IH by lia. unfold some_block_found.
      destruct (decide (Exists _ (seq (S i0) n))) as [He|He].
      * rewrite decide_True; [done|]. by apply Exists_cons_tl.
      * rewrite decide_False; [done|].
        rewrite Exists_cons. tauto.
Qed.

(** The probe loop of [Matching] and [MatchingLegacy] as a whole. *)
Lemma probe_ids_all {A} (m : PrefixIdMap) (ids : bytes) (item : A)
    (matched : list A) :
  probe_ids (Z.to_nat kIdPerKey) m ids 0 item matched =
  if decide (some_block_found m ids 0 144) then matched ++ [item] else matched.
Proof. apply (probe_ids_spec 144 m ids 0). lia. Qed.

Section derivation_theorem.
Context `{StdSort} `{OpenSSL}.

Lemma new_MatchingHelper_ready (R : list bytes) :
  storage_ready (aesInputStorage (new_MatchingHelper R)).
Proof. apply init_storage_ready. Qed.

Lemma Matching_key_rolling_period (h : MatchingHelper)
    (matched : list TemporaryExposureKeyNano)
    (key : TemporaryExposureKeyNano) (p : Z) :
  (Matching_key h matched (with_rolling_period p key)).1 =
    (Matching_key h matched key).1 ∧
  length (Matching_key h matched (with_rolling_period p key)).2 =
    length (Matching_key h matched key).2.
Proof.
  unfold Matching_key. cbn [with_rolling_period key_data
    rolling_start_interval_number].
  destruct (GenerateIds _ _ _) as [h' [ids|]]; [|done].
  cbn [fst snd]. split; [done|].
  rewrite !probe_ids_all. case_decide; [|done].
  by rewrite !length_app.
Qed.
End derivation_theorem.

(** C1 (derivation of the identifiers).  For every 16-byte key [t] and
    every 32-bit rolling start [s], on a helper whose plaintext buffer is as
    the constructor left it, [GenerateIds] succeeds whenever the key
    derivation and the cipher set-up succeed, and writes exactly 144 blocks of
    16 bytes; block [i] is the AES-128 encryption, under the key that
    HKDF-SHA256 derives from [t] with an empty salt and the seven bytes
    "EN-RPIK" for an output of 16 bytes, of "EN-RPI", six zero bytes and the
    number [(s + i) mod 2^32] in little-endian order.  The buffer keeps its
    shape, the constructor establishes it, and the rolling period of a key
    plays no part. *)
Theorem GenerateIds_rpi_blocks `{StdSort} `{OpenSSL}
    (h : MatchingHelper) (t : bytes) (s : Z) (rpik : bytes)
    (ctx : EVP_CIPHER_CTX) :
  OpenSSLContract →
  storage_ready (aesInputStorage h) →
  length t = 16%nat →
  0 ≤ s < 2 ^ 32 →
  HKDF 16 t [] EN_RPIK = Some rpik →
  EVP_EncryptInit_ex (context h) rpik = (ctx, true) →
  (∃ h' ids,
     GenerateIds h t s = (h', Some ids) ∧
     length ids = (144 * 16)%nat ∧
     (∀ i, (i < 144)%nat →
        block_at ids i =
          AES_128_encrypt rpik (rpi_plaintext ((s + Z.of_nat i) mod 2 ^ 32)) ∧
        length (block_at ids i) = 16%nat) ∧
     storage_ready (aesInputStorage h')) ∧
  (∀ en, 0 ≤ en < 2 ^ 32 →
     take 12 (rpi_plaintext en) = take 12 kRpiPaddedData ∧
     byte_at (rpi_plaintext en) 12 + 2 ^ 8 * byte_at (rpi_plaintext en) 13
       + 2 ^ 16 * byte_at (rpi_plaintext en) 14
       + 2 ^ 24 * byte_at (rpi_plaintext en) 15 = en) ∧
  (∀ R, storage_ready (aesInputStorage (new_MatchingHelper R))) ∧
  (∀ matched key p,
     (Matching_key h matched (with_rolling_period p key)).1 =
       (Matching_key h matched key).1 ∧
     length (Matching_key h matched (with_rolling_period p key)).2 =
       length (Matching_key h matched key).2).
Proof.
  intros Hc Hready Ht Hs Hhkdf Hinit.
  split; [|split; [|split]].
  - destruct (GenerateIds_ok Hc h t s rpik ctx Hready) as [h' Hg];
      [by rewrite take_ge by lia|done|].
    pose proof (GenerateIds_frame h t s) as Hf. rewrite Hg in Hf.
    destruct Hf as (_ & _ & Hr').
    destruct Hc as [Hblk _].
    assert (Forall (λ b : bytes, length b = 16%nat)
              (AES_128_encrypt rpik <$> rpi_plaintexts 144 s)) as Hall.
    { apply Forall_fmap.
      eapply Forall_impl; [apply (rpi_plaintexts_blocks 144 s)|].
      intros b Hb. simpl. by apply Hblk. }
    exists h', (concat (AES_128_encrypt rpik <$> rpi_plaintexts 144 s)).
    split; [done|]. split.
    { rewrite (length_concat_blocks _ Hall), length_fmap,
        length_rpi_plaintexts. lia. }
    split; [|by apply Hr'].
    intros i Hi.
    assert ((AES_128_encrypt rpik <$> rpi_plaintexts 144 s) !! i =
            Some (AES_128_encrypt rpik
                    (rpi_plaintext ((s + Z.of_nat i) mod 2 ^ 32)))) as Hlk.
    { rewrite list_lookup_fmap, rpi_plaintexts_lookup by done. done. }
    rewrite (block_at_concat _ i _ Hall Hlk).
    split; [done|]. apply Hblk. apply length_rpi_plaintext.
  - intros en Hen. split; [done|].
    pose proof (u32_le_value en Hen) as Hv. exact Hv.
  - intros R. apply new_MatchingHelper_ready.
  - intros matched key p. apply Matching_key_rolling_period.
Qed.

(** ** The matching loops *)

Section matching_loops.
Context `{StdSort} `{NanoPb} `{OpenSSL}.

Lemma process_keys_app h matched keys keys' :
  process_keys h matched (keys ++ keys') =
  let '(h', matched') := process_keys h matched keys in
  process_keys h' matched' keys'.
Proof.
  revert h matched. induction keys as [|key keys IH]; intros h matched;
    simpl; [done|].
  destruct (Matching_key h matched key) as [h1 m1]. apply IH.
Qed.

(** The [while] loop of [Matching] runs the loop body on the keys that the
    iterator returns. *)
Lemma Matching_while_keys fuel : ∀ it h matched,
  Matching_while fuel it h matched =
  process_keys h matched <$> iterate_keys fuel it.
Proof.
  induction fuel as [|fuel IH]; intros it h matched; simpl.
  - by destruct (HasNext it).
  - destruct (HasNext it); simpl; [|done].
    destruct (Next fuel it) as [[it' [key|]]|]; simpl; [| |done].
    + destruct (Matching_key h matched key) as [h1 m1] eqn:Hk.
      rewrite IH. destruct (iterate_keys fuel it') as [keys|]; simpl; [|done].
      by rewrite Hk.
    + apply IH.
Qed.

Lemma Matching_for_keys disk fuel key_files : ∀ h matched,
  Matching_for disk fuel key_files h matched =
  process_keys h matched <$> files_keys disk fuel key_files.
Proof.
  induction key_files as [|key_file rest IH]; intros h matched; simpl;
    [done|].
  destruct (CreateKeyFileIterator disk fuel key_file) as [[it|]|];
    [| |done].
  - rewrite Matching_while_keys.
    destruct (iterate_keys fuel it) as [keys|]; simpl; [|done].
    destruct (process_keys h matched keys) as [h1 m1] eqn:Hk.
    rewrite IH.
    destruct (files_keys disk fuel rest) as [keys'|]; simpl; [|done].
    by rewrite process_keys_app, Hk.
  - apply IH.
Qed.

Lemma Matching_key_frame h matched key :
  let '(h', matched') := Matching_key h matched key in
  prefix_key_map h' = prefix_key_map h ∧
  last_processed_key_count h' =
    (last_processed_key_count h + 1) mod 2 ^ 32 ∧
  (storage_ready (aesInputStorage h) → storage_ready (aesInputStorage h')) ∧
  (matched' = matched ∨ matched' = matched ++ [key]).
Proof.
  unfold Matching_key.
  pose proof (GenerateIds_frame
    (set_last_processed_key_count
       ((last_processed_key_count h + 1) mod 2 ^ 32) h)
    (key_data key) (rolling_start_interval_number key mod 2 ^ 32)) as Hf.
  destruct (GenerateIds _ _ _) as [h' [ids|]];
    destruct Hf as (Hm & Hc & Hr); cbn in Hm, Hc, Hr;
    (split; [done|]; split; [done|]; split; [done|]).
  - rewrite probe_ids_all. case_decide; auto.
  - by left.
Qed.

Lemma process_keys_frame keys : ∀ h matched,
  0 ≤ last_processed_key_count h < 2 ^ 32 →
  let '(h', matched') := process_keys h matched keys in
  prefix_key_map h' = prefix_key_map h ∧
  last_processed_key_count h' =
    (last_processed_key_count h + Z.of_nat (length keys)) mod 2 ^ 32 ∧
  (storage_ready (aesInputStorage h) → storage_ready (aesInputStorage h')) ∧
  ∃ extra, matched' = matched ++ extra ∧ extra `sublist_of` keys.
Proof.
  induction keys as [|key keys IH]; intros h matched Hc; simpl.
  - rewrite Z.add_0_r, Zmod_small by done.
    do 3 (split; [done|]). exists nil. by rewrite app_nil_r.
  - pose proof (Matching_key_frame h matched key) as Hk.
    destruct (Matching_key h matched key) as [h1 m1].
    destruct Hk as (Hm1 & Hc1 & Hr1 & Hx1).
    assert (0 ≤ last_processed_key_count h1 < 2 ^ 32) as Hb1
      by (rewrite Hc1; apply Z.mod_pos_bound; lia).
    specialize (IH h1 m1 Hb1). rewrite Hc1 in IH.
    destruct (process_keys h1 m1 keys) as [h2 m2].
    destruct IH as (Hm2 & Hc2 & Hr2 & extra & Hx2 & Hsub).
    split; [congruence|]. split.
    { rewrite Hc2, Zplus_mod_idemp_l. f_equal. lia. }
    split; [auto|].
    destruct Hx1 as [->| ->].
    + exists extra. split; [done|]. by apply sublist_cons.
    + exists (key :: extra). split; [by rewrite Hx2, <- app_assoc|].
      by apply sublist_skip.
Qed.
End matching_loops.

Section legacy_loop.
Context `{OpenSSL}.

Lemma MatchingLegacy_for_frame dk rs key_count n : ∀ h i match_indexes,
  let '(h', match_indexes') :=
    MatchingLegacy_for n h dk rs i key_count match_indexes in
  prefix_key_map h' = prefix_key_map h ∧
  last_processed_key_count h' = last_processed_key_count h ∧
  (storage_ready (aesInputStorage h) → storage_ready (aesInputStorage h')) ∧
  ∃ extra, match_indexes' = match_indexes ++ extra ∧
           extra `sublist_of` ((λ k : nat, i + Z.of_nat k) <$> seq 0 n).
Proof.
  induction n as [|n IH]; intros h i mi; cbn [MatchingLegacy_for].
  - do 3 (split; [done|]). exists nil. by rewrite app_nil_r.
  - case_bool_decide as Hi.
    2:{ do 3 (split; [done|]). exists nil. split; [by rewrite app_nil_r|].
        apply sublist_nil_l. }
    cbv zeta.
    pose proof (GenerateIds_frame h
      (take (Z.to_nat kIdLength) (default [] (dk !! Z.to_nat i)))
      (default 0 (rs !! Z.to_nat i) mod 2 ^ 32)) as Hf.
    destruct (GenerateIds _ _ _) as [h1 r1].
    destruct Hf as (Hm1 & Hc1 & Hr1).
    assert (seq_shift : (λ k : nat, i + Z.of_nat k) <$> seq 0 (S n) =
              i :: ((λ k : nat, i + 1 + Z.of_nat k) <$> seq 0 n)).
    { cbn [seq fmap list_fmap]. rewrite Z.add_0_r. f_equal.
      rewrite <- fmap_S_seq, <- list_fmap_compose.
      apply list_fmap_ext. intros _ k _. simpl. lia. }
    rewrite seq_shift.
    destruct r1 as [ids|].
    + rewrite probe_ids_all.
      specialize (IH h1 (i + 1)
        (if decide (some_block_found (prefix_key_map h1) ids 0 144)
         then mi ++ [i] else mi)).
      destruct (MatchingLegacy_for n h1 dk rs (i + 1) key_count _)
        as [h2 m2].
      destruct IH as (Hm2 & Hc2 & Hr2 & extra & Hx & Hsub).
      split; [congruence|]. split; [congruence|]. split; [auto|].
      case_decide.
      * exists (i :: extra). split; [by rewrite Hx, <- app_assoc|].
        by apply sublist_skip.
      * exists extra. split; [done|]. by apply sublist_cons.
    + specialize (IH h1 (i + 1) mi).
      destruct (MatchingLegacy_for n h1 dk rs (i + 1) key_count mi)
        as [h2 m2].
      destruct IH as (Hm2 & Hc2 & Hr2 & extra & Hx & Hsub).
      split; [congruence|]. split; [congruence|]. split; [auto|].
      exists extra. split; [done|]. by apply sublist_cons.
Qed.
End legacy_loop.

(** ** The file header *)

Lemma header_last_byte : take 16 kFileHeader !! 15%nat = Some x20.
Proof. reflexivity. Qed.

(** [VerifyHeader] accepts a file exactly when its first 16 bytes are the
    literal; a file shorter than 16 bytes is rejected. *)
Lemma VerifyHeader_spec (contents : bytes) :
  (VerifyHeader (CreatePbInputStream (fopen_rb contents))).2 =
  bool_decide (take 16 contents = take 16 kFileHeader).
Proof.
  unfold VerifyHeader, pb_read, ReadFromFileToStream, fread, ferror, feof,
    CreatePbInputStream, fopen_rb.
  change kFileHeaderSize with 16. change (Z.to_nat 16) with 16%nat.
  cbn [state bytes_left f_unread f_eof].
  rewrite bool_decide_false by lia.
  rewrite (bool_decide_false (SIZE_MAX < 16)) by (unfold SIZE_MAX; lia).
  assert ((let '(pb_istream', buf, _) :=
             if bool_decide (Z.of_nat (length (take 16 contents)) = 16)
             then ({| state := {| f_unread := drop 16 contents;
                                  f_eof := false || bool_decide
                                    (Z.of_nat (length (take 16 contents)) < 16) |};
                      bytes_left :=
                        ((if false || bool_decide
                               (Z.of_nat (length (take 16 contents)) < 16)
                          then 0 else SIZE_MAX) - 16) mod 2 ^ 64 |},
                   take 16 contents, true)
             else ({| state := {| f_unread := drop 16 contents;
                                  f_eof := false || bool_decide
                                    (Z.of_nat (length (take 16 contents)) < 16) |};
                      bytes_left :=
                        if false || bool_decide
                             (Z.of_nat (length (take 16 contents)) < 16)
                        then 0 else SIZE_MAX |},
                   take 16 contents, false) in
           (pb_istream',
            memcmp_eq (buf ++ drop (length buf) (replicate 16 x00))
                      kFileHeader 16)).2 =
          memcmp_eq (take 16 contents
                       ++ drop (length (take 16 contents)) (replicate 16 x00))
                    kFileHeader 16) as Hshape
    by (by case_bool_decide).
  etransitivity; [exact Hshape|]. clear Hshape.
  unfold memcmp_eq. change (Z.to_nat 16) with 16%nat.
  destruct (decide (16 ≤ length contents)%nat) as [Hlen|Hlen].
  - rewrite length_take, Nat.min_l by done.
    change (drop 16 (replicate 16 x00)) with (@nil byte).
    by rewrite app_nil_r, take_take, Nat.min_id.
  - rewrite (take_ge contents) by lia.
    rewrite !bool_decide_false; [done| |].
    + intros Heq. apply (f_equal length) in Heq.
      change (length (take 16 kFileHeader)) with 16%nat in Heq. lia.
    + intros Heq. apply (f_equal (λ l, l !! 15%nat)) in Heq.
      rewrite header_last_byte in Heq.
      rewrite lookup_take_lt in Heq by lia.
      rewrite lookup_app_r in Heq by lia.
      rewrite lookup_drop, lookup_replicate_2 in Heq by lia. done.
Qed.

Section sources.
Context `{StdSort} `{NanoPb} `{OpenSSL}.

Lemma CreateKeyFileIterator_mismatch disk fuel name contents :
  disk !! name = Some contents →
  take 16 contents ≠ take 16 kFileHeader →
  CreateKeyFileIterator disk fuel name = Some None.
Proof.
  intros Hname Hne. unfold CreateKeyFileIterator. rewrite Hname.
  pose proof (VerifyHeader_spec contents) as Hv.
  destruct (VerifyHeader _) as [s ok]. simpl in Hv.
  rewrite bool_decide_false in Hv by done. by rewrite Hv.
Qed.

Lemma files_keys_skip disk fuel name before after :
  CreateKeyFileIterator disk fuel name = Some None →
  files_keys disk fuel (before ++ name :: after) =
  files_keys disk fuel (before ++ after).
Proof.
  intros Hname. induction before as [|f before IH]; simpl.
  - by rewrite Hname.
  - destruct (CreateKeyFileIterator disk fuel f) as [[it|]|]; [|done..].
    destruct (iterate_keys fuel it); simpl; [|done]. by rewrite IH.
Qed.

Lemma files_keys_app disk fuel key_files key_files' :
  files_keys disk fuel (key_files ++ key_files') =
  keys ← files_keys disk fuel key_files;
  keys' ← files_keys disk fuel key_files';
  Some (keys ++ keys').
Proof.
  induction key_files as [|f key_files IH]; simpl.
  - by destruct (files_keys disk fuel key_files').
  - destruct (CreateKeyFileIterator disk fuel f) as [[it|]|]; [|done..].
    destruct (iterate_keys fuel it) as [keys0|]; simpl; [|done].
    rewrite IH.
    destruct (files_keys disk fuel key_files) as [keys|]; simpl; [|done].
    destruct (files_keys disk fuel key_files') as [keys'|]; simpl; [|done].
    by rewrite app_assoc.
Qed.

Lemma Matching_spec disk fuel h key_files :
  Matching disk fuel h key_files =
  keys ← files_keys disk fuel key_files;
  let '(h', matched_keys) :=
    process_keys (set_last_processed_key_count 0 h) [] keys in
  Some (h', if bool_decide (length matched_keys = 0%nat) then None
            else Some (EncodeTemporaryExposureKey <$> matched_keys)).
Proof.
  unfold Matching, Matching_keys. rewrite Matching_for_keys.
  destruct (files_keys disk fuel key_files) as [keys|]; simpl; [|done].
  destruct (process_keys _ _ _) as [h' m]. by case_bool_decide.
Qed.

Lemma Matching_counter disk fuel h key_files h' result :
  Matching disk fuel h key_files = Some (h', result) →
  ∃ keys, files_keys disk fuel key_files = Some keys ∧
    last_processed_key_count h' = Z.of_nat (length keys) mod 2 ^ 32 ∧
    prefix_key_map h' = prefix_key_map h ∧
    (storage_ready (aesInputStorage h) → storage_ready (aesInputStorage h')).
Proof.
  rewrite Matching_spec.
  destruct (files_keys disk fuel key_files) as [keys|]; simpl; [|done].
  pose proof (process_keys_frame keys (set_last_processed_key_count 0 h) [])
    as Hf.
  destruct (process_keys _ _ _) as [h1 m1].
  intros [= <- _]. exists keys. split; [done|].
  destruct Hf as (Hm & Hc & Hr & _); [simpl; lia|]. simpl in *. done.
Qed.

Lemma MatchingLegacy_frame h dk rs n :
  prefix_key_map (MatchingLegacy h dk rs n).1 = prefix_key_map h ∧
  last_processed_key_count (MatchingLegacy h dk rs n).1 =
    last_processed_key_count h ∧
  (storage_ready (aesInputStorage h) →
   storage_ready (aesInputStorage (MatchingLegacy h dk rs n).1)).
Proof.
  unfold MatchingLegacy. repeat case_bool_decide; try done.
  pose proof (MatchingLegacy_for_frame dk rs n (Z.to_nat n) h 0 []) as Hf.
  destruct (MatchingLegacy_for _ _ _ _ _ _ _) as [h' mi].
  destruct Hf as (Hm & Hc & Hr & _). by case_bool_decide.
Qed.

Lemma run_operations_counter disk fuel ops : ∀ h h',
  run_operations disk fuel h ops = Some h' →
  match last_matching ops with
  | None => last_processed_key_count h' = last_processed_key_count h
  | Some key_files =>
      ∃ keys, files_keys disk fuel key_files = Some keys ∧
        last_processed_key_count h' = Z.of_nat (length keys) mod 2 ^ 32
  end.
Proof.
  induction ops as [|op ops IH]; intros h h' Hrun; simpl in *.
  - by injection Hrun as ->.
  - destruct op as [key_files|dk rs n].
    + destruct (Matching disk fuel h key_files) as [[h1 r]|] eqn:Hm;
        simpl in Hrun; [|done].
      specialize (IH h1 h' Hrun).
      destruct (last_matching ops); [done|].
      destruct (Matching_counter _ _ _ _ _ _ Hm) as (keys & Hk & Hc & _).
      exists keys. split; [done|]. congruence.
    + specialize (IH _ h' Hrun).
      destruct (last_matching ops); [done|].
      rewrite IH. apply MatchingLegacy_frame.
Qed.
End sources.

(** ** What is matched *)

Section what_is_matched.
Context `{StdSort} `{NanoPb} `{OpenSSL}.
Hypothesis sort_contract : StdSortContract.
Hypothesis openssl_contract : OpenSSLContract.
Hypothesis init_succeeds : InitSucceeds.

Variable R : list bytes.
Hypothesis records_16 : Forall (λ r, length r = 16%nat) R.

Lemma found_iff_member (b : bytes) :
  length b = 16%nat →
  GetIdIndex (new_PrefixIdMap R) b >= 0 ↔ b ∈ R.
Proof.
  intros Hb.
  destruct (GetIdIndex_found sort_contract R b records_16 Hb) as [Hin Hout].
  destruct (decide (b ∈ R)) as [Hd|Hd].
  - specialize (Hin Hd). split; [done|lia].
  - specialize (Hout Hd). split; [lia|done].
Qed.

(** Derivation followed by the probe loop appends the item exactly when one
    of the identifiers of the key is among the scan records. *)
Lemma derive_and_probe {A} (h : MatchingHelper) (t : bytes) (s : Z)
    (item : A) (matched : list A) :
  storage_ready (aesInputStorage h) →
  prefix_key_map h = new_PrefixIdMap R →
  0 ≤ s < 2 ^ 32 →
  match GenerateIds h t s with
  | (h', Some ids) =>
      probe_ids (Z.to_nat kIdPerKey) (prefix_key_map h') ids 0 item matched
  | (_, None) => matched
  end = if key_hits R t s then matched ++ [item] else matched.
Proof.
  intros Hready Hmap Hs. unfold key_hits.
  destruct (HKDF kRpikLength (take 16 t) [] EN_RPIK) as [rpik|] eqn:Hhkdf.
  2:{ unfold GenerateIds.
      change (take (Z.to_nat kHkdfInfoLength) kHkdfInfo) with EN_RPIK.
      change (Z.to_nat kTekLength) with 16%nat. by rewrite Hhkdf. }
  pose proof (init_succeeds (context h) rpik) as Hok.
  destruct (EVP_EncryptInit_ex (context h) rpik) as [ctx ok] eqn:Hinit.
  simpl in Hok. subst ok.
  destruct (GenerateIds_ok openssl_contract h t s rpik ctx Hready Hhkdf Hinit)
    as [h' Hg].
  pose proof (GenerateIds_frame h t s) as Hf. rewrite Hg in Hf.
  destruct Hf as (Hm' & _ & _). rewrite Hg, Hm', Hmap, probe_ids_all.
  destruct openssl_contract as [Hblk _].
  assert (Forall (λ b : bytes, length b = 16%nat)
            (AES_128_encrypt rpik <$> rpi_plaintexts 144 s)) as Hall.
  { apply Forall_fmap.
    eapply Forall_impl; [apply (rpi_plaintexts_blocks 144 s)|].
    intros b Hb. simpl. by apply Hblk. }
  assert (∀ i : nat, (i < 144)%nat →
            block_at (concat (AES_128_encrypt rpik <$> rpi_plaintexts 144 s)) i
            = AES_128_encrypt rpik
                (rpi_plaintext ((s + Z.of_nat i) mod 2 ^ 32))) as Hblock.
  { intros i Hi. apply block_at_concat; [done|].
    by rewrite list_lookup_fmap, rpi_plaintexts_lookup. }
  assert (some_block_found (new_PrefixIdMap R)
            (concat (AES_128_encrypt rpik <$> rpi_plaintexts 144 s)) 0 144 ↔
          Exists (λ i : nat,
                    AES_128_encrypt rpik
                      (rpi_plaintext ((s + Z.of_nat i) mod 2 ^ 32)) ∈ R)
                 (seq 0 144)) as Hiff.
  { unfold some_block_found. rewrite !Exists_exists.
    split; intros (i & Hi & Hhit); exists i; (split; [done|]);
      apply elem_of_seq in Hi; rewrite Hblock in * by lia;
      apply found_iff_member; try done;
      apply Hblk, length_rpi_plaintext. }
  case_decide as Hd; case_bool_decide as Hb; tauto.
Qed.

Lemma Matching_key_hits h matched key :
  storage_ready (aesInputStorage h) →
  prefix_key_map h = new_PrefixIdMap R →
  (Matching_key h matched key).2 =
  if key_hits R (key_data key) (rolling_start_interval_number key mod 2 ^ 32)
  then matched ++ [key] else matched.
Proof.
  intros Hready Hmap. unfold Matching_key.
  rewrite <- (derive_and_probe
    (set_last_processed_key_count
       ((last_processed_key_count h + 1) mod 2 ^ 32) h)
    (key_data key) (rolling_start_interval_number key mod 2 ^ 32)
    key matched); [|done|done|by apply Z.mod_pos_bound].
  by destruct (GenerateIds _ _ _) as [h' [ids|]].
Qed.

Lemma process_keys_hits keys : ∀ h matched,
  storage_ready (aesInputStorage h) →
  prefix_key_map h = new_PrefixIdMap R →
  (process_keys h matched keys).2 =
  matched ++
  filter (λ key, key_hits R (key_data key)
                   (rolling_start_interval_number key mod 2 ^ 32) = true) keys.
Proof.
  induction keys as [|key keys IH]; intros h matched Hready Hmap; simpl.
  - by rewrite app_nil_r.
  - pose proof (Matching_key_hits h matched key Hready Hmap) as Hk.
    pose proof (Matching_key_frame h matched key) as Hf.
    destruct (Matching_key h matched key) as [h1 m1].
    destruct Hf as (Hm1 & _ & Hr1 & _). simpl in Hk.
    rewrite IH; [|by apply Hr1|congruence].
    rewrite filter_cons, Hk.
    destruct (key_hits R _ _).
    + rewrite decide_True by done. by rewrite <- app_assoc.
    + rewrite decide_False by done. done.
Qed.

Lemma MatchingLegacy_for_hits dk rs key_count n : ∀ h i match_indexes,
  storage_ready (aesInputStorage h) →
  prefix_key_map h = new_PrefixIdMap R →
  i + Z.of_nat n ≤ key_count →
  (MatchingLegacy_for n h dk rs i key_count match_indexes).2 =
  match_indexes ++
  filter (λ k : Z,
            key_hits R (default [] (dk !! Z.to_nat k))
                     (default 0 (rs !! Z.to_nat k) mod 2 ^ 32) = true)
         ((λ k : nat, i + Z.of_nat k) <$> seq 0 n).
Proof.
  induction n as [|n IH]; intros h i mi Hready Hmap Hn;
    cbn [MatchingLegacy_for].
  - by rewrite app_nil_r.
  - rewrite bool_decide_true by lia. cbv zeta.
    pose proof (derive_and_probe h
      (take (Z.to_nat kIdLength) (default [] (dk !! Z.to_nat i)))
      (default 0 (rs !! Z.to_nat i) mod 2 ^ 32) i mi Hready Hmap
      ltac:(by apply Z.mod_pos_bound)) as Hk.
    pose proof (GenerateIds_frame h
      (take (Z.to_nat kIdLength) (default [] (dk !! Z.to_nat i)))
      (default 0 (rs !! Z.to_nat i) mod 2 ^ 32)) as Hf.
    assert (key_hits R (take (Z.to_nat kIdLength) (default [] (dk !! Z.to_nat i)))
              (default 0 (rs !! Z.to_nat i) mod 2 ^ 32) =
            key_hits R (default [] (dk !! Z.to_nat i))
              (default 0 (rs !! Z.to_nat i) mod 2 ^ 32)) as Htake.
    { unfold key_hits. change (Z.to_nat kIdLength) with 16%nat.
      by rewrite take_take, Nat.min_id. }
    rewrite Htake in Hk.
    assert ((λ k : nat, i + Z.of_nat k) <$> seq 0 (S n) =
              i :: ((λ k : nat, i + 1 + Z.of_nat k) <$> seq 0 n)) as ->.
    { cbn [seq fmap list_fmap]. rewrite Z.add_0_r. f_equal.
      rewrite <- fmap_S_seq, <- list_fmap_compose.
      apply list_fmap_ext. intros _ k _. simpl. lia. }
    rewrite filter_cons.
    destruct (GenerateIds _ _ _) as [h1 r1].
    destruct Hf as (Hm1 & _ & Hr1).
    assert (Hmap1 : prefix_key_map h1 = new_PrefixIdMap R) by congruence.
    destruct (key_hits R (default [] (dk !! Z.to_nat i)) _) eqn:Hhit.
    + rewrite decide_True by done.
      destruct r1 as [ids|].
      * rewrite Hk, IH; [|by apply Hr1|done|lia]. by rewrite <- app_assoc.
      * apply (f_equal length) in Hk. rewrite length_app in Hk.
        simpl in Hk. lia.
    + rewrite decide_False by done.
      destruct r1 as [ids|]; [rewrite Hk|];
        by rewrite IH; [|by apply Hr1|done|lia].
Qed.

Lemma Matching_keys_hits disk fuel h key_files :
  storage_ready (aesInputStorage h) →
  prefix_key_map h = new_PrefixIdMap R →
  snd <$> Matching_keys disk fuel h key_files =
  matched_among R <$> files_keys disk fuel key_files.
Proof.
  intros Hready Hmap. unfold Matching_keys. rewrite Matching_for_keys.
  destruct (files_keys disk fuel key_files) as [keys|]; simpl; [|done].
  f_equal.
  by rewrite (process_keys_hits keys (set_last_processed_key_count 0 h) []).
Qed.

(** The end of [Matching] on the keys that the files hold. *)
Lemma Matching_on_keys disk fuel h key_files keys :
  storage_ready (aesInputStorage h) →
  prefix_key_map h = new_PrefixIdMap R →
  files_keys disk fuel key_files = Some keys →
  ∃ h',
    Matching_keys disk fuel h key_files = Some (h', matched_among R keys) ∧
    (matched_among R keys = [] →
     Matching disk fuel h key_files = Some (h', None)) ∧
    (matched_among R keys ≠ [] →
     ∃ result,
       Matching disk fuel h key_files = Some (h', Some result) ∧
       length result = length (matched_among R keys)).
Proof.
  intros Hready Hmap Hkeys.
  pose proof (Matching_keys_hits disk fuel h key_files Hready Hmap) as Hm.
  rewrite Hkeys in Hm. unfold Matching.
  destruct (Matching_keys disk fuel h key_files) as [[h' matched]|];
    simpl in Hm; [|done].
  injection Hm as ->. exists h'. split; [done|]. simpl. split.
  - intros ->. done.
  - intros Hne. rewrite bool_decide_false.
    + eexists. split; [done|]. by rewrite length_fmap.
    + by destruct (matched_among R keys).
Qed.

Lemma MatchingLegacy_for_indexes h dk rs key_count :
  storage_ready (aesInputStorage h) →
  prefix_key_map h = new_PrefixIdMap R →
  (MatchingLegacy_for (Z.to_nat key_count) h dk rs 0 key_count []).2 =
  matched_indexes R dk rs key_count.
Proof.
  intros Hready Hmap. unfold matched_indexes.
  destruct (decide (key_count < 0)) as [Hneg|Hnn].
  { replace (Z.to_nat key_count) with 0%nat by lia. done. }
  rewrite (MatchingLegacy_for_hits dk rs key_count (Z.to_nat key_count) h 0 [])
    by (done || lia).
  cbn [app].
  by erewrite (list_fmap_ext (λ k : nat, 0 + Z.of_nat k) Z.of_nat);
    [|intros; simpl; lia].
Qed.
End what_is_matched.

Lemma matched_among_app `{OpenSSL} (R : list bytes)
    (keys keys' : list TemporaryExposureKeyNano) :
  matched_among R (keys ++ keys') =
  matched_among R keys ++ matched_among R keys'.
Proof. apply filter_app. Qed.

(** C7 (header rejection is not fatal).  A source whose first 16 bytes
    differ from "EK Export v1    ", or that has fewer than 16 bytes, fails
    header verification and yields no iterator.  On its own it gives no key,
    no match and a counter of 0.  Within a list it is passed over and the
    call goes on: the keys consumed are the keys of the sources before it
    followed by the keys of the sources after it, every one of them goes
    through the loop body, and the counter ends at their number.  On a helper
    built over the 16-byte records [R], with OpenSSL and [std::sort] meeting
    their contracts, the matched keys are those keys of the sources before
    and after it that have an identifier among [R]; when there is one, and
    the matched keys encode, [Matching] returns an array with one entry for
    each.  The call on the list is also the call on the list without the
    source. *)
Theorem header_mismatch_skips_source `{StdSort} `{NanoPb} `{OpenSSL}
    (disk : gmap string bytes) (fuel : nat) (name : string) (contents : bytes) :
  disk !! name = Some contents →
  take 16 contents ≠ take 16 kFileHeader →
  (VerifyHeader (CreatePbInputStream (fopen_rb contents))).2 = false ∧
  CreateKeyFileIterator disk fuel name = Some None ∧
  (∀ (h : MatchingHelper) (before after : list string),
    files_keys disk fuel (before ++ name :: after) =
      files_keys disk fuel (before ++ after) ∧
    Matching_keys disk fuel h (before ++ name :: after) =
      Matching_keys disk fuel h (before ++ after) ∧
    Matching disk fuel h (before ++ name :: after) =
      Matching disk fuel h (before ++ after)) ∧
  (∀ h : MatchingHelper,
    files_keys disk fuel [name] = Some [] ∧
    Matching disk fuel h [name] =
      Some (set_last_processed_key_count 0 h, None)) ∧
  (∀ (h : MatchingHelper) (before after : list string)
     (keys_before keys_after : list TemporaryExposureKeyNano),
    files_keys disk fuel before = Some keys_before →
    files_keys disk fuel after = Some keys_after →
    files_keys disk fuel (before ++ name :: after) =
      Some (keys_before ++ keys_after) ∧
    Matching_keys disk fuel h (before ++ name :: after) =
      Some (process_keys (set_last_processed_key_count 0 h) []
                         (keys_before ++ keys_after)) ∧
    ∃ h' result,
      Matching disk fuel h (before ++ name :: after) = Some (h', result) ∧
      last_processed_key_count h' =
        (Z.of_nat (length keys_before) + Z.of_nat (length keys_after))
          mod 2 ^ 32) ∧
  (StdSortContract → OpenSSLContract → InitSucceeds →
   ∀ (R : list bytes) (h : MatchingHelper) (before after : list string)
     (keys_before keys_after : list TemporaryExposureKeyNano),
    Forall (λ r, length r = 16%nat) R →
    storage_ready (aesInputStorage h) →
    prefix_key_map h = new_PrefixIdMap R →
    files_keys disk fuel before = Some keys_before →
    files_keys disk fuel after = Some keys_after →
    ∃ h',
      Matching_keys disk fuel h (before ++ name :: after) =
        Some (h', matched_among R keys_before ++ matched_among R keys_after) ∧
      (matched_among R keys_before ++ matched_among R keys_after ≠ [] →
       all_encode (matched_among R keys_before ++ matched_among R keys_after) →
       ∃ result,
         Matching disk fuel h (before ++ name :: after) =
           Some (h', Some result) ∧
         length result =
           (length (matched_among R keys_before) +
            length (matched_among R keys_after))%nat)).
Proof.
  intros Hname Hne.
  pose proof (CreateKeyFileIterator_mismatch disk fuel name contents Hname Hne)
    as Hnull.
  assert (∀ before after keys_before keys_after,
            files_keys disk fuel before = Some keys_before →
            files_keys disk fuel after = Some keys_after →
            files_keys disk fuel (before ++ name :: after) =
              Some (keys_before ++ keys_after)) as Hall.
  { intros before after kb ka Hb Ha.
    rewrite (files_keys_skip disk fuel name before after Hnull).
    by rewrite files_keys_app, Hb, Ha. }
  split; [by rewrite VerifyHeader_spec, bool_decide_false|].
  split; [done|]. split; [|split; [|split]].
  - intros h before after.
    pose proof (files_keys_skip disk fuel name before after Hnull) as Hskip.
    split; [done|]. split.
    + unfold Matching_keys. by rewrite !Matching_for_keys, Hskip.
    + by rewrite !Matching_spec, Hskip.
  - intros h.
    assert (files_keys disk fuel [name] = Some []) as Hk
      by (simpl; by rewrite Hnull).
    split; [done|]. by rewrite Matching_spec, Hk.
  - intros h before after kb ka Hb Ha.
    pose proof (Hall before after kb ka Hb Ha) as Hk.
    split; [done|]. split.
    + unfold Matching_keys. by rewrite Matching_for_keys, Hk.
    + rewrite Matching_spec, Hk. simpl.
      pose proof (process_keys_frame (kb ++ ka)
                    (set_last_processed_key_count 0 h) []) as Hf.
      destruct (process_keys _ _ _) as [h1 m1].
      destruct Hf as (_ & Hc & _); [simpl; lia|].
      eexists _, _. split; [done|]. simpl in Hc.
      by rewrite Hc, length_app, Nat2Z.inj_add.
  - intros Hsort Hssl Hinit R h before after kb ka HR Hready Hmap Hb Ha.
    pose proof (Hall before after kb ka Hb Ha) as Hk.
    destruct (Matching_on_keys Hsort Hssl Hinit R HR disk fuel h
                (before ++ name :: after) (kb ++ ka) Hready Hmap Hk)
      as (h' & Hm & _ & Hsome).
    rewrite matched_among_app in Hm, Hsome.
    exists h'. split; [done|]. intros Hne' _.
    destruct (Hsome Hne') as (result & Hr & Hlen).
    exists result. split; [done|]. by rewrite Hlen, length_app.
Qed.

(** C8 (counter semantics).  [Matching] sets the counter to 0 and leaves it
    at the number of keys that the iterators returned during that call
    (modulo 2^32, the counter being a [uint32_t]), whatever it was before;
    the call returns exactly when the iteration over the sources ends;
    [MatchingLegacy] never changes the counter.  So after any sequence of the
    two operations on a new helper the counter is 0 when the sequence has no
    [Matching] and otherwise the number of keys consumed by the last
    [Matching]. *)
Theorem counter_reflects_last_Matching `{StdSort} `{NanoPb} `{OpenSSL}
    (disk : gmap string bytes) (fuel : nat) :
  (∀ h key_files,
     is_Some (Matching disk fuel h key_files) ↔
     is_Some (files_keys disk fuel key_files)) ∧
  (∀ h key_files h' result,
     Matching disk fuel h key_files = Some (h', result) →
     ∃ keys, files_keys disk fuel key_files = Some keys ∧
       last_processed_key_count h' = Z.of_nat (length keys) mod 2 ^ 32 ∧
       (Z.of_nat (length keys) < 2 ^ 32 →
        last_processed_key_count h' = Z.of_nat (length keys))) ∧
  (∀ h dk rs n,
     last_processed_key_count (MatchingLegacy h dk rs n).1 =
     last_processed_key_count h) ∧
  (∀ R ops h',
     run_operations disk fuel (new_MatchingHelper R) ops = Some h' →
     match last_matching ops with
     | None => last_processed_key_count h' = 0
     | Some key_files =>
         ∃ keys, files_keys disk fuel key_files = Some keys ∧
           last_processed_key_count h' = Z.of_nat (length keys) mod 2 ^ 32
     end).
Proof.
  split; [|split; [|split]].
  - intros h key_files. rewrite Matching_spec.
    destruct (files_keys disk fuel key_files) as [keys|]; simpl.
    + destruct (process_keys _ _ _) as [h' m]. split; eauto.
    + split; intros [? ?]; done.
  - intros h key_files h' result Hm.
    destruct (Matching_counter _ _ _ _ _ _ Hm) as (keys & Hk & Hc & _).
    exists keys. split; [done|]. split; [done|].
    intros Hlt. rewrite Hc. apply Z.mod_small. lia.
  - intros h dk rs n. apply MatchingLegacy_frame.
  - intros R ops h' Hrun.
    apply (run_operations_counter disk fuel ops _ _ Hrun).
Qed.

(** C9 (legacy path, mismatched lengths).  When [key_count] exceeds the
    length of the key array or of the start-number array, [MatchingLegacy]
    returns [nullptr] at once: the helper, its plaintext buffer and cipher
    context included, is untouched, so no key was derived or probed. *)
Theorem MatchingLegacy_count_mismatch `{OpenSSL} (h : MatchingHelper)
    (diagnosis_keys : list bytes) (rolling_start_numbers : list Z)
    (key_count : Z) :
  key_count > Z.of_nat (length diagnosis_keys) ∨
  key_count > Z.of_nat (length rolling_start_numbers) →
  MatchingLegacy h diagnosis_keys rolling_start_numbers key_count = (h, None).
Proof.
  intros Hn. unfold MatchingLegacy.
  case_bool_decide; [done|]. case_bool_decide; [done|]. lia.
Qed.

(** C6 (first hit, one entry).  The probe loop appends its item exactly
    once when one of the 144 identifiers is in the index, however many of
    them are and however often the index holds them, and not at all
    otherwise; its result is settled by the blocks up to the first hit, so
    nothing behind the first hit is looked at.  The loop body of [Matching]
    appends the key, once, exactly when one of the identifiers that
    [GenerateIds] derived for it is in the index, and the loop body of
    [MatchingLegacy] does the same with the index of the key (for a key array
    of the 16 bytes that the loop copies).  On a helper built over the
    16-byte records [R], duplicates among them included, with OpenSSL and
    [std::sort] meeting their contracts, the matched keys of a call are
    therefore the keys consumed that have an identifier among [R], and the
    indexes of [MatchingLegacy] the indexes of such keys: one entry for each
    occurrence of such a key in the input, in the order of the input, and
    none for any other key. *)
Theorem first_hit_appends_once `{StdSort} `{NanoPb} `{OpenSSL} :
  (∀ A (m : PrefixIdMap) (ids : bytes) (item : A) (matched : list A),
     probe_ids (Z.to_nat kIdPerKey) m ids 0 item matched =
     if decide (some_block_found m ids 0 144)
     then matched ++ [item] else matched) ∧
  (∀ A (m : PrefixIdMap) (ids ids' : bytes) (i : nat) (item : A)
     (matched : list A),
     (i < 144)%nat →
     GetIdIndex m (block_at ids i) >= 0 →
     take (16 * S i) ids' = take (16 * S i) ids →
     probe_ids (Z.to_nat kIdPerKey) m ids' 0 item matched = matched ++ [item]) ∧
  (∀ h matched key,
     Matching_key h matched key =
     match GenerateIds
             (set_last_processed_key_count
                ((last_processed_key_count h + 1) mod 2 ^ 32) h)
             (key_data key) (rolling_start_interval_number key mod 2 ^ 32)
     with
     | (h', Some ids) =>
         (h', if decide (some_block_found (prefix_key_map h') ids 0 144)
              then matched ++ [key] else matched)
     | (h', None) => (h', matched)
     end) ∧
  (∀ n h dk rs i key_count indexes (key : bytes),
     i < key_count →
     dk !! Z.to_nat i = Some key →
     (16 ≤ length key)%nat →
     MatchingLegacy_for (S n) h dk rs i key_count indexes =
     match GenerateIds h (take 16 key)
                       (default 0 (rs !! Z.to_nat i) mod 2 ^ 32) with
     | (h', Some ids) =>
         MatchingLegacy_for n h' dk rs (i + 1) key_count
           (if decide (some_block_found (prefix_key_map h') ids 0 144)
            then indexes ++ [i] else indexes)
     | (h', None) =>
         MatchingLegacy_for n h' dk rs (i + 1) key_count indexes
     end) ∧
  (∀ h matched key,
     (Matching_key h matched key).2 = matched ∨
     (Matching_key h matched key).2 = matched ++ [key]) ∧
  (∀ disk fuel h key_files h' matched,
     Matching_keys disk fuel h key_files = Some (h', matched) →
     ∃ keys, files_keys disk fuel key_files = Some keys ∧
             matched `sublist_of` keys) ∧
  (∀ h dk rs n h' indexes,
     MatchingLegacy h dk rs n = (h', Some indexes) →
     indexes `sublist_of` (Z.of_nat <$> seq 0 (Z.to_nat n))) ∧
  (StdSortContract → OpenSSLContract → InitSucceeds →
   ∀ (R : list bytes) (h : MatchingHelper),
     Forall (λ r, length r = 16%nat) R →
     storage_ready (aesInputStorage h) →
     prefix_key_map h = new_PrefixIdMap R →
     (∀ matched key,
        (Matching_key h matched key).2 =
        if key_hits R (key_data key)
                    (rolling_start_interval_number key mod 2 ^ 32)
        then matched ++ [key] else matched) ∧
     (∀ disk fuel key_files,
        snd <$> Matching_keys disk fuel h key_files =
        matched_among R <$> files_keys disk fuel key_files) ∧
     (∀ dk rs key_count,
        key_count ≤ Z.of_nat (length dk) →
        key_count ≤ Z.of_nat (length rs) →
        keys_have_16_bytes dk key_count →
        (MatchingLegacy_for (Z.to_nat key_count) h dk rs 0 key_count []).2 =
          matched_indexes R dk rs key_count ∧
        (MatchingLegacy h dk rs key_count).2 =
          if bool_decide (matched_indexes R dk rs key_count = [])
          then None else Some (matched_indexes R dk rs key_count))).
Proof.
  split; [|split; [|split; [|split; [|split; [|split; [|split]]]]]].
  - intros A m ids item matched. apply probe_ids_all.
  - intros A m ids ids' i item matched Hi Hhit Htake.
    rewrite probe_ids_all, decide_True; [done|].
    unfold some_block_found. apply Exists_exists. exists i. split.
    + apply elem_of_seq. lia.
    + replace (block_at ids' i) with (block_at ids i); [done|].
      unfold block_at.
      rewrite (take_drop_commute ids' 16 (16 * i)).
      rewrite (take_drop_commute ids 16 (16 * i)).
      replace (16 * i + 16)%nat with (16 * S i)%nat by lia.
      by rewrite Htake.
  - intros h matched key. unfold Matching_key.
    destruct (GenerateIds _ _ _) as [h' [ids|]]; [|done].
    by rewrite probe_ids_all.
  - intros n h dk rs i key_count indexes key Hi Hkey Hlen.
    cbn [MatchingLegacy_for]. rewrite bool_decide_true by done. cbv zeta.
    rewrite Hkey. cbn [default from_option].
    change (Z.to_nat kIdLength) with 16%nat.
    destruct (GenerateIds _ _ _) as [h' [ids|]]; [|done].
    by rewrite probe_ids_all.
  - intros h matched key.
    pose proof (Matching_key_frame h matched key) as Hf.
    destruct (Matching_key h matched key) as [h' m']. simpl. apply Hf.
  - intros disk fuel h key_files h' matched. unfold Matching_keys.
    rewrite Matching_for_keys.
    destruct (files_keys disk fuel key_files) as [keys|]; simpl; [|done].
    pose proof (process_keys_frame keys (set_last_processed_key_count 0 h) [])
      as Hf.
    destruct (process_keys _ _ _) as [h1 m1]. intros [= <- <-].
    destruct Hf as (_ & _ & _ & extra & -> & Hsub); [simpl; lia|].
    exists keys. done.
  - intros h dk rs n h' indexes. unfold MatchingLegacy.
    repeat case_bool_decide; try done.
    pose proof (MatchingLegacy_for_frame dk rs n (Z.to_nat n) h 0 []) as Hf.
    destruct (MatchingLegacy_for _ _ _ _ _ _ _) as [h1 mi].
    destruct Hf as (_ & _ & _ & extra & -> & Hsub).
    case_bool_decide; [done|]. intros [= _ <-]. simpl.
    erewrite <- (list_fmap_ext (λ k : nat, 0 + Z.of_nat k) Z.of_nat);
      [done|intros; simpl; lia].
  - intros Hsort Hssl Hinit R h HR Hready Hmap. split; [|split].
    + intros matched key.
      by apply (Matching_key_hits Hsort Hssl Hinit R HR).
    + intros disk fuel key_files.
      by apply (Matching_keys_hits Hsort Hssl Hinit R HR).
    + intros dk rs key_count Hdk Hrs _.
      pose proof (MatchingLegacy_for_indexes Hsort Hssl Hinit R HR h dk rs
                    key_count Hready Hmap) as Hl.
      split; [done|]. unfold MatchingLegacy.
      rewrite !bool_decide_false by lia.
      destruct (MatchingLegacy_for _ _ _ _ _ _ _) as [h' indexes].
      simpl in Hl. subst indexes. simpl.
      by destruct (matched_indexes R dk rs key_count).
Qed.

Section construction.
Context `{StdSort} `{OpenSSL}.

Lemma initNative_new heap records handle heap' :
  initNative heap (Some records) = (handle, heap') →
  handle ≠ 0 →
  records ≠ [] ∧
  ∃ p, handle = Z.pos p ∧ heap !! p = None ∧
       heap' = <[p := new_MatchingHelper records]> heap.
Proof.
  unfold initNative. case_bool_decide as Hlen.
  - intros [= <- <-]. done.
  - intros [= <- <-] _. split.
    + intros ->. simpl in Hlen. lia.
    + exists (fresh (dom heap)). split; [done|]. split; [|done].
      apply not_elem_of_dom, is_fresh.
Qed.

Lemma heap_after_nonempty calls p h :
  heap_after calls !! p = Some h →
  ∃ records, records ≠ [] ∧ h = new_MatchingHelper records.
Proof.
  revert p h. induction calls as [|scan calls IH]; intros p h; simpl.
  - by rewrite lookup_empty.
  - destruct scan as [records|]; [|apply IH].
    destruct (initNative (heap_after calls) (Some records))
      as [handle heap'] eqn:Hinit. simpl.
    destruct (decide (handle = 0)) as [->|Hnz].
    + unfold initNative in Hinit. case_bool_decide.
      * injection Hinit as <-. apply IH.
      * by injection Hinit.
    + destruct (initNative_new _ _ _ _ Hinit Hnz)
        as (Hne & q & -> & Hq & ->).
      destruct (decide (p = q)) as [->|Hpq].
      * rewrite lookup_insert_eq. intros [= <-]. eauto.
      * rewrite lookup_insert_ne by done. apply IH.
Qed.
End construction.

(** C10 (construction boundary).  [initNative] returns the handle 0 and
    makes no helper for a null collection of scan records and for an empty
    one; a handle other than 0 is the address of a new helper built from a
    collection that is not empty.  So in every native heap that calls of
    [initNative] produce, the index of every helper holds at least one scan
    record. *)
Theorem initNative_rejects_null_and_empty `{StdSort} `{OpenSSL} :
  StdSortContract →
  (∀ heap, initNative heap None = (0, heap)) ∧
  (∀ heap, initNative heap (Some []) = (0, heap)) ∧
  (∀ heap records handle heap',
     initNative heap (Some records) = (handle, heap') →
     handle ≠ 0 →
     records ≠ [] ∧
     ∃ p, handle = Z.pos p ∧ heap !! p = None ∧
          heap' = <[p := new_MatchingHelper records]> heap) ∧
  (∀ calls p h,
     heap_after calls !! p = Some h →
     1 ≤ scan_record_size (prefix_key_map h) ∧
     (1 ≤ length (scan_records (prefix_key_map h)))%nat).
Proof.
  intros Hsort. split; [done|]. split; [done|]. split.
  - intros heap records handle heap'. apply initNative_new.
  - intros calls p h Hp.
    destruct (heap_after_nonempty calls p h Hp) as (records & Hne & ->).
    cbn [new_MatchingHelper prefix_key_map].
    rewrite scan_record_size_new, scan_records_new.
    destruct (sorted_records Hsort records) as [Hperm _].
    rewrite (Permutation_length Hperm).
    destruct records; [done|]. simpl. lia.
Qed.

(** ** The reference instances meet the contracts *)

Lemma ref_sort_contract : @StdSortContract ref_sort.
Proof.
  intros A comp l [Hirr Htr Hinc]. split.
  - apply merge_sort_Permutation.
  - apply StronglySorted_merge_sort.
    + intros a b c Hab Hbc. unfold not_less in *. by eapply Hinc.
    + intros a b. unfold not_less.
      destruct (comp b a) eqn:Hba; [|by left].
      destruct (comp a b) eqn:Hab; [|by right].
      pose proof (Htr _ _ _ Hab Hba). rewrite Hirr in *. done.
Qed.

Lemma length_pad_to n fillb (a : bytes) :
  length (toy_openssl.pad_to n fillb a) = n.
Proof.
  unfold toy_openssl.pad_to.
  rewrite length_take, length_app, length_replicate. lia.
Qed.

Lemma toy_openssl_contract : @OpenSSLContract toy_openssl.instance.
Proof.
  split.
  - intros key block Hb. simpl. unfold toy_openssl.toy_block,
      toy_openssl.xor_bytes.
    rewrite length_zip_with, length_pad_to, Hb. done.
  - intros ctx key ctx' n input [= <-] Hlen.
    exists key. cbn [EVP_EncryptUpdate toy_openssl.instance AES_128_encrypt].
    rewrite Hlen.
    replace ((16 * n) / 16)%nat with n; [done|].
    symmetry. rewrite Nat.mul_comm. apply Nat.div_mul. lia.
Qed.

Lemma toy_openssl_init_succeeds : @InitSucceeds toy_openssl.instance.
Proof. intros ctx key. reflexivity. Qed.

(** ** Iteration, step by step *)

Section iteration_steps.
Context `{StdSort} `{NanoPb} `{OpenSSL}.

(** A failed decode leaves the tag in place and does not look for the
    next [keys] tag. *)
Lemma ReadNextKey_decode_failure fuel it stream :
  IsTagForKeys (next_tag_ it) = true →
  pb_decode_delimited (pb_istream_ it) = (stream, None) →
  ReadNextKey fuel it =
  Some ({| pb_istream_ := stream; next_tag_ := next_tag_ it |}, None).
Proof.
  intros Htag Hdec. unfold ReadNextKey. by rewrite Htag, Hdec.
Qed.

Lemma iterate_keys_done fuel it :
  HasNext it = false → iterate_keys fuel it = Some [].
Proof. intros Hn. destruct fuel; simpl; by rewrite Hn. Qed.

Lemma iterate_keys_step_key fuel it it' key :
  HasNext it = true → Next fuel it = Some (it', Some key) →
  iterate_keys (S fuel) it = (key ::.) <$> iterate_keys fuel it'.
Proof. intros Hn Hk. simpl. by rewrite Hn, Hk. Qed.

Lemma iterate_keys_step_failed fuel it it' :
  HasNext it = true → Next fuel it = Some (it', None) →
  iterate_keys (S fuel) it = iterate_keys fuel it'.
Proof. intros Hn Hk. simpl. by rewrite Hn, Hk. Qed.

Lemma iterate_keys_step_diverges fuel it :
  HasNext it = true → Next fuel it = None →
  iterate_keys (S fuel) it = None.
Proof. intros Hn Hk. simpl. by rewrite Hn, Hk. Qed.

Lemma iterate_keys_no_fuel it :
  HasNext it = true → iterate_keys 0 it = None.
Proof. intros Hn. simpl. by rewrite Hn. Qed.

(** An iterator on which [Next] fails without moving never finishes. *)
Lemma iterate_keys_stalled it :
  HasNext it = true →
  (∀ fuel, Next fuel it = Some (it, None)) →
  ∀ fuel, iterate_keys fuel it = None.
Proof.
  intros Hn Hstall fuel. induction fuel as [|fuel IH].
  - by apply iterate_keys_no_fuel.
  - by rewrite (iterate_keys_step_failed fuel it it).
Qed.

Lemma files_keys_cons_iterator disk fuel key_file rest it :
  CreateKeyFileIterator disk fuel key_file = Some (Some it) →
  files_keys disk fuel (key_file :: rest) =
  keys ← iterate_keys fuel it;
  keys' ← files_keys disk fuel rest;
  Some (keys ++ keys').
Proof. intros Hc. simpl. by rewrite Hc. Qed.

Lemma files_keys_cons_null disk fuel key_file rest :
  CreateKeyFileIterator disk fuel key_file = Some None →
  files_keys disk fuel (key_file :: rest) = files_keys disk fuel rest.
Proof. intros Hc. simpl. by rewrite Hc. Qed.

Lemma files_keys_cons_diverges disk fuel key_file rest :
  CreateKeyFileIterator disk fuel key_file = None →
  files_keys disk fuel (key_file :: rest) = None.
Proof. intros Hc. simpl. by rewrite Hc. Qed.

Lemma Matching_while_step_failed fuel it it' h matched :
  HasNext it = true → Next fuel it = Some (it', None) →
  Matching_while (S fuel) it h matched = Matching_while fuel it' h matched.
Proof. intros Hn Hk. simpl. by rewrite Hn, Hk. Qed.

Lemma Matching_while_step_key fuel it it' key h matched :
  HasNext it = true → Next fuel it = Some (it', Some key) →
  Matching_while (S fuel) it h matched =
  Matching_while fuel it' (Matching_key h matched key).1
                 (Matching_key h matched key).2.
Proof.
  intros Hn Hk. simpl. rewrite Hn, Hk. simpl.
  by destruct (Matching_key h matched key).
Qed.
End iteration_steps.

(** C4, as amended (the counter counts parsed keys).  In the [while] loop
    of [Matching], a [Next] that returns [nullptr] changes neither the
    counter nor the matched keys; a [Next] that returns a key adds one to the
    counter, after the parse and before the derivation.  So a call that
    returns leaves the counter at the number of keys that were parsed
    (modulo 2^32), not at the number of [keys] entries attempted. *)
Theorem counter_counts_parsed_keys `{StdSort} `{NanoPb} `{OpenSSL} :
  (∀ fuel it it' h matched,
     HasNext it = true → Next fuel it = Some (it', None) →
     Matching_while (S fuel) it h matched =
     Matching_while fuel it' h matched) ∧
  (∀ fuel it it' key h matched,
     HasNext it = true → Next fuel it = Some (it', Some key) →
     Matching_while (S fuel) it h matched =
       Matching_while fuel it' (Matching_key h matched key).1
                      (Matching_key h matched key).2 ∧
     last_processed_key_count (Matching_key h matched key).1 =
       (last_processed_key_count h + 1) mod 2 ^ 32) ∧
  (∀ disk fuel h key_files h' result,
     Matching disk fuel h key_files = Some (h', result) →
     ∃ keys, files_keys disk fuel key_files = Some keys ∧
       last_processed_key_count h' = Z.of_nat (length keys) mod 2 ^ 32).
Proof.
  split; [|split].
  - intros fuel it it' h matched. apply Matching_while_step_failed.
  - intros fuel it it' key h matched Hn Hk.
    split; [by apply Matching_while_step_key|].
    pose proof (Matching_key_frame h matched key) as Hf.
    destruct (Matching_key h matched key) as [h1 m1]. simpl. apply Hf.
  - intros disk fuel h key_files h' result Hm.
    destruct (Matching_counter _ _ _ _ _ _ Hm) as (keys & Hk & Hc & _).
    eauto.
Qed.

(** ** Scenario E6 on the reference instances *)

Section scenario_e6.
Local Existing Instance ref_sort.
Local Existing Instance ref_nanopb.instance.
Local Existing Instance toy_openssl.instance.
Import scenarios.

Lemma e6_open fuel :
  CreateKeyFileIterator disk (S fuel) "e6" = Some (Some e6_it0).
Proof. vm_compute. reflexivity. Qed.

Lemma e6_open_no_fuel : CreateKeyFileIterator disk 0 "e6" = None.
Proof. vm_compute. reflexivity. Qed.

Lemma e6_first fuel :
  Next (S fuel) e6_it0 = Some (e6_it1, Some (key_of tek0)).
Proof. vm_compute. reflexivity. Qed.

Lemma e6_first_no_fuel : Next 0 e6_it0 = None.
Proof. vm_compute. reflexivity. Qed.

Lemma e6_second fuel : Next fuel e6_it1 = Some (e6_it2, None).
Proof. vm_compute. reflexivity. Qed.

Lemma e6_third fuel : Next fuel e6_it2 = Some (e6_it3, None).
Proof. vm_compute. reflexivity. Qed.

Lemma e6_stall fuel : Next fuel e6_it3 = Some (e6_it3, None).
Proof. vm_compute. reflexivity. Qed.

Lemma e6_iterate_from_second fuel : iterate_keys fuel e6_it1 = None.
Proof.
  destruct fuel as [|[|fuel]].
  - by apply iterate_keys_no_fuel.
  - rewrite (iterate_keys_step_failed 0 e6_it1 e6_it2); [|done|apply e6_second].
    by apply iterate_keys_no_fuel.
  - rewrite (iterate_keys_step_failed (S fuel) e6_it1 e6_it2);
      [|done|apply e6_second].
    rewrite (iterate_keys_step_failed fuel e6_it2 e6_it3);
      [|done|apply e6_third].
    apply iterate_keys_stalled; [done|apply e6_stall].
Qed.

Lemma e6_files_keys fuel : files_keys disk fuel ["e6"] = None.
Proof.
  destruct fuel as [|[|fuel]].
  - apply files_keys_cons_diverges, e6_open_no_fuel.
  - rewrite (files_keys_cons_iterator _ _ _ _ _ (e6_open 0)).
    rewrite (iterate_keys_step_diverges 0 e6_it0); [done..|].
    apply e6_first_no_fuel.
  - rewrite (files_keys_cons_iterator _ _ _ _ _ (e6_open (S fuel))).
    rewrite (iterate_keys_step_key (S fuel) e6_it0 e6_it1 (key_of tek0));
      [|done|apply e6_first].
    by rewrite e6_iterate_from_second.
Qed.
End scenario_e6.

Section scenario_e6_claims.
Local Existing Instance ref_sort.
Local Existing Instance ref_nanopb.instance.
Local Existing Instance toy_openssl.instance.
Import scenarios.

(** C3 (decode failure), evaluated on the code.  [ReadNextKey] returns
    [nullptr] on a failed decode before it looks for the next [keys] tag:
    the tag stays, [HasNext] stays true, and the next call decodes from
    wherever the failed decode left the stream.  On the file of scenario
    E6 the first key is returned; the truncated entry fails and leaves the
    stream at the tag byte of the third entry, which the next call reads
    as a length of 58 bytes that the file does not have; from then on
    every call fails at the end of the file with [HasNext] true.  The
    third key is never returned and the loop of [Matching] never ends,
    whatever the fuel. *)
Theorem truncated_record_stalls_iterator :
  (∀ (N : NanoPb) fuel it stream,
     IsTagForKeys (next_tag_ it) = true →
     pb_decode_delimited (pb_istream_ it) = (stream, None) →
     ReadNextKey fuel it =
       Some ({| pb_istream_ := stream; next_tag_ := next_tag_ it |}, None) ∧
     HasNext {| pb_istream_ := stream; next_tag_ := next_tag_ it |} =
       HasNext it) ∧
  (∀ fuel, CreateKeyFileIterator disk (S fuel) "e6" = Some (Some e6_it0)) ∧
  (∀ fuel, Next (S fuel) e6_it0 = Some (e6_it1, Some (key_of tek0))) ∧
  (∀ fuel, Next fuel e6_it1 = Some (e6_it2, None)) ∧
  HasNext e6_it2 = true ∧
  f_unread (state (pb_istream_ e6_it2)) = keys_record tek3 x00 ∧
  (∀ fuel, Next fuel e6_it2 = Some (e6_it3, None)) ∧
  HasNext e6_it3 = true ∧
  (∀ fuel, Next fuel e6_it3 = Some (e6_it3, None)) ∧
  (∀ fuel, files_keys disk fuel ["e6"] = None) ∧
  (∀ fuel h, Matching disk fuel h ["e6"] = None).
Proof.
  split.
  { intros N fuel it stream Htag Hdec.
    split; [by apply ReadNextKey_decode_failure|done]. }
  split; [exact e6_open|]. split; [exact e6_first|].
  split; [exact e6_second|]. split; [done|]. split; [done|].
  split; [exact e6_third|]. split; [done|]. split; [exact e6_stall|].
  split; [exact e6_files_keys|].
  intros fuel h. by rewrite Matching_spec, e6_files_keys.
Qed.

(** C4, as stated, fails on scenario E6: no run of [Matching] on the file
    ends with the counter at 3 (no run ends at all); when the loop reaches
    the third entry, after the first key and the failed second decode, the
    counter stands at 1. *)
Lemma e6_counter_does_not_reach_3 :
  (¬ ∃ fuel h' result,
       Matching disk fuel helper72 ["e6"] = Some (h', result) ∧
       last_processed_key_count h' = 3) ∧
  (∀ fuel,
     let h0 := set_last_processed_key_count 0 helper72 in
     let after_first := Matching_key h0 [] (key_of tek0) in
     Matching_while (S (S fuel)) e6_it0 h0 [] =
       Matching_while fuel e6_it2 after_first.1 after_first.2 ∧
     last_processed_key_count after_first.1 = 1).
Proof.
  split.
  - intros (fuel & h' & result & Hm & _).
    rewrite Matching_spec, e6_files_keys in Hm. done.
  - intros fuel h0 after_first. split.
    + rewrite (Matching_while_step_key (S fuel) e6_it0 e6_it1 (key_of tek0));
        [|done|apply e6_first].
      by rewrite (Matching_while_step_failed fuel e6_it1 e6_it2);
        [|done|apply e6_second].
    + pose proof (Matching_key_frame h0 [] (key_of tek0)) as Hf.
      subst after_first.
      destruct (Matching_key h0 [] (key_of tek0)) as [h1 m1].
      cbn [fst]. destruct Hf as (_ & -> & _). done.
Qed.
End scenario_e6_claims.

(** ** Witnesses *)

Section witnesses.
Local Existing Instance ref_sort.
Local Existing Instance ref_nanopb.instance.
Local Existing Instance toy_openssl.instance.
Import scenarios.

Lemma rpi72_records : Forall (λ r : bytes, length r = 16%nat) [rpi72].
Proof. constructor; [vm_compute; reflexivity|constructor]. Qed.

Lemma rpi72_twice_records :
  Forall (λ r : bytes, length r = 16%nat) [rpi72; rpi72].
Proof. repeat constructor; vm_compute; reflexivity. Qed.

(** The file "good" holds the key [tek0] with rolling start 0, one of whose
    identifiers is [rpi72]. *)
Lemma good_file_keys : files_keys disk 10 ["good"] = Some [key_of tek0].
Proof. vm_compute. reflexivity. Qed.

Lemma tek0_matched_once :
  matched_among [rpi72; rpi72] [key_of tek0] = [key_of tek0].
Proof. vm_compute. reflexivity. Qed.

Lemma tek0_matched : matched_among [rpi72] [key_of tek0] = [key_of tek0].
Proof. vm_compute. reflexivity. Qed.

Lemma tek0_encodes : all_encode [key_of tek0].
Proof. constructor; [|constructor]. eexists. vm_compute. reflexivity. Qed.

Lemma GenerateIds_rpi_blocks_witness :
  ∃ h' ids,
    GenerateIds helper72 tek0 0 = (h', Some ids) ∧
    length ids = (144 * 16)%nat ∧
    (∀ i, (i < 144)%nat →
       block_at ids i =
         AES_128_encrypt rpik0 (rpi_plaintext ((0 + Z.of_nat i) mod 2 ^ 32)) ∧
       length (block_at ids i) = 16%nat) ∧
    storage_ready (aesInputStorage h').
Proof.
  refine (proj1 (GenerateIds_rpi_blocks helper72 tek0 0 rpik0 rpik0
                   toy_openssl_contract _ _ _ _ _)).
  - apply new_MatchingHelper_ready.
  - reflexivity.
  - lia.
  - vm_compute. reflexivity.
  - reflexivity.
Defined.

Lemma GetIdIndex_complete_and_sound_witness :
  let m := new_PrefixIdMap [tek0; tek3] in
  (GetIdIndex m tek3 >= 0 ↔ tek3 ∈ [tek0; tek3]) ∧
  (tek3 ∈ [tek0; tek3] →
     0 ≤ GetIdIndex m tek3 < scan_record_size m ∧
     scan_records m !! Z.to_nat (GetIdIndex m tek3) = Some tek3) ∧
  (tek3 ∉ [tek0; tek3] → GetIdIndex m tek3 = -1).
Proof.
  apply (GetIdIndex_complete_and_sound [tek0; tek3] tek3 ref_sort_contract).
  - repeat constructor.
  - reflexivity.
Defined.

Lemma prefix_table_consistency_witness :
  (if decide (65535 = -1) then 0
   else int_at (prefix_end_index (new_PrefixIdMap [tek3; tek0])) 65535) =
  Z.of_nat (length [tek3; tek0]).
Proof.
  assert (Forall (λ r : bytes, (2 ≤ length r)%nat) [tek3; tek0]) as Hlen
    by (repeat constructor; simpl; lia).
  pose proof (prefix_table_consistency [tek3; tek0] ref_sort_contract Hlen)
    as Hc.
  cbv zeta in Hc. destruct Hc as (_ & Hlast & _). exact Hlast.
Defined.

Lemma header_mismatch_skips_source_witness :
  CreateKeyFileIterator disk 10 "bad" = Some None ∧
  files_keys disk 10 ([] ++ "bad" :: ["good"]) = Some ([] ++ [key_of tek0]) ∧
  ∃ h' result,
    Matching_keys disk 10 helper72 ([] ++ "bad" :: ["good"]) =
      Some (h', [key_of tek0]) ∧
    Matching disk 10 helper72 ([] ++ "bad" :: ["good"]) =
      Some (h', Some result) ∧
    length result = 1%nat.
Proof.
  assert (disk !! "bad" = Some bad_header_file) as Hbad
    by (vm_compute; reflexivity).
  assert (take 16 bad_header_file ≠ take 16 kFileHeader) as Hne
    by (vm_compute; discriminate).
  pose proof (header_mismatch_skips_source disk 10 "bad" bad_header_file
                Hbad Hne) as (_ & Hnull & _ & _ & Hkeys & Hmatch).
  split; [exact Hnull|].
  assert (files_keys disk 10 [] = Some []) as Hbefore by reflexivity.
  split.
  - exact (proj1 (Hkeys helper72 [] ["good"] [] [key_of tek0]
                    Hbefore good_file_keys)).
  - assert (prefix_key_map helper72 = new_PrefixIdMap [rpi72]) as Hmap
      by reflexivity.
    destruct (Hmatch ref_sort_contract toy_openssl_contract
                toy_openssl_init_succeeds [rpi72] helper72 [] ["good"]
                [] [key_of tek0] rpi72_records
                (new_MatchingHelper_ready [rpi72]) Hmap
                Hbefore good_file_keys) as (h' & Hm & Hres).
    change (matched_among [rpi72] []) with (@nil TemporaryExposureKeyNano)
      in Hm, Hres.
    rewrite tek0_matched in Hm, Hres.
    destruct (Hres ltac:(done) tek0_encodes) as (result & Hr & Hlen).
    exists h', result. split; [exact Hm|]. split; [exact Hr|exact Hlen].
Defined.

Lemma MatchingLegacy_count_mismatch_witness :
  MatchingLegacy helper72 [tek0] [0] 2 = (helper72, None).
Proof.
  apply MatchingLegacy_count_mismatch. left. simpl. lia.
Defined.

Lemma initNative_rejects_null_and_empty_witness :
  initNative (∅ : gmap positive MatchingHelper) None = (0, ∅) ∧
  initNative (∅ : gmap positive MatchingHelper) (Some []) = (0, ∅).
Proof.
  pose proof (initNative_rejects_null_and_empty ref_sort_contract)
    as (Hnull & Hempty & _).
  split; [apply Hnull|apply Hempty].
Defined.

Lemma first_hit_appends_once_witness :
  snd <$> Matching_keys disk 10 helper72_twice ["good"] = Some [key_of tek0].
Proof.
  assert (matched_among [rpi72; rpi72] <$> files_keys disk 10 ["good"] =
          Some [key_of tek0]) as Hone
    by (by rewrite good_file_keys; simpl; rewrite tek0_matched_once).
  pose proof first_hit_appends_once
    as (_ & _ & _ & _ & _ & _ & _ & Hruns).
  assert (prefix_key_map helper72_twice = new_PrefixIdMap [rpi72; rpi72])
    as Hmap by reflexivity.
  destruct (Hruns ref_sort_contract toy_openssl_contract
              toy_openssl_init_succeeds [rpi72; rpi72] helper72_twice
              rpi72_twice_records
              (new_MatchingHelper_ready [rpi72; rpi72]) Hmap)
    as (_ & Hkeys & _).
  exact (eq_trans (Hkeys disk 10%nat ["good"]) Hone).
Defined.
End witnesses.

(** * Further properties of the code *)

(** ** What is returned *)


(** X1 (what [Matching] returns).  On a helper built over the 16-byte
    records [R], with OpenSSL and [std::sort] meeting their contracts, and
    on files whose keys with an identifier among [R] encode: the matched keys
    at the end of the loops of [Matching] are, in the order consumed, exactly
    those keys of the files one of whose 144 identifiers, derived from the
    key and its rolling start, is among [R]; [Matching] returns [nullptr]
    when there is no such key, and otherwise an array with one entry for
    each of them. *)
Theorem Matching_returns_one_entry_per_matched_key
    `{StdSort} `{NanoPb} `{OpenSSL} (R : list bytes)
    (disk : gmap string bytes) (fuel : nat) (h : MatchingHelper)
    (key_files : list string) (keys : list TemporaryExposureKeyNano) :
  StdSortContract → OpenSSLContract → InitSucceeds →
  Forall (λ r, length r = 16%nat) R →
  storage_ready (aesInputStorage h) →
  prefix_key_map h = new_PrefixIdMap R →
  files_keys disk fuel key_files = Some keys →
  all_encode (matched_among R keys) →
  ∃ h',
    Matching_keys disk fuel h key_files = Some (h', matched_among R keys) ∧
    (matched_among R keys = [] →
     Matching disk fuel h key_files = Some (h', None)) ∧
    (matched_among R keys ≠ [] →
     ∃ result,
       Matching disk fuel h key_files = Some (h', Some result) ∧
       length result = length (matched_among R keys)).
Proof.
  intros Hsort Hssl Hinit HR Hready Hmap Hkeys _.
  by apply (Matching_on_keys Hsort Hssl Hinit R HR).
Qed.

(** X2 (what [MatchingLegacy] returns).  With [key_count] within both
    arrays and key arrays of at least 16 bytes, [MatchingLegacy] returns, in
    increasing order, exactly the indexes [i] below [key_count] for which
    one of the 144 identifiers derived from the first 16 bytes of key [i] and
    start number [i] is among the scan records, and [nullptr] when there is
    none. *)
Theorem MatchingLegacy_returns_indexes_with_scanned_identifier
    `{StdSort} `{OpenSSL} (R : list bytes) (h : MatchingHelper)
    (diagnosis_keys : list bytes) (rolling_start_numbers : list Z)
    (key_count : Z) :
  StdSortContract → OpenSSLContract → InitSucceeds →
  Forall (λ r, length r = 16%nat) R →
  storage_ready (aesInputStorage h) →
  prefix_key_map h = new_PrefixIdMap R →
  key_count ≤ Z.of_nat (length diagnosis_keys) →
  key_count ≤ Z.of_nat (length rolling_start_numbers) →
  keys_have_16_bytes diagnosis_keys key_count →
  (MatchingLegacy h diagnosis_keys rolling_start_numbers key_count).2 =
  let indexes :=
    filter (λ i : Z,
              key_hits R (default [] (diagnosis_keys !! Z.to_nat i))
                (default 0 (rolling_start_numbers !! Z.to_nat i) mod 2 ^ 32)
              = true)
           (Z.of_nat <$> seq 0 (Z.to_nat key_count)) in
  if bool_decide (length indexes = 0%nat) then None else Some indexes.
Proof.
  intros Hsort Hssl Hinit HR Hready Hmap Hdk Hrs _. unfold MatchingLegacy.
  rewrite !bool_decide_false by lia.
  destruct (decide (key_count < 0)) as [Hneg|Hnn].
  { replace (Z.to_nat key_count) with 0%nat by lia. done. }
  pose proof (MatchingLegacy_for_hits Hsort Hssl Hinit R HR diagnosis_keys
                rolling_start_numbers key_count (Z.to_nat key_count) h 0 []
                Hready Hmap ltac:(lia)) as Hl.
  destruct (MatchingLegacy_for _ _ _ _ _ _ _) as [h' indexes].
  simpl in Hl. subst indexes.
  erewrite (list_fmap_ext (λ k : nat, 0 + Z.of_nat k) Z.of_nat);
    [|intros; simpl; lia].
  cbv zeta. by case_bool_decide.
Qed.

(** ** More on the index *)

(** X3 (the index returned is the first one).  For 16-byte records and
    identifier, when [GetIdIndex] finds the identifier, no earlier position
    of the sorted records holds it: with duplicate scan records the query
    returns the first copy. *)
Theorem GetIdIndex_first_position `{StdSort} (R : list bytes) (x : bytes) :
  StdSortContract →
  Forall (λ r, length r = 16%nat) R →
  length x = 16%nat →
  GetIdIndex (new_PrefixIdMap R) x >= 0 →
  ∀ k : nat, Z.of_nat k < GetIdIndex (new_PrefixIdMap R) x →
    scan_records (new_PrefixIdMap R) !! k ≠ Some x.
Proof.
  intros Hsort HR Hx Hfound k Hk Hkx.
  rewrite scan_records_new in Hkx.
  rewrite (GetIdIndex_unfold Hsort) in Hfound, Hk.
  destruct (scan_bucket_spec _ (std_sort Compare R) x
              (count_le (GetPrefix x - 1) R) (count_le (GetPrefix x) R)
              eq_refl) as [[Hr _]|(Hr & _ & Hbefore)]; [lia|].
  pose proof (proj2 (bucket_members Hsort R (GetPrefix x) k x Hkx) eq_refl)
    as Hbucket.
  specialize (Hbefore (Z.of_nat k) ltac:(lia)).
  rewrite Nat2Z.id, Hkx in Hbefore. simpl in Hbefore.
  assert (memcmp_eq x x kIdLength = true) by (by apply memcmp_eq_16).
  congruence.
Qed.

(** X4 (table accesses stay in bounds).  The constructor stores every one
    of the 65536 entries of [prefix_end_index] and nothing outside them; and
    for every identifier the bucket that [GetIdIndex] scans lies within the
    records: [0 ≤ start_index ≤ end_index ≤ scan_record_size]. *)
Theorem index_accesses_in_bounds `{StdSort} (R : list bytes) :
  StdSortContract →
  (∀ q, is_Some (prefix_end_index (new_PrefixIdMap R) !! q) ↔
        0 ≤ q < kIdPrefixIndexSize) ∧
  ∀ id : bytes,
    let m := new_PrefixIdMap R in
    let prefix := GetPrefix id in
    let start_index :=
      if bool_decide (prefix > 0)
      then int_at (prefix_end_index m) (prefix - 1) else 0 in
    let end_index := int_at (prefix_end_index m) prefix in
    0 ≤ prefix < kIdPrefixIndexSize ∧
    0 ≤ start_index ∧ start_index ≤ end_index ∧
    end_index ≤ scan_record_size m ∧
    scan_record_size m = Z.of_nat (length (scan_records m)).
Proof.
  intros Hsort. split.
  - intros q. rewrite (prefix_end_index_lookup Hsort).
    case_decide as Hq; split; [done|by eauto|by intros [? ?]|done].
  - intros id m prefix start_index end_index.
    pose proof (GetPrefix_range id) as Hp. fold prefix in Hp.
    subst m start_index end_index.
    rewrite scan_record_size_new, scan_records_new.
    rewrite (int_at_prefix_end_index Hsort R prefix) by done.
    destruct (sorted_records Hsort R) as [Hperm _].
    rewrite (Permutation_length Hperm).
    pose proof (count_le_bounds prefix R).
    split; [done|]. case_bool_decide.
    + rewrite (int_at_prefix_end_index Hsort R (prefix - 1)) by lia.
      pose proof (count_le_bounds (prefix - 1) R).
      pose proof (count_le_mono (prefix - 1) prefix R ltac:(lia)). lia.
    + lia.
Qed.

(** ** The helper across calls *)

(** X5 (the index is immutable, the buffer keeps its shape).  No sequence
    of [Matching] and [MatchingLegacy] calls changes the prefix index of a
    helper, and the plaintext buffer keeps the twelve constant bytes of
    every block. *)
Theorem operations_preserve_index_and_buffer `{StdSort} `{NanoPb} `{OpenSSL}
    (disk : gmap string bytes) (fuel : nat) (ops : list operation)
    (h : MatchingHelper) :
  match run_operations disk fuel h ops with
  | Some h' =>
      prefix_key_map h' = prefix_key_map h ∧
      (storage_ready (aesInputStorage h) →
       storage_ready (aesInputStorage h'))
  | None => True
  end.
Proof.
  revert h. induction ops as [|op ops IH]; intros h; simpl; [done|].
  destruct op as [key_files|dk rs n].
  - destruct (Matching disk fuel h key_files) as [[h1 r]|] eqn:Hm; simpl;
      [|done].
    destruct (Matching_counter _ _ _ _ _ _ Hm) as (_ & _ & _ & Hm1 & Hr1).
    specialize (IH h1). destruct (run_operations disk fuel h1 ops); [|done].
    destruct IH as [Hm2 Hr2]. split; [congruence|auto].
  - pose proof (MatchingLegacy_frame h dk rs n) as (Hm1 & _ & Hr1).
    specialize (IH (MatchingLegacy h dk rs n).1).
    destruct (run_operations disk fuel _ ops); [|done].
    destruct IH as [Hm2 Hr2]. split; [congruence|auto].
Qed.

(** X6 (the scratch buffer carries nothing over).  On any two helpers
    whose plaintext buffer has the constant bytes in place, whatever was
    derived on them before, [GenerateIds] gives the same result for the same
    key and rolling start, and leaves the 144 plaintext blocks of that
    rolling start in the buffer when HKDF succeeds. *)
Theorem GenerateIds_history_independent `{OpenSSL}
    (h1 h2 : MatchingHelper) (t : bytes) (s : Z) :
  OpenSSLContract → InitSucceeds →
  storage_ready (aesInputStorage h1) →
  storage_ready (aesInputStorage h2) →
  (GenerateIds h1 t s).2 = (GenerateIds h2 t s).2 ∧
  (is_Some (HKDF kRpikLength (take 16 t) [] EN_RPIK) →
   aesInputStorage (GenerateIds h1 t s).1 = concat (rpi_plaintexts 144 s)).
Proof.
  intros Hssl Hinit Hr1 Hr2.
  destruct (HKDF kRpikLength (take 16 t) [] EN_RPIK) as [rpik|] eqn:Hhkdf.
  - pose proof (Hinit (context h1) rpik) as Hok1.
    pose proof (Hinit (context h2) rpik) as Hok2.
    destruct (EVP_EncryptInit_ex (context h1) rpik) as [c1 ok1] eqn:Hi1.
    destruct (EVP_EncryptInit_ex (context h2) rpik) as [c2 ok2] eqn:Hi2.
    simpl in Hok1, Hok2. subst ok1 ok2.
    destruct (GenerateIds_ok Hssl h1 t s rpik c1 Hr1 Hhkdf Hi1) as [h1' Hg1].
    destruct (GenerateIds_ok Hssl h2 t s rpik c2 Hr2 Hhkdf Hi2) as [h2' Hg2].
    split; [by rewrite Hg1, Hg2|]. intros _.
    unfold GenerateIds.
    change (take (Z.to_nat kHkdfInfoLength) kHkdfInfo) with EN_RPIK.
    change (Z.to_nat kTekLength) with 16%nat.
    rewrite Hhkdf, Hi1. cbn [negb]. cbv zeta.
    destruct (EVP_EncryptUpdate _ _) as [[c ids] ok].
    cbn [set_context set_aesInputStorage aesInputStorage fst].
    rewrite write_intervals_ready by done.
    destruct Hr1 as [Hlen Hblk]. by apply stamped_plaintexts.
  - split; [|by intros [? ?]].
    unfold GenerateIds.
    change (take (Z.to_nat kHkdfInfoLength) kHkdfInfo) with EN_RPIK.
    change (Z.to_nat kTekLength) with 16%nat. by rewrite Hhkdf.
Qed.

(** X7 (a key whose derivation fails is counted and skipped).  When HKDF
    fails for a key, the loop body of [Matching] adds one to the counter and
    changes nothing else: the helper is otherwise as before and the key is
    not matched. *)
Theorem derivation_failure_skips_key `{OpenSSL} (h : MatchingHelper)
    (matched : list TemporaryExposureKeyNano) (key : TemporaryExposureKeyNano) :
  HKDF kRpikLength (take 16 (key_data key)) [] EN_RPIK = None →
  Matching_key h matched key =
  (set_last_processed_key_count
     ((last_processed_key_count h + 1) mod 2 ^ 32) h, matched).
Proof.
  intros Hhkdf. unfold Matching_key, GenerateIds.
  change (take (Z.to_nat kHkdfInfoLength) kHkdfInfo) with EN_RPIK.
  change (Z.to_nat kTekLength) with 16%nat. by rewrite Hhkdf.
Qed.

(** ** Opening a source *)

(** X8 (the header check).  [VerifyHeader] on a newly opened file returns
    [true] exactly when the file starts with the 16 bytes
    "EK Export v1    " (a shorter file is rejected), and it then leaves the
    stream right behind them, with its byte budget reduced by 16 and the
    end-of-file indicator clear. *)
Theorem VerifyHeader_accepts_exactly_the_header (contents : bytes) :
  let result := VerifyHeader (CreatePbInputStream (fopen_rb contents)) in
  (result.2 = true ↔ ∃ rest, contents = take 16 kFileHeader ++ rest) ∧
  (result.2 = true →
   result.1 = {| state := {| f_unread := drop 16 contents; f_eof := false |};
                 bytes_left := SIZE_MAX - 16 |}) ∧
  f_unread (state result.1) = drop 16 contents.
Proof.
  intros result.
  assert (result.2 = true ↔ ∃ rest, contents = take 16 kFileHeader ++ rest)
    as Hiff.
  { subst result. rewrite VerifyHeader_spec, bool_decide_eq_true. split.
    - intros Heq. exists (drop 16 contents).
      by rewrite <- Heq, take_drop.
    - intros [rest ->]. by rewrite take_app_length'. }
  split; [done|].
  assert (result.1 =
          {| state := {| f_unread := drop 16 contents;
                         f_eof := bool_decide
                           (Z.of_nat (length (take 16 contents)) < 16) |};
             bytes_left :=
               if bool_decide (Z.of_nat (length (take 16 contents)) = 16)
               then SIZE_MAX - 16 else 0 |}) as Hstream.
  { subst result.
    unfold VerifyHeader, pb_read, ReadFromFileToStream, fread, ferror, feof,
      CreatePbInputStream, fopen_rb.
    change kFileHeaderSize with 16. change (Z.to_nat 16) with 16%nat.
    cbn [state bytes_left f_unread f_eof].
    rewrite bool_decide_false by lia.
    rewrite (bool_decide_false (SIZE_MAX < 16)) by (unfold SIZE_MAX; lia).
    case_bool_decide as Hlen; cbn [fst orb].
    - rewrite (bool_decide_false (_ < 16)) by lia. done.
    - rewrite (bool_decide_true (_ < 16)); [done|].
      rewrite length_take in *. lia. }
  split; [|by rewrite Hstream].
  intros Hok. apply Hiff in Hok as [rest ->]. rewrite Hstream.
  rewrite take_app_length' by done.
  change (Z.of_nat (length (take 16 kFileHeader))) with 16.
  rewrite (bool_decide_true (16 = 16)) by done.
  by rewrite (bool_decide_false (16 < 16)) by lia.
Qed.

Section unusable_sources.
Context `{StdSort} `{NanoPb} `{OpenSSL}.

Lemma CreateKeyFileIterator_unusable disk fuel name :
  unusable disk name → CreateKeyFileIterator disk fuel name = Some None.
Proof.
  unfold unusable. destruct (disk !! name) as [contents|] eqn:Hname.
  - intros Hne. by eapply CreateKeyFileIterator_mismatch.
  - intros _. unfold CreateKeyFileIterator. by rewrite Hname.
Qed.

Lemma files_keys_unusable disk fuel key_files :
  Forall (unusable disk) key_files → files_keys disk fuel key_files = Some [].
Proof.
  induction 1 as [|name rest Hname _ IH]; [done|].
  rewrite files_keys_cons_null; [done|].
  by apply CreateKeyFileIterator_unusable.
Qed.
End unusable_sources.

(** X9 (sources that cannot be used).  A file that does not exist, or whose
    first 16 bytes are not the header, makes no difference to [Matching]:
    the call behaves as on the list without it, whatever comes before and
    after.  On a list of such files only, the empty list included,
    [Matching] returns [nullptr] and leaves the counter at 0, with any
    fuel. *)
Theorem unusable_sources_are_skipped `{StdSort} `{NanoPb} `{OpenSSL}
    (disk : gmap string bytes) (fuel : nat) (h : MatchingHelper) :
  (∀ name before after,
     unusable disk name →
     Matching disk fuel h (before ++ name :: after) =
     Matching disk fuel h (before ++ after)) ∧
  (∀ key_files,
     Forall (unusable disk) key_files →
     Matching disk fuel h key_files =
     Some (set_last_processed_key_count 0 h, None)).
Proof.
  split.
  - intros name before after Hname. rewrite !Matching_spec.
    by rewrite (files_keys_skip disk fuel name before after
                  (CreateKeyFileIterator_unusable disk fuel name Hname)).
  - intros key_files Hall.
    by rewrite Matching_spec, (files_keys_unusable disk fuel key_files Hall).
Qed.

(** ** The iterator *)

Section iterator_tag.
Context `{NanoPb}.
Hypothesis tag_contract : TagContract.

Lemma read_until_settled fuel : ∀ stream tag eof it,
  (eof = true → tag = 0) →
  read_until fuel stream tag eof = Some it → tag_settled it.
Proof.
  induction fuel as [|fuel IH]; intros stream tag eof it Heof; simpl.
  - destruct eof; [|done]. intros [= <-]. left. simpl. by apply Heof.
  - destruct eof.
    + intros [= <-]. left. simpl. by apply Heof.
    + destruct tag_contract as [_ Hc]. specialize (Hc stream).
      destruct (pb_decode_tag stream) as [stream1 [[wire_type tag'] eof']].
      simpl in Hc.
      destruct (IsTagForKeys tag') eqn:Hk.
      * intros [= <-]. by right.
      * by apply IH.
Qed.

Lemma ReadNextKey_settled fuel it it' key :
  tag_settled it → ReadNextKey fuel it = Some (it', key) → tag_settled it'.
Proof.
  intros Hit. unfold ReadNextKey.
  destruct (IsTagForKeys (next_tag_ it)) eqn:Hk; simpl.
  - destruct (pb_decode_delimited (pb_istream_ it)) as [stream [k|]].
    + unfold ReadUntilNextKeyTagOrEnd.
      destruct (read_until fuel _ _ false) as [it2|] eqn:Hr; simpl; [|done].
      intros [= <- _]. eapply read_until_settled; [|exact Hr]. done.
    + intros [= <- _]. by right.
  - by intros [= <- _].
Qed.

(** A scan that ends on the [keys] tag ends right behind it. *)
Lemma read_until_behind fuel : ∀ stream tag it,
  read_until fuel stream tag false = Some it →
  IsTagForKeys (next_tag_ it) = true → behind_keys_tag it.
Proof.
  induction fuel as [|fuel IH]; intros stream tag it; simpl; [done|].
  destruct (pb_decode_tag stream) as [stream1 [[wire_type tag'] eof']] eqn:Hd.
  destruct (IsTagForKeys tag') eqn:Hk.
  - intros [= <-] _. split; [done|]. by exists stream, wire_type, eof'.
  - destruct eof'.
    + destruct fuel; simpl; intros [= <-]; simpl; congruence.
    + apply IH.
Qed.
End iterator_tag.


(** ** Handles *)

Section handles.
Context `{StdSort} `{NanoPb} `{OpenSSL}.

Lemma LastProcessedKeyCount_small (h : MatchingHelper) :
  0 ≤ last_processed_key_count h < 2 ^ 31 →
  LastProcessedKeyCount h = last_processed_key_count h.
Proof. intros Hc. unfold LastProcessedKeyCount. by rewrite bool_decide_true by lia. Qed.

Lemma helper_at_live (heap : gmap positive MatchingHelper) p h :
  heap !! p = Some h → helper_at heap (Z.pos p) = Some (p, h).
Proof. intros Hp. unfold helper_at. by rewrite Hp. Qed.
End handles.

(** X12 (the life of a handle).  When [initNative] returns a handle other
    than 0, the handle addresses a new helper and every other helper is as
    before; [lastProcessedKeyCountNative] on it returns 0; a
    [matchingNative] call that returns leaves the count of the keys it
    consumed (below 2^31) to be read back, keeps the handle alive and
    touches no other helper; [matchingLegacyNative] changes no count; and
    [releaseNative], before or after those calls, gives back the heap as it
    was before [initNative]. *)
Theorem handle_lifecycle `{StdSort} `{NanoPb} `{OpenSSL}
    (heap : gmap positive MatchingHelper) (records : list bytes)
    (handle : Z) (heap1 : gmap positive MatchingHelper) :
  initNative heap (Some records) = (handle, heap1) →
  handle ≠ 0 →
  lastProcessedKeyCountNative heap1 handle = Some 0 ∧
  releaseNative heap1 handle = Some heap ∧
  (∀ q, Z.pos q ≠ handle → heap1 !! q = heap !! q) ∧
  (∀ disk fuel key_files heap2 result,
     matchingNative disk fuel heap1 handle (Some key_files) =
       Some (heap2, result) →
     (∃ keys, files_keys disk fuel key_files = Some keys ∧
        (Z.of_nat (length keys) < 2 ^ 31 →
         lastProcessedKeyCountNative heap2 handle =
           Some (Z.of_nat (length keys)))) ∧
     (∀ q, Z.pos q ≠ handle → heap2 !! q = heap !! q) ∧
     releaseNative heap2 handle = Some heap) ∧
  (∀ dk rs n heap2 result,
     matchingLegacyNative heap1 handle (Some dk) (Some rs) n =
       Some (heap2, result) →
     lastProcessedKeyCountNative heap2 handle = Some 0 ∧
     (∀ q, Z.pos q ≠ handle → heap2 !! q = heap !! q) ∧
     releaseNative heap2 handle = Some heap).
Proof.
  intros Hinit Hnz.
  destruct (initNative_new heap records handle heap1 Hinit Hnz)
    as (_ & p & -> & Hfresh & ->).
  assert (∀ h' : MatchingHelper,
            releaseNative (<[p:=h']> heap) (Z.pos p) = Some heap) as Hrelease.
  { intros h'. unfold releaseNative. rewrite bool_decide_false by done.
    rewrite (helper_at_live _ p h') by apply lookup_insert_eq. simpl.
    rewrite delete_insert_eq. by rewrite delete_id. }
  assert (∀ (h' : MatchingHelper) q,
            Z.pos q ≠ Z.pos p → <[p:=h']> heap !! q = heap !! q) as Hothers.
  { intros h' q Hq. apply lookup_insert_ne. congruence. }
  split; [|split; [|split; [|split]]].
  - unfold lastProcessedKeyCountNative. rewrite bool_decide_false by done.
    by rewrite (helper_at_live _ p (new_MatchingHelper records))
      by apply lookup_insert_eq.
  - apply Hrelease.
  - apply Hothers.
  - intros disk fuel key_files heap2 result. unfold matchingNative.
    rewrite bool_decide_false by done.
    rewrite (helper_at_live _ p (new_MatchingHelper records))
      by apply lookup_insert_eq. simpl.
    destruct (Matching disk fuel _ key_files) as [[h' r]|] eqn:Hm; simpl;
      [|done].
    intros [= <- <-]. rewrite insert_insert_eq.
    destruct (Matching_counter _ _ _ _ _ _ Hm) as (keys & Hk & Hc & _).
    split; [|split; [apply Hothers|apply Hrelease]].
    exists keys. split; [done|]. intros Hlt.
    unfold lastProcessedKeyCountNative. rewrite bool_decide_false by done.
    rewrite (helper_at_live _ p h') by apply lookup_insert_eq. simpl.
    rewrite LastProcessedKeyCount_small; rewrite Hc, Z.mod_small; try done; lia.
  - intros dk rs n heap2 result. unfold matchingLegacyNative.
    rewrite bool_decide_false by done.
    rewrite (helper_at_live _ p (new_MatchingHelper records))
      by apply lookup_insert_eq. simpl.
    pose proof (MatchingLegacy_frame (new_MatchingHelper records) dk rs n)
      as (_ & Hc & _).
    destruct (MatchingLegacy _ dk rs n) as [h' r]. simpl in Hc.
    intros [= <- <-]. rewrite insert_insert_eq.
    split; [|split; [apply Hothers|apply Hrelease]].
    unfold lastProcessedKeyCountNative. rewrite bool_decide_false by done.
    rewrite (helper_at_live _ p h') by apply lookup_insert_eq. simpl.
    by rewrite LastProcessedKeyCount_small; rewrite Hc.
Qed.

(** X13 (the handle of a failed construction).  For a null or an empty
    collection of scan records [initNative] returns a handle that every
    other entry point refuses without touching the heap: [matchingNative]
    and [matchingLegacyNative] return [nullptr],
    [lastProcessedKeyCountNative] returns -1 and [releaseNative] does
    nothing.  A null array argument is refused the same way, whatever the
    handle. *)
Theorem failed_construction_handle_is_refused `{StdSort} `{NanoPb} `{OpenSSL}
    (disk : gmap string bytes) (fuel : nat)
    (heap : gmap positive MatchingHelper) :
  Forall (λ scan_id_records,
            let '(handle, heap') := initNative heap scan_id_records in
            heap' = heap ∧
            (∀ key_files,
               matchingNative disk fuel heap' handle key_files =
               Some (heap, None)) ∧
            (∀ dk rs n,
               matchingLegacyNative heap' handle dk rs n = Some (heap, None)) ∧
            lastProcessedKeyCountNative heap' handle = Some (-1) ∧
            releaseNative heap' handle = Some heap)
         [None; Some []] ∧
  (∀ handle, matchingNative disk fuel heap handle None = Some (heap, None)) ∧
  (∀ handle dk rs n,
     dk = None ∨ rs = None →
     matchingLegacyNative heap handle dk rs n = Some (heap, None)).
Proof.
  split; [|split].
  - repeat constructor; simpl;
      try (intros [key_files|]; done);
      try (intros [dk|] [rs|] n; done).
  - done.
  - intros handle dk rs n [-> | ->]; [done|]. by destruct dk.
Qed.

(** ** [hexStr] *)

Lemma hexStr_digits (b : byte) :
  [hexmap_at (Z.shiftr (Z.land (byte_to_Z b) 240) 4);
   hexmap_at (Z.land (byte_to_Z b) 15)] = hex_digits b.
Proof. destruct b; reflexivity. Qed.

Lemma unhex_hex_digits (b : byte) (rest : bytes) :
  unhex (hex_digits b ++ rest) = (b ::.) <$> unhex rest.
Proof.
  assert (hex_value (hexmap_at (byte_to_Z b / 16)) = Some (byte_to_Z b / 16) ∧
          hex_value (hexmap_at (byte_to_Z b mod 16)) = Some (byte_to_Z b mod 16) ∧
          byte_of_Z (16 * (byte_to_Z b / 16) + byte_to_Z b mod 16) = b)
    as (H1 & H2 & H3) by (destruct b; vm_compute; done).
  cbn [hex_digits app unhex]. rewrite H1, H2. simpl.
  destruct (unhex rest); simpl; [by rewrite H3|done].
Qed.

Lemma hexStr_for_spec n : ∀ (data pre rest : bytes) (len : Z) (i : nat),
  length pre = (2 * i)%nat →
  (2 * n ≤ length rest)%nat →
  (i + n ≤ length data)%nat →
  Z.of_nat (i + n) ≤ len →
  hexStr_for n data len (Z.of_nat i) (pre ++ rest) =
  pre ++ (take n (drop i data) ≫= hex_digits) ++ drop (2 * n) rest.
Proof.
  induction n as [|n IH]; intros data pre rest len i Hpre Hrest Hdata Hlen.
  - simpl. by rewrite drop_0.
  - cbn [hexStr_for]. rewrite bool_decide_true by lia. cbv zeta.
    destruct (lookup_lt_is_Some_2 data i ltac:(lia)) as [b Hb].
    unfold byte_at. rewrite Nat2Z.id, Hb. cbn [from_option].
    destruct rest as [|r0 [|r1 rest]]; [simpl in Hrest; lia..|].
    replace (Z.to_nat (2 * Z.of_nat i)) with (length pre + 0)%nat by lia.
    replace (Z.to_nat (2 * Z.of_nat i + 1)) with (length pre + 1)%nat by lia.
    rewrite !insert_app_r. cbn [list_insert insert].
    pose proof (hexStr_digits b) as Hd.
    set (c1 := hexmap_at (Z.shiftr (Z.land (byte_to_Z b) 240) 4)) in *.
    set (c2 := hexmap_at (Z.land (byte_to_Z b) 15)) in *.
    replace (pre ++ c1 :: c2 :: rest) with ((pre ++ [c1; c2]) ++ rest)
      by (by rewrite <- app_assoc).
    replace (Z.of_nat i + 1) with (Z.of_nat (S i)) by lia.
    rewrite IH; [|rewrite length_app; simpl; lia|simpl in Hrest; lia|lia|lia].
    rewrite <- app_assoc. f_equal.
    rewrite (drop_S data b i Hb). cbn [take mbind list_bind].
    rewrite <- Hd. replace (2 * S n)%nat with (S (S (2 * n))) by lia.
    cbn [drop]. by rewrite <- app_assoc.
Qed.

(** X14 ([hexStr] spells the bytes).  For [len] bytes that [data] has,
    with [len] below 2^30 so that [len * 2] is an [int],
    [hexStr(data, len)] returns a string that is [2 * len] characters long,
    consists of the two lower-case hexadecimal digits of each byte, high
    digit first, and reads back as those bytes: no two different inputs have
    the same text. *)
Theorem hexStr_round_trip (data : bytes) (len : Z) :
  0 ≤ len ≤ Z.of_nat (length data) →
  len < 2 ^ 30 →
  ∃ s : bytes,
    hexStr data len = Some s ∧
    s = take (Z.to_nat len) data ≫= hex_digits ∧
    Z.of_nat (length s) = 2 * len ∧
    Forall (λ c, c ∈ hexmap) s ∧
    unhex s = Some (take (Z.to_nat len) data).
Proof.
  intros Hlen Hint.
  exists (take (Z.to_nat len) data ≫= hex_digits).
  assert (hexStr data len = Some (take (Z.to_nat len) data ≫= hex_digits))
    as Heq.
  { unfold hexStr. rewrite bool_decide_true by lia. f_equal.
    pose proof (hexStr_for_spec (Z.to_nat len) data []
                  (replicate (Z.to_nat (len * 2)) x20) len 0) as Hs.
    change (Z.of_nat 0) with 0 in Hs. change ([] ++ ?x) with x in Hs.
    rewrite Hs; [|done|rewrite length_replicate; lia|lia|lia].
    cbn [app].
    rewrite drop_0, drop_ge, app_nil_r; [done|].
    rewrite length_replicate. lia. }
  split; [exact Heq|]. clear Heq.
  assert (∀ l : bytes,
            length (l ≫= hex_digits) = (2 * length l)%nat ∧
            Forall (λ c, c ∈ hexmap) (l ≫= hex_digits) ∧
            unhex (l ≫= hex_digits) = Some l) as Hgen.
  { induction l as [|b l (IH1 & IH2 & IH3)]; [by repeat split|].
    cbn [mbind list_bind]. split; [|split].
    - rewrite length_app, IH1. simpl. lia.
    - apply Forall_app. split; [|done].
      destruct b; repeat constructor; by vm_compute; apply elem_of_list_In;
        simpl; tauto.
    - by rewrite unhex_hex_digits, IH3. }
  split; [done|].
  destruct (Hgen (take (Z.to_nat len) data)) as (H1 & H2 & H3).
  split; [|done]. rewrite H1, length_take. lia.
Qed.

(** ** Witnesses of the further properties *)

Lemma ref_nanopb_tag_contract : @TagContract ref_nanopb.instance.
Proof.
  split; [done|]. intros stream. simpl. unfold ref_nanopb.decode_tag.
  destruct (ref_nanopb.pb_decode_varint32_eof stream) as [[s' [temp|]] eof];
    [|done].
  by case_bool_decide.
Qed.

Section further_witnesses.
Local Existing Instance ref_sort.
Local Existing Instance ref_nanopb.instance.
Local Existing Instance toy_openssl.instance.
Import scenarios.

Lemma Matching_returns_one_entry_per_matched_key_witness :
  ∃ h' result,
    Matching_keys disk 10 helper72 ["good"] = Some (h', [key_of tek0]) ∧
    Matching disk 10 helper72 ["good"] = Some (h', Some result) ∧
    length result = 1%nat.
Proof.
  assert (prefix_key_map helper72 = new_PrefixIdMap [rpi72]) as Hmap
    by reflexivity.
  assert (all_encode (matched_among [rpi72] [key_of tek0])) as Henc
    by (rewrite tek0_matched; apply tek0_encodes).
  destruct (Matching_returns_one_entry_per_matched_key [rpi72] disk 10
              helper72 ["good"] [key_of tek0] ref_sort_contract
              toy_openssl_contract toy_openssl_init_succeeds rpi72_records
              (new_MatchingHelper_ready [rpi72]) Hmap good_file_keys Henc)
    as (h' & Hm & _ & Hres).
  rewrite tek0_matched in Hm, Hres.
  destruct (Hres ltac:(done)) as (result & Hr & Hlen).
  exists h', result. split; [exact Hm|]. split; [exact Hr|exact Hlen].
Defined.

Lemma MatchingLegacy_returns_indexes_with_scanned_identifier_witness :
  (MatchingLegacy helper72 [tek3; tek0] [0; 0] 2).2 =
  let indexes :=
    filter (λ i : Z,
              key_hits [rpi72] (default [] ([tek3; tek0] !! Z.to_nat i))
                (default 0 ([0; 0] !! Z.to_nat i) mod 2 ^ 32) = true)
           (Z.of_nat <$> seq 0 (Z.to_nat 2)) in
  if bool_decide (length indexes = 0%nat) then None else Some indexes.
Proof.
  apply (MatchingLegacy_returns_indexes_with_scanned_identifier [rpi72]
           helper72 [tek3; tek0] [0; 0] 2 ref_sort_contract
           toy_openssl_contract toy_openssl_init_succeeds rpi72_records).
  - apply new_MatchingHelper_ready.
  - reflexivity.
  - simpl. lia.
  - simpl. lia.
  - intros i key Hi Hkey.
    destruct i as [|[|i]]; [| |lia]; injection Hkey as <-; simpl; lia.
Defined.

Lemma GetIdIndex_first_position_witness :
  scan_records (new_PrefixIdMap [tek3; tek3; tek0]) !! 0%nat ≠ Some tek3.
Proof.
  apply (GetIdIndex_first_position [tek3; tek3; tek0] tek3 ref_sort_contract).
  - repeat constructor.
  - reflexivity.
  - vm_compute. discriminate.
  - vm_compute. reflexivity.
Defined.

Lemma index_accesses_in_bounds_witness :
  is_Some (prefix_end_index (new_PrefixIdMap [tek3; tek0]) !! 65535) ↔
  0 ≤ 65535 < kIdPrefixIndexSize.
Proof.
  pose proof (index_accesses_in_bounds [tek3; tek0] ref_sort_contract)
    as (Hdom & _).
  exact (Hdom 65535).
Defined.

Lemma GenerateIds_history_independent_witness :
  (GenerateIds helper72 tek0 7).2 =
  (GenerateIds (GenerateIds helper72 tek3 5).1 tek0 7).2.
Proof.
  refine (proj1 (GenerateIds_history_independent helper72
                   (GenerateIds helper72 tek3 5).1 tek0 7
                   toy_openssl_contract toy_openssl_init_succeeds _ _)).
  - apply new_MatchingHelper_ready.
  - pose proof (GenerateIds_frame helper72 tek3 5) as Hf.
    destruct (GenerateIds helper72 tek3 5) as [h' r].
    apply Hf, new_MatchingHelper_ready.
Defined.

Lemma derivation_failure_skips_key_witness :
  let h := @new_MatchingHelper ref_sort failing_hkdf [tek0] in
  @Matching_key failing_hkdf h [] (key_of tek0) =
  (@set_last_processed_key_count failing_hkdf
     ((@last_processed_key_count failing_hkdf h + 1) mod 2 ^ 32) h, []).
Proof.
  intros h. apply (@derivation_failure_skips_key failing_hkdf). reflexivity.
Defined.


Lemma handle_lifecycle_witness :
  let made := initNative (∅ : gmap positive MatchingHelper) (Some [tek0]) in
  lastProcessedKeyCountNative made.2 made.1 = Some 0 ∧
  releaseNative made.2 made.1 = Some ∅.
Proof.
  intros made.
  assert (made.1 ≠ 0) as Hnz by done.
  pose proof (handle_lifecycle ∅ [tek0] made.1 made.2
                (surjective_pairing made) Hnz) as (Hcount & Hrelease & _).
  split; [exact Hcount|exact Hrelease].
Defined.

Lemma hexStr_round_trip_witness :
  ∃ s : bytes,
    hexStr [x00; xab; xff] 3 = Some s ∧
    s = take (Z.to_nat 3) [x00; xab; xff] ≫= hex_digits ∧
    Z.of_nat (length s) = 2 * 3 ∧
    Forall (λ c, c ∈ hexmap) s ∧
    unhex s = Some (take (Z.to_nat 3) [x00; xab; xff]).
Proof.
  assert (0 ≤ 3 ≤ Z.of_nat (length [x00; xab; xff])) as Hlen by (simpl; lia).
  assert (3 < 2 ^ 30) as Hint by lia.
  exact (hexStr_round_trip [x00; xab; xff] 3 Hlen Hint).
Defined.
End further_witnesses.

(** ** Well-formed files through the reference decoder *)

Section well_formed_files.
Local Existing Instance ref_sort.
Local Existing Instance ref_nanopb.instance.
Local Existing Instance toy_openssl.instance.
Import scenarios.

Lemma pb_read_available (pre rest : bytes) (c : Z) :
  (0 < length pre)%nat → 0 ≤ c →
  c + Z.of_nat (length pre) ≤ SIZE_MAX →
  pb_read (stream_at (pre ++ rest) c) (Z.of_nat (length pre)) =
  (stream_at rest (c + Z.of_nat (length pre)), pre, true).
Proof.
  intros Hpre Hc Hmax.
  unfold pb_read, ReadFromFileToStream, fread, ferror, feof, stream_at.
  cbn [state bytes_left f_unread f_eof].
  rewrite Nat2Z.id, take_app_length, drop_app_length.
  rewrite bool_decide_false by lia. rewrite bool_decide_false by lia.
  rewrite (bool_decide_false (_ < _)) by lia. cbn [orb].
  rewrite bool_decide_true by done.
  rewrite Z.mod_small by (unfold SIZE_MAX in *; lia).
  do 3 f_equal. lia.
Qed.

Lemma pb_readbyte_available (b : byte) (rest : bytes) (c : Z) :
  0 ≤ c → c + 1 ≤ SIZE_MAX →
  ref_nanopb.pb_readbyte (stream_at (b :: rest) c) =
  (stream_at rest (c + 1), Some b).
Proof.
  intros Hc Hmax.
  unfold ref_nanopb.pb_readbyte, ReadFromFileToStream, fread, ferror, feof,
    stream_at.
  cbn [state bytes_left f_unread f_eof]. change (Z.to_nat 1) with 1%nat.
  cbn [take drop length]. rewrite bool_decide_false by lia.
  rewrite (bool_decide_false (_ < _)) by lia. cbn [orb].
  rewrite bool_decide_true by done.
  rewrite Z.mod_small by (unfold SIZE_MAX in *; lia).
  rewrite drop_0. cbn [head]. do 2 f_equal. lia.
Qed.

Lemma pb_readbyte_at_end (c : Z) :
  0 ≤ c → c < SIZE_MAX →
  ref_nanopb.pb_readbyte (stream_at [] c) = (stream_at_end, None).
Proof.
  intros Hc Hmax.
  unfold ref_nanopb.pb_readbyte, ReadFromFileToStream, fread, ferror, feof,
    stream_at, stream_at_end.
  cbn [state bytes_left f_unread f_eof]. change (Z.to_nat 1) with 1%nat.
  cbn [take drop length]. rewrite bool_decide_false by lia.
  rewrite (bool_decide_true (_ < _)) by lia. cbn [orb].
  by rewrite bool_decide_false by done.
Qed.

Lemma decode_varint32_small (b : byte) (rest : bytes) (c : Z) :
  Z.land (byte_to_Z b) 128 = 0 → 0 ≤ c → c + 1 ≤ SIZE_MAX →
  ref_nanopb.pb_decode_varint32_eof (stream_at (b :: rest) c) =
  (stream_at rest (c + 1), Some (byte_to_Z b), false).
Proof.
  intros Hb Hc Hmax. unfold ref_nanopb.pb_decode_varint32_eof.
  rewrite pb_readbyte_available by done. by rewrite bool_decide_true.
Qed.

Lemma decode_tag_keys (rest : bytes) (c : Z) :
  0 ≤ c → c + 1 ≤ SIZE_MAX →
  ref_nanopb.decode_tag (stream_at (x3a :: rest) c) =
  (stream_at rest (c + 1), (2, 7, false), true).
Proof.
  intros Hc Hmax. unfold ref_nanopb.decode_tag.
  by rewrite decode_varint32_small.
Qed.

Lemma decode_tag_at_end (c : Z) :
  0 ≤ c → c < SIZE_MAX →
  ref_nanopb.decode_tag (stream_at [] c) =
  (stream_at_end, (0, 0, true), false).
Proof.
  intros Hc Hmax.
  unfold ref_nanopb.decode_tag, ref_nanopb.pb_decode_varint32_eof.
  by rewrite pb_readbyte_at_end.
Qed.

Lemma decode_key_entry (key : bytes) :
  length key = 16%nat →
  ref_nanopb.decode_key ([x0a; x10] ++ key ++ [x18; x00]) = Some (key_of key).
Proof.
  intros Hkey.
  do 16 (destruct key as [|? key]; [simpl in Hkey; lia|]).
  destruct key; [|simpl in Hkey; lia].
  vm_compute. reflexivity.
Qed.

Lemma decode_delimited_entry (key rest : bytes) (c : Z) :
  length key = 16%nat → 0 ≤ c → c + 21 ≤ SIZE_MAX →
  ref_nanopb.decode_delimited
    (stream_at ([x14; x0a; x10] ++ key ++ [x18; x00] ++ rest) c) =
  (stream_at rest (c + 21), Some (key_of key)).
Proof.
  intros Hkey Hc Hmax.
  unfold ref_nanopb.decode_delimited, ref_nanopb.pb_decode_varint32.
  cbn [app]. rewrite decode_varint32_small by (done || lia). cbn [fst].
  change (byte_to_Z x14) with 20.
  rewrite bool_decide_false by (unfold stream_at, SIZE_MAX in *; simpl; lia).
  pose proof (pb_read_available ([x0a; x10] ++ key ++ [x18; x00]) rest (c + 1))
    as Hread.
  rewrite !length_app, Hkey in Hread. cbn [length] in Hread.
  change (Z.of_nat (2 + (16 + 2))) with 20 in Hread.
  rewrite <- !app_assoc in Hread. cbn [app] in Hread.
  rewrite Hread by lia. cbn [negb].
  replace (c + 1 + 20) with (c + 21) by lia.
  pose proof (decode_key_entry key Hkey) as Hd. cbn [app] in Hd.
  by rewrite Hd.
Qed.
End well_formed_files.

Section well_formed_iteration.
Local Existing Instance ref_sort.
Local Existing Instance ref_nanopb.instance.
Local Existing Instance toy_openssl.instance.
Import scenarios.

Lemma read_until_at_end fuel (c tag : Z) :
  0 ≤ c → c < SIZE_MAX →
  read_until (S fuel) (stream_at [] c) tag false =
  Some {| pb_istream_ := stream_at_end; next_tag_ := 0 |}.
Proof.
  intros Hc Hmax. cbn [read_until pb_decode_tag ref_nanopb.instance].
  rewrite decode_tag_at_end by done. cbn [fst].
  change (IsTagForKeys 0) with false. cbv iota.
  by destruct fuel.
Qed.

Lemma read_until_at_keys fuel (rest : bytes) (c tag : Z) :
  0 ≤ c → c + 1 ≤ SIZE_MAX →
  read_until (S fuel) (stream_at (x3a :: rest) c) tag false =
  Some {| pb_istream_ := stream_at rest (c + 1); next_tag_ := 7 |}.
Proof.
  intros Hc Hmax. cbn [read_until pb_decode_tag ref_nanopb.instance].
  rewrite decode_tag_keys by done. cbn [fst].
  by change (IsTagForKeys 7) with true.
Qed.

Lemma entries_cons (key : bytes) (keys : list bytes) :
  entries (key :: keys) =
  x3a :: [x14; x0a; x10] ++ key ++ [x18; x00] ++ entries keys.
Proof.
  unfold entries, keys_record. cbn [fmap list_fmap concat app].
  by rewrite <- !app_assoc.
Qed.

(** From behind the tag of an entry on, the iterator returns the keys of
    the remaining entries and then has no next key. *)
Lemma iterate_entries keys : ∀ (key : bytes) (c : Z) (fuel : nat),
  Forall (λ k : bytes, length k = 16%nat) (key :: keys) →
  0 ≤ c → c + 22 * Z.of_nat (S (length keys)) ≤ SIZE_MAX →
  (S (length keys) < fuel)%nat →
  iterate_keys fuel
    {| pb_istream_ :=
         stream_at ([x14; x0a; x10] ++ key ++ [x18; x00] ++ entries keys) c;
       next_tag_ := 7 |} =
  Some (key_of <$> key :: keys).
Proof.
  induction keys as [|key2 keys IH]; intros key c fuel Hall Hc Hmax Hfuel;
    apply Forall_cons in Hall as [Hkey Hall];
    (destruct fuel as [|[|fuel]]; [lia..|]).
  - rewrite (iterate_keys_step_key (S fuel) _
               {| pb_istream_ := stream_at_end; next_tag_ := 0 |} (key_of key));
      [by rewrite iterate_keys_done|done|].
    unfold Next, ReadNextKey. cbn [next_tag_ pb_istream_].
    change (IsTagForKeys 7) with true. cbn [negb].
    cbn [pb_decode_delimited ref_nanopb.instance].
    rewrite decode_delimited_entry by (done || simpl in *; lia).
    unfold ReadUntilNextKeyTagOrEnd. cbn [next_tag_ pb_istream_].
    change (entries []) with (@nil byte).
    by rewrite read_until_at_end by (simpl in *; lia).
  - rewrite (iterate_keys_step_key (S fuel) _
               {| pb_istream_ :=
                    stream_at ([x14; x0a; x10] ++ key2 ++ [x18; x00]
                                 ++ entries keys) (c + 22);
                  next_tag_ := 7 |} (key_of key)); [|done|].
    + rewrite IH; [done|done|lia|simpl in *; lia|simpl in *; lia].
    + unfold Next, ReadNextKey. cbn [next_tag_ pb_istream_].
      change (IsTagForKeys 7) with true. cbn [negb].
      cbn [pb_decode_delimited ref_nanopb.instance].
      rewrite decode_delimited_entry by (done || simpl in *; lia).
      unfold ReadUntilNextKeyTagOrEnd. cbn [next_tag_ pb_istream_].
      rewrite (entries_cons key2 keys).
      rewrite read_until_at_keys by (simpl in *; lia).
      cbn [mbind option_bind]. do 4 f_equal. lia.
Qed.
End well_formed_iteration.

Lemma VerifyHeader_accepts (rest : bytes) :
  VerifyHeader (CreatePbInputStream (fopen_rb (take 16 kFileHeader ++ rest))) =
  ({| state := {| f_unread := rest; f_eof := false |};
      bytes_left := SIZE_MAX - 16 |}, true).
Proof.
  unfold VerifyHeader, pb_read, ReadFromFileToStream, fread, ferror, feof,
    CreatePbInputStream, fopen_rb.
  change kFileHeaderSize with 16. change (Z.to_nat 16) with 16%nat.
  cbn [state bytes_left f_unread f_eof].
  rewrite bool_decide_false by lia.
  rewrite (bool_decide_false (SIZE_MAX < 16)) by (unfold SIZE_MAX; lia).
  rewrite take_app_length', drop_app_length' by done.
  change (Z.of_nat (length (take 16 kFileHeader))) with 16.
  rewrite (bool_decide_true (16 = 16)) by done.
  rewrite (bool_decide_false (16 < 16)) by lia.
  cbn [orb]. reflexivity.
Qed.

Section well_formed_theorem.
Local Existing Instance ref_sort.
Local Existing Instance ref_nanopb.instance.
Local Existing Instance toy_openssl.instance.
Import scenarios.

(** X15 (a well-formed file yields its keys).  With the reference decoder
    of the wire format: for a file made of the header and one [keys] entry
    for each of the given 16-byte keys (rolling start 0), the iterator
    returns exactly those keys, in order, then [HasNext] is false; with
    fuel beyond the number of entries plus one, [Matching] on that file
    returns, and it leaves the counter at the number of entries. *)
Theorem well_formed_file_yields_its_keys (disk : gmap string bytes)
    (name : string) (keys : list bytes) (fuel : nat) (h : MatchingHelper) :
  disk !! name = Some (header ++ entries keys) →
  Forall (λ k : bytes, length k = 16%nat) keys →
  17 + 22 * Z.of_nat (length keys) ≤ SIZE_MAX →
  (S (length keys) < fuel)%nat →
  files_keys disk fuel [name] = Some (key_of <$> keys) ∧
  ∃ h' result,
    Matching disk fuel h [name] = Some (h', result) ∧
    last_processed_key_count h' = Z.of_nat (length keys) mod 2 ^ 32.
Proof.
  intros Hname Hkeys Hmax Hfuel.
  assert (files_keys disk fuel [name] = Some (key_of <$> keys)) as Hfiles.
  { destruct fuel as [|fuel]; [lia|].
    destruct keys as [|key keys].
    - rewrite (files_keys_cons_iterator disk (S fuel) name []
                 {| pb_istream_ := stream_at_end; next_tag_ := 0 |}).
      + by rewrite iterate_keys_done.
      + unfold CreateKeyFileIterator. rewrite Hname.
        unfold header, entries. cbn [fmap list_fmap concat].
        rewrite VerifyHeader_accepts. cbn [negb].
        unfold new_KeyFileIterator, ReadUntilNextKeyTagOrEnd.
        cbn [pb_istream_ next_tag_].
        change {| state := {| f_unread := []; f_eof := false |};
                  bytes_left := SIZE_MAX - 16 |} with (stream_at [] 16).
        by rewrite read_until_at_end by (unfold SIZE_MAX; lia).
    - rewrite (files_keys_cons_iterator disk (S fuel) name []
                 {| pb_istream_ :=
                      stream_at ([x14; x0a; x10] ++ key ++ [x18; x00]
                                   ++ entries keys) 17;
                    next_tag_ := 7 |}).
      + rewrite iterate_entries;
          [|done|lia|simpl in *; lia|simpl in *; lia].
        cbn [mbind option_bind files_keys]. by rewrite app_nil_r.
      + unfold CreateKeyFileIterator. rewrite Hname.
        unfold header. rewrite entries_cons.
        rewrite VerifyHeader_accepts. cbn [negb].
        unfold new_KeyFileIterator, ReadUntilNextKeyTagOrEnd.
        cbn [pb_istream_ next_tag_].
        change {| state := {| f_unread := ?u; f_eof := false |};
                  bytes_left := SIZE_MAX - 16 |} with (stream_at u 16).
        by rewrite read_until_at_keys by (unfold SIZE_MAX; lia). }
  split; [done|].
  destruct (Matching disk fuel h [name]) as [[h' result]|] eqn:Hm.
  - exists h', result. split; [done|].
    destruct (Matching_counter _ _ _ _ _ _ Hm) as (keys' & Hk & Hc & _).
    rewrite Hfiles in Hk. injection Hk as <-. by rewrite length_fmap in Hc.
  - rewrite Matching_spec, Hfiles in Hm. simpl in Hm.
    by destruct (process_keys _ _ _).
Qed.

Lemma well_formed_file_yields_its_keys_witness :
  files_keys disk 3 ["good"] = Some (key_of <$> [tek0]).
Proof.
  assert (disk !! "good" = Some (header ++ entries [tek0])) as Hgood
    by (vm_compute; reflexivity).
  assert (Forall (λ k : bytes, length k = 16%nat) [tek0]) as H16
    by (repeat constructor).
  assert (17 + 22 * Z.of_nat (length [tek0]) ≤ SIZE_MAX) as Hmax
    by (unfold SIZE_MAX; simpl; lia).
  assert (S (length [tek0]) < 3)%nat as Hfuel by (simpl; lia).
  pose proof (well_formed_file_yields_its_keys disk "good" [tek0] 3 helper72
                Hgood H16 Hmax Hfuel) as (Hk & _).
  exact Hk.
Defined.
End well_formed_theorem.

(** ** The read callback and the comparator *)

(** X16 (the read callback).  [ReadFromFileToStream] hands out the first
    [size] unread bytes of the file, or all of them when fewer are left, and
    moves the file behind them; it returns [true] exactly when [size] bytes
    were there; when they were not, it sets [bytes_left] to 0, which is how
    the decoder learns of the end of the file; and a full read on a file
    that has not met its end leaves [bytes_left] alone. *)
Theorem ReadFromFileToStream_contract (stream : pb_istream_t) (size : Z) :
  0 ≤ size →
  let result := ReadFromFileToStream stream size in
  let stream' := result.1.1 in
  let buffer := result.1.2 in
  buffer ++ f_unread (state stream') = f_unread (state stream) ∧
  Z.of_nat (length buffer) =
    Z.min size (Z.of_nat (length (f_unread (state stream)))) ∧
  (result.2 = true ↔ size ≤ Z.of_nat (length (f_unread (state stream)))) ∧
  (result.2 = false → bytes_left stream' = 0 ∧ f_eof (state stream') = true) ∧
  (result.2 = true → f_eof (state stream) = false →
   bytes_left stream' = bytes_left stream ∧ f_eof (state stream') = false).
Proof.
  intros Hsize result stream' buffer.
  subst stream' buffer result.
  unfold ReadFromFileToStream, fread, ferror, feof.
  cbn [fst snd state bytes_left f_unread f_eof].
  set (unread := f_unread (state stream)).
  assert (Z.of_nat (length (take (Z.to_nat size) unread)) =
          Z.min size (Z.of_nat (length unread))) as Hlen
    by (rewrite length_take; lia).
  split; [apply take_drop|]. split; [done|].
  rewrite bool_decide_eq_true, bool_decide_eq_false.
  split; [lia|]. split.
  - intros Hshort. rewrite (bool_decide_true (_ < size)) by lia.
    by rewrite orb_true_r.
  - intros Hfull Heof. rewrite Heof.
    by rewrite (bool_decide_false (_ < size)) by lia.
Qed.

Lemma ReadFromFileToStream_contract_witness :
  (ReadFromFileToStream (CreatePbInputStream (fopen_rb [x01; x02; x03])) 2).2
    = true ↔
  2 ≤ Z.of_nat (length [x01; x02; x03]).
Proof.
  assert (0 ≤ 2) as Hsize by lia.
  pose proof (ReadFromFileToStream_contract
                (CreatePbInputStream (fopen_rb [x01; x02; x03])) 2 Hsize)
    as (_ & _ & Hiff & _).
  exact Hiff.
Defined.

(** X17 (the comparator of the sort).  [Compare] is a strict weak
    ordering, as [std::sort] requires of its comparator, and two records
    are equivalent under it exactly when their first two bytes agree: the
    sort groups the records by prefix, in increasing little-endian order. *)
Theorem Compare_orders_by_prefix :
  StrictWeakOrder Compare ∧
  (∀ a b : bytes,
     Compare a b = true ↔
     byte_at a 0 + 256 * byte_at a 1 < byte_at b 0 + 256 * byte_at b 1) ∧
  (∀ a b : bytes,
     (2 ≤ length a)%nat → (2 ≤ length b)%nat →
     (Compare a b = false ∧ Compare b a = false ↔ take 2 a = take 2 b)).
Proof.
  split; [apply Compare_swo|]. split.
  - intros a b. unfold Compare, GetPrefixInner. apply bool_decide_eq_true.
  - intros a b Ha Hb. unfold Compare, GetPrefixInner, byte_at.
    rewrite !bool_decide_eq_false.
    destruct a as [|a0 [|a1 a]]; [simpl in Ha; lia..|].
    destruct b as [|b0 [|b1 b]]; [simpl in Hb; lia..|].
    cbn [lookup list_lookup from_option take].
    pose proof (byte_to_Z_range a0). pose proof (byte_to_Z_range a1).
    pose proof (byte_to_Z_range b0). pose proof (byte_to_Z_range b1).
    split.
    + intros [Hab Hba].
      assert (byte_to_Z a0 = byte_to_Z b0 ∧ byte_to_Z a1 = byte_to_Z b1)
        as [E0 E1] by lia.
      unfold byte_to_Z in E0, E1.
      apply N2Z.inj in E0. apply N2Z.inj in E1.
      assert (∀ x y, Byte.to_N x = Byte.to_N y → x = y) as Hinj.
      { intros x y Hxy. apply (f_equal Byte.of_N) in Hxy.
        rewrite !Byte.of_to_N in Hxy. by injection Hxy. }
      by rewrite (Hinj _ _ E0), (Hinj _ _ E1).
    + intros [= -> ->]. lia.
Qed.
